(** * Medical Query Firewall: the decision pipeline of [app/utils.py] and
    the request handler of [app/app.py], embedded and verified.

    Layout of the development:
    - [Chars]: Python text as a sequence of Latin-1 code points;
    - [Re]: the fragment of Python's [re] module the sources rely on
      (parser, greedy backtracking matcher, [search], [sub]);
    - [Utils]: [mask_pii], [match_rules], [classify_text],
      [decision_aggregator] and the import of the module;
    - [Llm], [AuditDb] and [App]: [pass_through_llm], [insert_audit] and
      [chat_endpoint];
    - [Policy] and [Masking]: the vocabulary of the specification;
    - the theorems, one group per component, each followed by its sample
      inputs. *)

From Stdlib Require Import String Ascii List Bool Arith NArith Lia Floats.
Import ListNotations.

Set Implicit Arguments.
#[local] Set Warnings "-inexact-float".

(* ================================================================== *)
(** * Text and characters *)
(* ================================================================== *)

(** A Python [str] is modelled as the list of its code points, restricted to
    U+0000..U+00FF, one [ascii] each.  Identifiers that the program never
    scans (rule ids, class labels) are [string]s. *)
Definition text := list ascii.

Module Chars.

Definition code (c : ascii) : N := N_of_ascii c.

Definition between (lo hi : N) (c : ascii) : bool :=
  ((lo <=? code c) && (code c <=? hi))%N.

Definition in_range (lo hi c : ascii) : bool := between (code lo) (code hi) c.

(** [str.isdecimal]-style digits: the class [\d] on Latin-1. *)
Definition is_digit (c : ascii) : bool := between 48 57 c.

Definition is_ascii_lower (c : ascii) : bool := between 97 122 c.
Definition is_ascii_upper (c : ascii) : bool := between 65 90 c.

(** The class [\w] of a [str] pattern on Latin-1: alphanumerics in the
    Unicode sense and the underscore. *)
Definition is_word (c : ascii) : bool :=
  is_digit c || is_ascii_upper c || is_ascii_lower c || (code c =? 95)%N
  || (code c =? 170)%N || between 178 179 c || (code c =? 181)%N
  || between 185 186 c || between 188 190 c
  || between 192 214 c || between 216 246 c || between 248 255 c.

(** The class [\s] on Latin-1. *)
Definition is_space (c : ascii) : bool :=
  between 9 13 c || between 28 32 c || (code c =? 133)%N || (code c =? 160)%N.

(** Upper-case letters of Latin-1 that have a lower-case partner in it. *)
Definition has_lower (c : ascii) : bool :=
  is_ascii_upper c || ((between 192 222 c) && negb (code c =? 215)%N).

Definition has_upper (c : ascii) : bool :=
  is_ascii_lower c || ((between 224 254 c) && negb (code c =? 247)%N).

(** [str.lower] on one character. *)
Definition lower (c : ascii) : ascii :=
  if has_lower c then ascii_of_N (code c + 32) else c.

(** The Latin-1 upper-case partner, when there is one (used by
    case-insensitive sets). *)
Definition upper1 (c : ascii) : ascii :=
  if has_upper c then ascii_of_N (code c - 32) else c.

(** [str.upper] on one character.  The sharp s becomes two letters; the
    micro sign and the y with diaeresis have their capitals outside Latin-1
    and are left as they are, which changes no comparison with an ASCII
    constant. *)
Definition upper (c : ascii) : text :=
  if (code c =? 223)%N then ["S"; "S"]%char else [upper1 c].

Definition str_lower (s : text) : text := map lower s.
Definition str_upper (s : text) : text := flat_map upper s.

Fixpoint text_eqb (a b : text) : bool :=
  match a, b with
  | [], [] => true
  | x :: a', y :: b' => Ascii.eqb x y && text_eqb a' b'
  | _, _ => false
  end.

End Chars.

(** Literals: ["abc"%string] read as a text. *)
Definition txt (s : string) : text := list_ascii_of_string s.

(* ================================================================== *)
(** * The regular-expression fragment *)
(* ================================================================== *)

Module Re.
Import Chars.

Inductive category := CDigit | CWord | CSpace.

(** Members of a bracketed set. *)
Inductive set_item :=
| SChar (c : ascii)
| SRange (lo hi : ascii)
| SCat (negated : bool) (k : category).

(** Abstract syntax.  [r+] is [Seq r (Star r)], [r?] is [Alt r Eps] and
    [r{m,n}] is unfolded by the parser; groups capture nothing the sources
    ever read, so they leave no node. *)
Inductive regex :=
| Eps
| Lit (c : ascii)
| AnyChar
| CharSet (negated : bool) (items : list set_item)
| Seq (r1 r2 : regex)
| Alt (r1 r2 : regex)
| Star (r : regex)
| Bol
| Eol
| WordB
| NotWordB.

(** A compiled pattern: the syntax tree and the [re.IGNORECASE] flag. *)
Record pattern := { pat_re : regex; pat_ignorecase : bool }.

(** ** Matching one character *)

Definition in_category (k : category) (c : ascii) : bool :=
  match k with
  | CDigit => is_digit c
  | CWord => is_word c
  | CSpace => is_space c
  end.

Definition item_has (it : set_item) (c : ascii) : bool :=
  match it with
  | SChar x => Ascii.eqb x c
  | SRange lo hi => in_range lo hi c
  | SCat neg k => xorb neg (in_category k c)
  end.

(** Under [IGNORECASE] a set item accepts [c] when it holds a character
    with the same lower case as [c]; categories are tested on [lower c]. *)
Definition item_has_ic (it : set_item) (c : ascii) : bool :=
  match it with
  | SCat _ _ => item_has it (lower c)
  | _ => item_has it (lower c) || item_has it (upper1 c)
  end.

Definition set_has (ic : bool) (items : list set_item) (c : ascii) : bool :=
  existsb (fun it => if ic then item_has_ic it c else item_has it c) items.

Definition lit_eqb (ic : bool) (x c : ascii) : bool :=
  if ic then Ascii.eqb (lower x) (lower c) else Ascii.eqb x c.

Definition newline : ascii := ascii_of_N 10.

(** ** The backtracking matcher

    A position in the subject is the character before it (for [\b] and
    [^]) and the text that remains.  The matcher is written in
    continuation-passing style: [k] is what must still match afterwards, and
    the first alternative that lets [k] succeed wins, which is how the
    greedy operators of [re] choose. *)

Definition is_word_opt (o : option ascii) : bool :=
  match o with Some c => is_word c | None => false end.

Definition at_boundary (prev : option ascii) (s : text) : bool :=
  xorb (is_word_opt prev) (is_word_opt (hd_error s)).

(** [\B]: not at a boundary; like [\b], it never matches in an empty
    subject. *)
Definition non_boundary (prev : option ascii) (s : text) : bool :=
  negb (at_boundary prev s)
  && match prev, s with None, [] => false | _, _ => true end.

Definition at_bol (prev : option ascii) : bool :=
  match prev with None => true | Some _ => false end.

(** [$] without [MULTILINE]: the end, or just before a final newline. *)
Definition at_eol (s : text) : bool :=
  match s with
  | [] => true
  | [c] => Ascii.eqb c newline
  | _ => false
  end.

Section Matcher.
Variable A : Type.
Variable ic : bool.

Definition cont := option ascii -> text -> option A.

Definition or_else (x y : option A) : option A :=
  match x with Some _ => x | None => y end.

Definition step_char (ok : ascii -> bool) (prev : option ascii) (s : text)
    (k : cont) : option A :=
  match s with
  | c :: s' => if ok c then k (Some c) s' else None
  | [] => None
  end.

(** The greedy loop of [r*]: one more turn of the body first; a turn that
    consumes nothing is the last one.  [n] bounds the turns by the text
    that is left. *)
Fixpoint star_loop (body : option ascii -> text -> cont -> option A) (k : cont)
    (n : nat) (prev : option ascii) (s : text) {struct n} : option A :=
  match n with
  | O => k prev s
  | S n' =>
      or_else
        (body prev s (fun prev' s' =>
           if length s' <? length s then star_loop body k n' prev' s' else k prev' s'))
        (k prev s)
  end.

Fixpoint run (r : regex) (prev : option ascii) (s : text) (k : cont)
    {struct r} : option A :=
  match r with
  | Eps => k prev s
  | Lit x => step_char (lit_eqb ic x) prev s k
  | AnyChar => step_char (fun c => negb (Ascii.eqb c newline)) prev s k
  | CharSet neg items => step_char (fun c => xorb neg (set_has ic items c)) prev s k
  | Seq r1 r2 => run r1 prev s (fun prev' s' => run r2 prev' s' k)
  | Alt r1 r2 => or_else (run r1 prev s k) (run r2 prev s k)
  | Star r1 => star_loop (run r1) k (S (length s)) prev s
  | Bol => if at_bol prev then k prev s else None
  | Eol => if at_eol s then k prev s else None
  | WordB => if at_boundary prev s then k prev s else None
  | NotWordB => if non_boundary prev s then k prev s else None
  end.

End Matcher.

(** What the matcher computes, as a relation: [Matches ic r prev s prev' s']
    when [r] can match from the position [(prev, s)] to the position
    [(prev', s')]. *)
Inductive Matches (ic : bool)
  : regex -> option ascii -> text -> option ascii -> text -> Prop :=
| M_eps p s : Matches ic Eps p s p s
| M_lit x c p s :
    lit_eqb ic x c = true -> Matches ic (Lit x) p (c :: s) (Some c) s
| M_any c p s :
    Ascii.eqb c newline = false -> Matches ic AnyChar p (c :: s) (Some c) s
| M_set neg items c p s :
    xorb neg (set_has ic items c) = true ->
    Matches ic (CharSet neg items) p (c :: s) (Some c) s
| M_seq r1 r2 p s p1 s1 p2 s2 :
    Matches ic r1 p s p1 s1 -> Matches ic r2 p1 s1 p2 s2 ->
    Matches ic (Seq r1 r2) p s p2 s2
| M_alt_l r1 r2 p s p' s' :
    Matches ic r1 p s p' s' -> Matches ic (Alt r1 r2) p s p' s'
| M_alt_r r1 r2 p s p' s' :
    Matches ic r2 p s p' s' -> Matches ic (Alt r1 r2) p s p' s'
| M_star_stop r p s : Matches ic (Star r) p s p s
| M_star_more r p s p1 s1 p2 s2 :
    Matches ic r p s p1 s1 -> length s1 < length s ->
    Matches ic (Star r) p1 s1 p2 s2 ->
    Matches ic (Star r) p s p2 s2
| M_star_last r p s p' s' :
    Matches ic r p s p' s' -> Matches ic (Star r) p s p' s'
| M_bol p s : at_bol p = true -> Matches ic Bol p s p s
| M_eol p s : at_eol s = true -> Matches ic Eol p s p s
| M_wordb p s : at_boundary p s = true -> Matches ic WordB p s p s
| M_notwordb p s : non_boundary p s = true -> Matches ic NotWordB p s p s.

(** [match_at p must_advance prev s]: the text left after the match that
    [re] finds at this position, if any.  [must_advance] refuses an empty
    match (the engine sets it after an empty match, see [sub]). *)
Definition match_at (p : pattern) (must_advance : bool) (prev : option ascii)
    (s : text) : option text :=
  run (pat_ignorecase p) (pat_re p) prev s
      (fun _ s' => if must_advance && (length s' =? length s) then None else Some s').

(** [Pattern.search]: is there a match starting at some position? *)
Fixpoint search_from (p : pattern) (prev : option ascii) (s : text) : bool :=
  match match_at p false prev s with
  | Some _ => true
  | None =>
      match s with
      | [] => false
      | c :: s' => search_from p (Some c) s'
      end
  end.

Definition search (p : pattern) (s : text) : bool := search_from p None s.

(** [Pattern.sub(repl, s)] for a replacement without escapes or group
    references: every leftmost non-overlapping match is replaced, left to
    right.  [skip] counts the characters of the current match that are
    still to be dropped.  After an empty match the same position is tried
    again with [must_advance]. *)
Fixpoint sub_from (p : pattern) (repl : text) (skip : nat)
    (prev : option ascii) (s : text) {struct s} : text :=
  match s with
  | [] =>
      match skip, match_at p false prev [] with
      | O, Some _ => repl
      | _, _ => []
      end
  | c :: s' =>
      match skip with
      | S k => sub_from p repl k (Some c) s'
      | O =>
          match match_at p false prev s with
          | None => c :: sub_from p repl 0 (Some c) s'
          | Some rest =>
              match length s - length rest with
              | S k => repl ++ sub_from p repl k (Some c) s'
              | O =>
                  repl ++
                  match match_at p true prev s with
                  | None => c :: sub_from p repl 0 (Some c) s'
                  | Some rest' =>
                      repl ++ sub_from p repl (length s' - length rest') (Some c) s'
                  end
              end
          end
      end
  end.

Definition sub (p : pattern) (repl : text) (s : text) : text :=
  sub_from p repl 0 None s.


(** ** The parser

    [compile] reads the fragment of the pattern syntax made of literals,
    [.], [^], [$], alternation, groups (capturing or [(?:...)]), bracketed
    sets with ranges, negation and class escapes, the escapes
    [\d \D \w \W \s \S \b \B \n \t \r \f \v \a] and escaped punctuation, and
    the greedy quantifiers [*], [+], [?], [{m}], [{m,}], [{m,n}], [{,n}].
    [None] is the [re.error] that [re.compile] raises.  Lazy and possessive
    quantifiers, look-around, back-references, inline flags, named groups,
    numeric escapes, and a bounded repetition [{m,n}] with [n >= m + 2] of
    an expression that can match the empty string are outside the
    fragment: the parser refuses them too, and says nothing about what
    [re] does with them. *)

Definition seq (r1 r2 : regex) : regex :=
  match r1, r2 with
  | Eps, _ => r2
  | _, Eps => r1
  | _, _ => Seq r1 r2
  end.

Fixpoint rep_exact (n : nat) (r : regex) : regex :=
  match n with
  | O => Eps
  | S n' => seq r (rep_exact n' r)
  end.

Fixpoint rep_upto (n : nat) (r : regex) : regex :=
  match n with
  | O => Eps
  | S n' => Alt (seq r (rep_upto n' r)) Eps
  end.

(** The expression can match without consuming anything. *)
Fixpoint nullable (r : regex) : bool :=
  match r with
  | Lit _ | AnyChar | CharSet _ _ => false
  | Seq r1 r2 => nullable r1 && nullable r2
  | Alt r1 r2 => nullable r1 || nullable r2
  | Eps | Star _ | Bol | Eol | WordB | NotWordB => true
  end.

(** [r{lo,hi}], greedy; [hi = None] is unbounded. *)
Definition repeat_re (lo : nat) (hi : option nat) (r : regex) : regex :=
  match hi with
  | None => seq (rep_exact lo r) (Star r)
  | Some h => seq (rep_exact lo r) (rep_upto (h - lo) r)
  end.

Definition is_ascii_alnum (c : ascii) : bool :=
  is_digit c || is_ascii_upper c || is_ascii_lower c.

Definition is_special (c : ascii) : bool :=
  existsb (Ascii.eqb c) (txt ".\[{()*+?^$|").

(** Escapes that denote one control character, in and out of sets. *)
Definition control_escape (c : ascii) : option ascii :=
  match c with
  | "a" => Some (ascii_of_N 7)
  | "f" => Some (ascii_of_N 12)
  | "n" => Some (ascii_of_N 10)
  | "r" => Some (ascii_of_N 13)
  | "t" => Some (ascii_of_N 9)
  | "v" => Some (ascii_of_N 11)
  | "\" => Some "\"
  | _ => None
  end%char.

Definition category_escape (c : ascii) : option (bool * category) :=
  match c with
  | "d" => Some (false, CDigit)
  | "D" => Some (true, CDigit)
  | "w" => Some (false, CWord)
  | "W" => Some (true, CWord)
  | "s" => Some (false, CSpace)
  | "S" => Some (true, CSpace)
  | _ => None
  end%char.

(** Decimal digits at the head of [s]: whether there were any, their value,
    and what follows. *)
Fixpoint read_digits (seen : bool) (acc : nat) (s : text) : bool * nat * text :=
  match s with
  | c :: s' =>
      if is_digit c
      then read_digits true (10 * acc + N.to_nat (code c - 48)) s'
      else (seen, acc, s)
  | [] => (seen, acc, s)
  end.

Inductive brace :=
| NotRepeat                                        (* the brace is a literal *)
| BadRepeat                                        (* min greater than max *)
| Repeat (lo : nat) (hi : option nat) (rest : text).

(** What follows an opening brace. *)
Definition read_brace (s : text) : brace :=
  match s with
  | "}"%char :: _ => NotRepeat
  | _ =>
      let '(seen_lo, lo, s1) := read_digits false 0 s in
      let '(seen_hi, hi, s2) :=
        match s1 with
        | ","%char :: s1' => read_digits false 0 s1'
        | _ => (seen_lo, lo, s1)
        end in
      match s2 with
      | "}"%char :: rest =>
          if seen_hi && (hi <? lo) then BadRepeat
          else Repeat lo (if seen_hi then Some hi else None) rest
      | _ => NotRepeat
      end
  end.

(** One member of a set: a character or a class escape. *)
Inductive set_elem := ELit (c : ascii) | ECat (negated : bool) (k : category).

Definition elem_item (e : set_elem) : set_item :=
  match e with
  | ELit c => SChar c
  | ECat neg k => SCat neg k
  end.

Definition read_set_elem (s : text) : option (set_elem * text) :=
  match s with
  | [] => None
  | "\"%char :: [] => None
  | "\"%char :: c :: s' =>
      match category_escape c, control_escape c with
      | Some (neg, k), _ => Some (ECat neg k, s')
      | None, Some x => Some (ELit x, s')
      | None, None =>
          if Ascii.eqb c "b" then Some (ELit (ascii_of_N 8), s')
          else if is_ascii_alnum c then None
          else Some (ELit c, s')
      end
  | c :: s' => Some (ELit c, s')
  end.

(** The members of a set, after the opening bracket and the optional [^].
    A closing bracket that comes first is a member. *)
Fixpoint read_set (n : nat) (acc : list set_item) (s : text)
    : option (list set_item * text) :=
  match n with
  | O => None
  | S n' =>
      match s, acc with
      | [], _ => None
      | "]"%char :: s', _ :: _ => Some (acc, s')
      | _, _ =>
          match read_set_elem s with
          | None => None
          | Some (e1, s1) =>
              match s1 with
              | "-"%char :: [] => None
              | "-"%char :: "]"%char :: s2 =>
                  Some (acc ++ [elem_item e1; SChar "-"], s2)
              | "-"%char :: s2 =>
                  match read_set_elem s2 with
                  | Some (ELit hi, s3) =>
                      match e1 with
                      | ELit lo =>
                          if (code hi <? code lo)%N then None
                          else read_set n' (acc ++ [SRange lo hi]) s3
                      | ECat _ _ => None
                      end
                  | _ => None
                  end
              | _ => read_set n' (acc ++ [elem_item e1]) s1
              end
          end
      end
  end.

(** An escape outside a set: the node and whether it is an assertion. *)
Definition read_escape (c : ascii) : option (regex * bool) :=
  match category_escape c, control_escape c with
  | Some (neg, k), _ => Some (CharSet false [SCat neg k], false)
  | None, Some x => Some (Lit x, false)
  | None, None =>
      if Ascii.eqb c "b" then Some (WordB, true)
      else if Ascii.eqb c "B" then Some (NotWordB, true)
      else if is_ascii_alnum c then None
      else Some (Lit c, false)
  end.

(** The quantifier after an item, if there is one.  [is_at] marks an
    assertion, which cannot be repeated; a second quantifier, and the [?]
    or [+] that would make the first one lazy or possessive, are refused. *)
Definition read_repeat (r : regex) (is_at : bool) (s : text)
    : option (regex * text) :=
  let apply lo hi rest :=
    if is_at then None
    else if nullable r && match hi with Some h => lo + 2 <=? h | None => false end
    then None
    else
      match rest with
      | "?"%char :: _ | "+"%char :: _ | "*"%char :: _ => None
      | "{"%char :: rest' =>
          match read_brace rest' with
          | NotRepeat => Some (repeat_re lo hi r, rest)
          | _ => None
          end
      | _ => Some (repeat_re lo hi r, rest)
      end in
  match s with
  | "*"%char :: rest => apply 0 None rest
  | "+"%char :: rest => apply 1 None rest
  | "?"%char :: rest => apply 0 (Some 1) rest
  | "{"%char :: rest =>
      match read_brace rest with
      | NotRepeat => Some (r, s)
      | BadRepeat => None
      | Repeat lo hi rest' => apply lo hi rest'
      end
  | _ => Some (r, s)
  end.

Fixpoint parse_alt (n : nat) (s : text) {struct n} : option (regex * text) :=
  match n with
  | O => None
  | S n' =>
      match parse_seq n' s with
      | Some (r1, "|"%char :: s1) =>
          match parse_alt n' s1 with
          | Some (r2, s2) => Some (Alt r1 r2, s2)
          | None => None
          end
      | other => other
      end
  end
with parse_seq (n : nat) (s : text) {struct n} : option (regex * text) :=
  match n with
  | O => None
  | S n' =>
      match s with
      | [] => Some (Eps, s)
      | "|"%char :: _ | ")"%char :: _ => Some (Eps, s)
      | _ =>
          match parse_item n' s with
          | Some (r1, s1) =>
              match parse_seq n' s1 with
              | Some (r2, s2) => Some (seq r1 r2, s2)
              | None => None
              end
          | None => None
          end
      end
  end
with parse_item (n : nat) (s : text) {struct n} : option (regex * text) :=
  match n with
  | O => None
  | S n' =>
      let group body :=
        match parse_alt n' body with
        | Some (r, ")"%char :: rest) => read_repeat r false rest
        | _ => None
        end in
      match s with
      | [] => None
      | "\"%char :: [] => None
      | "\"%char :: c :: rest =>
          match read_escape c with
          | Some (r, is_at) => read_repeat r is_at rest
          | None => None
          end
      | "["%char :: "^"%char :: rest =>
          match read_set (S (length rest)) [] rest with
          | Some (items, rest') => read_repeat (CharSet true items) false rest'
          | None => None
          end
      | "["%char :: rest =>
          match read_set (S (length rest)) [] rest with
          | Some (items, rest') => read_repeat (CharSet false items) false rest'
          | None => None
          end
      | "("%char :: "?"%char :: ":"%char :: rest => group rest
      | "("%char :: "?"%char :: _ => None
      | "("%char :: rest => group rest
      | "."%char :: rest => read_repeat AnyChar false rest
      | "^"%char :: rest => read_repeat Bol true rest
      | "$"%char :: rest => read_repeat Eol true rest
      | "{"%char :: rest =>
          match read_brace rest with
          | NotRepeat => read_repeat (Lit "{") false rest
          | _ => None
          end
      | c :: rest =>
          if is_special c then None else read_repeat (Lit c) false rest
      end
  end.

(** [re.compile(pat, flags)], with [ignorecase] for [re.IGNORECASE]. *)
Definition compile (ignorecase : bool) (pat : string) : option pattern :=
  let s := txt pat in
  match parse_alt (3 * length s + 4) s with
  | Some (r, []) => Some {| pat_re := r; pat_ignorecase := ignorecase |}
  | _ => None
  end.

End Re.

(* ================================================================== *)
(** * Exceptions *)
(* ================================================================== *)

(** The exceptions the modelled code can raise, and a computation that
    returns or raises. *)
Inductive exn :=
| ReError (pat : string)            (* re.error, from re.compile *)
| ValueError                        (* argmax of an empty sequence; a float
                                       that JSON cannot render *)
| IndexError                        (* label index out of range *)
| FileNotFoundError (path : string)
| DatabaseError (msg : string)      (* sqlite3.Error *)
| OverflowError.                    (* an integer that SQLite cannot hold *)

Inductive result (A : Type) :=
| Ok (a : A)
| Raise (e : exn).
Arguments Ok {A} a.
Arguments Raise {A} e.

Definition bind {A B : Type} (m : result A) (k : A -> result B) : result B :=
  match m with
  | Ok a => k a
  | Raise e => Raise e
  end.

Notation "x <- m ;; k" := (bind m (fun x => k))
  (at level 61, m at next level, right associativity).

(** Python dictionaries with string keys: association lists with distinct
    keys, in insertion order. *)
Section Dict.
Variable V : Type.

Fixpoint dict_get (d : list (string * V)) (k : string) : option V :=
  match d with
  | [] => None
  | (k', v) :: d' => if String.eqb k k' then Some v else dict_get d' k
  end.

Fixpoint dict_set (k : string) (v : V) (d : list (string * V)) : list (string * V) :=
  match d with
  | [] => [(k, v)]
  | (k', v') :: d' =>
      if String.eqb k k' then (k, v) :: d' else (k', v') :: dict_set k v d'
  end.

(** [dict(pairs)]: later pairs overwrite earlier ones. *)
Definition dict (pairs : list (string * V)) : list (string * V) :=
  fold_left (fun d kv => dict_set (fst kv) (snd kv) d) pairs [].

(** [d.get(k, default)] *)
Definition get_or (d : list (string * V)) (k : string) (default : V) : V :=
  match dict_get d k with
  | Some v => v
  | None => default
  end.

End Dict.

(** The engine behind [re.compile(p, re.IGNORECASE)] and [Pattern.search],
    as [match_rules] uses it: rule patterns come from [rules/rules.json] and
    may use any syntax of [re], so what is proved about the rule engine is
    proved for every engine.  [re_compile] returns [None] when the pattern
    is not a valid regular expression ([re.error]). *)
Class RegexEngine := {
  compiled : Type;
  re_compile : bool -> string -> option compiled;
  re_search : compiled -> text -> bool
}.

(** The fragment above is such an engine. *)
#[export] Instance fragment_engine : RegexEngine := {|
  compiled := Re.pattern;
  re_compile := Re.compile;
  re_search := Re.search
|}.

(* ================================================================== *)
(** * app/utils.py *)
(* ================================================================== *)

Module Utils.
Import Chars.

(** ** PII masking *)

Definition plus (r : Re.regex) : Re.regex := Re.Seq r (Re.Star r).

Definition email_chars : list Re.set_item :=
  [Re.SRange "a" "z"; Re.SRange "A" "Z"; Re.SRange "0" "9";
   Re.SChar "."; Re.SChar "-"; Re.SChar "+"; Re.SChar "_"]%char.

Definition letters : list Re.set_item := [Re.SRange "a" "z"; Re.SRange "A" "Z"]%char.

(** [[a-zA-Z0-9.\-+_]+@[a-zA-Z0-9.\-+_]+\.[a-zA-Z]+] *)
Definition email_re : Re.regex :=
  Re.Seq (plus (Re.CharSet false email_chars))
    (Re.Seq (Re.Lit "@")
       (Re.Seq (plus (Re.CharSet false email_chars))
          (Re.Seq (Re.Lit ".") (plus (Re.CharSet false letters))))).

Definition digit_re : Re.regex := Re.CharSet false [Re.SCat false Re.CDigit].

(** [\b\d{n}\b] *)
Definition digits_re (n : nat) : Re.regex :=
  Re.Seq Re.WordB (Re.Seq (Re.rep_exact n digit_re) Re.WordB).

Definition pat (r : Re.regex) : Re.pattern :=
  {| Re.pat_re := r; Re.pat_ignorecase := false |}.

(** The pattern sources of [PII_PATTERNS], as written in the program. *)
Definition PII_SOURCES : list (string * string) :=
  [("email", "[a-zA-Z0-9.\-+_]+@[a-zA-Z0-9.\-+_]+\.[a-zA-Z]+");
   ("phone", "\b\d{10}\b");
   ("aadhaar", "\b\d{12}\b")]%string.

(** [PII_PATTERNS], compiled; the dictionary is read in insertion order. *)
Definition PII_PATTERNS : list (string * Re.pattern) :=
  [("email", pat email_re);
   ("phone", pat (digits_re 10));
   ("aadhaar", pat (digits_re 12))]%string.

Record pii_result := { masked_text : text; pii : list string }.

(** The placeholder [f"[{name.upper()}]"]. *)
Definition placeholder (name : string) : text :=
  txt "[" ++ str_upper (txt name) ++ txt "]".

Definition mask_step (acc : pii_result) (entry : string * Re.pattern) : pii_result :=
  let '(name, patt) := entry in
  if Re.search patt (masked_text acc)
  then {| masked_text := Re.sub patt (placeholder name) (masked_text acc);
          pii := pii acc ++ [name] |}
  else acc.

(** Mask detected PII and return masked text + list of pii types. *)
Definition mask_pii (t : text) : pii_result :=
  fold_left mask_step PII_PATTERNS {| masked_text := t; pii := [] |}.

(** ** Rules *)

(** One entry of [rules/rules.json]: an object with these five string
    fields. *)
Record rule := {
  rule_id : string;
  rule_pattern : string;
  rule_severity : string;
  rule_action : string;
  rule_explanation : string
}.

Section RuleEngine.
Context {E : RegexEngine}.

(** The loop of [match_rules]: each pattern is compiled when its rule is
    reached, with [re.IGNORECASE], and a rule that matches is appended. *)
Fixpoint match_rules_from (rules : list rule) (t : text) (matches : list rule)
    : result (list rule) :=
  match rules with
  | [] => Ok matches
  | r :: rest =>
      match re_compile true (rule_pattern r) with
      | None => Raise (ReError (rule_pattern r))
      | Some patt =>
          match_rules_from rest t
            (if re_search patt t then matches ++ [r] else matches)
      end
  end.

(** Return list of rules that match the input (case-insensitive). *)
Definition match_rules (RULES : list rule) (t : text) : result (list rule) :=
  match_rules_from RULES t [].

End RuleEngine.

(** ** The classifier *)

(** The fitted pipeline loaded from [models/classifier.joblib]: its
    [classes_] and its [predict_proba] on one text. *)
Record classifier := {
  classes_ : list string;
  predict_proba : text -> list float
}.

Record clf_result := {
  label : string;
  score : float;
  proba : list (string * float)
}.

(** [numpy.argmax] on a float vector: the first index whose value is not
    below or equal to the running maximum, a NaN ending the scan. *)
Fixpoint argmax_from (best : float) (best_i i : nat) (l : list float) : nat :=
  match l with
  | [] => best_i
  | x :: l' =>
      if PrimFloat.is_nan best then best_i
      else if PrimFloat.leb x best then argmax_from best best_i (S i) l'
      else argmax_from x i (S i) l'
  end.

Definition argmax (l : list float) : result nat :=
  match l with
  | [] => Raise ValueError
  | x :: l' => Ok (argmax_from x 0 1 l')
  end.

(** Return predicted label and a risk score (mapped from probabilities). *)
Definition classify_text (clf : classifier) (t : text) : result clf_result :=
  let p := predict_proba clf t in
  let labels := classes_ clf in
  top_idx <- argmax p ;;
  match nth_error labels top_idx, nth_error p top_idx with
  | Some l, Some s =>
      Ok {| label := l; score := s; proba := dict (combine labels p) |}
  | _, _ => Raise IndexError
  end.

(** ** Thresholds and the aggregator *)

Definition CLASS_THRESHOLDS : list (string * float) :=
  [("self_harm", 0.40); ("prescription_request", 0.60); ("procedural", 0.55)]%float%string.

Definition WARN_THRESHOLDS : list (string * float) :=
  [("self_harm", 0.25); ("prescription_request", 0.40); ("procedural", 0.35)]%float%string.

(** Everything [decision_aggregator] reads from the module: the rules, the
    classifier and the two threshold tables. *)
Record config := {
  RULES : list rule;
  clf : classifier;
  class_thresholds : list (string * float);
  warn_thresholds : list (string * float)
}.

Inductive decision := ALLOW | WARN | BLOCK.

(** One entry of [block_hits] or [warn_hits]. *)
Record hit := { hit_class : string; hit_prob : float; hit_threshold : float }.

(** The dictionary [decision_aggregator] returns; [None] in [block_hits] or
    [warn_hits] is an absent key. *)
Record verdict := {
  v_decision : decision;
  matched_rules : list rule;
  classifier_res : clf_result;
  block_hits : option (list hit);
  warn_hits : option (list hit)
}.

(** [x >= y] on Python floats. *)
Definition ge (x y : float) : bool := PrimFloat.leb y x.

(** [r["severity"].upper() == "HIGH" and r["action"].upper() == "BLOCK"] *)
Definition is_high_block (r : rule) : bool :=
  text_eqb (str_upper (txt (rule_severity r))) (txt "HIGH")
  && text_eqb (str_upper (txt (rule_action r))) (txt "BLOCK").

(** One turn of the loop over [CLASS_THRESHOLDS.items()]. *)
Definition eval_class (wrn : list (string * float)) (p : list (string * float))
    (acc : list hit * list hit) (entry : string * float) : list hit * list hit :=
  let '(blk_hits, wrn_hits) := acc in
  let '(cls_name, blk_thr) := entry in
  let prob := get_or p cls_name 0%float in
  if ge prob blk_thr
  then (blk_hits ++ [{| hit_class := cls_name; hit_prob := prob; hit_threshold := blk_thr |}],
        wrn_hits)
  else
    let warn_thr := get_or wrn cls_name (blk_thr * 0.6)%float in
    if ge prob warn_thr
    then (blk_hits,
          wrn_hits ++ [{| hit_class := cls_name; hit_prob := prob; hit_threshold := warn_thr |}])
    else (blk_hits, wrn_hits).

Definition eval_classes (blk wrn : list (string * float)) (p : list (string * float))
    : list hit * list hit :=
  fold_left (eval_class wrn p) blk ([], []).

Definition nonempty {A : Type} (l : list A) : bool :=
  match l with [] => false | _ :: _ => true end.

Section Aggregation.
Context {E : RegexEngine}.

(** Combines rules + classifier probabilities -> decision. *)
Definition decision_aggregator (cfg : config) (t : text) : result verdict :=
  (* 1) Rule matching (rules always have highest priority) *)
  r_matches <- match_rules (RULES cfg) t ;;
  if existsb is_high_block r_matches then
    clf_res <- classify_text (clf cfg) t ;;
    Ok {| v_decision := BLOCK; matched_rules := r_matches; classifier_res := clf_res;
          block_hits := None; warn_hits := None |}
  else
    (* 2) Classifier probabilities *)
    clf_res <- classify_text (clf cfg) t ;;
    let '(blk_hits, wrn_hits) :=
      eval_classes (class_thresholds cfg) (warn_thresholds cfg) (proba clf_res) in
    if nonempty blk_hits then
      Ok {| v_decision := BLOCK; matched_rules := r_matches; classifier_res := clf_res;
            block_hits := Some blk_hits; warn_hits := None |}
    else if nonempty wrn_hits then
      Ok {| v_decision := WARN; matched_rules := r_matches; classifier_res := clf_res;
            block_hits := None; warn_hits := Some wrn_hits |}
    else
      (* 3) Fallback to the top-label score *)
      let top_score := score clf_res in
      let d := if ge top_score 0.85 then BLOCK
               else if ge top_score 0.5 then WARN
               else ALLOW in
      Ok {| v_decision := d; matched_rules := r_matches; classifier_res := clf_res;
            block_hits := None; warn_hits := None |}.

End Aggregation.

(** ** Module import

    What running the module body amounts to: [rules/rules.json] is read as
    it is, the classifier must exist, and the thresholds are the literals of
    the file.  No pattern of a rule is looked at. *)
Record files := {
  rules_json : option (list rule);           (* rules/rules.json, decoded *)
  classifier_joblib : option classifier      (* models/classifier.joblib *)
}.

Definition import_utils (fs : files) : result config :=
  match rules_json fs with
  | None => Raise (FileNotFoundError "rules/rules.json")
  | Some rules =>
      match classifier_joblib fs with
      | None => Raise (FileNotFoundError "models/classifier.joblib")
      | Some c =>
          Ok {| RULES := rules; clf := c;
                class_thresholds := CLASS_THRESHOLDS;
                warn_thresholds := WARN_THRESHOLDS |}
      end
  end.

End Utils.

(** ** The mock answerer *)

Module Llm.
Import Chars.

Fixpoint is_prefix (p s : text) : bool :=
  match p, s with
  | [], _ => true
  | x :: p', y :: s' => Ascii.eqb x y && is_prefix p' s'
  | _ :: _, [] => false
  end.

(** [p in s] on strings. *)
Fixpoint contains (p s : text) : bool :=
  is_prefix p s ||
  match s with
  | [] => false
  | _ :: s' => contains p s'
  end.

Definition KB : list (string * string) :=
  [("What are symptoms of flu?",
    "Common flu symptoms include fever, cough, sore throat, muscle aches. Seek medical care if breathing difficulty occurs.");
   ("What is a normal blood pressure?",
    "Normal blood pressure is around 120/80 mmHg, but targets depend on age and comorbidities.")]%string.

Definition DEFAULT_ANSWER : string :=
  "I can provide general medical information, but not personalized prescriptions. Consult a licensed provider for treatment decisions.".

(** Return helpful general answer. *)
Fixpoint pass_through_llm_from (kb : list (string * string)) (t : text) : string :=
  match kb with
  | [] => DEFAULT_ANSWER
  | (k, answer) :: kb' =>
      if contains (str_lower (txt k)) (str_lower t) then answer
      else pass_through_llm_from kb' t
  end.

Definition pass_through_llm (t : text) : string := pass_through_llm_from KB t.

End Llm.

(* ================================================================== *)
(** * app/audit_db.py *)
(* ================================================================== *)

Module AuditDb.
Import Utils.

(** The dictionary [chat_endpoint] hands to [insert_audit]. *)
Record audit_record := {
  a_timestamp : string;
  a_session_id : string;
  a_raw_text : text;
  a_masked_text : text;
  a_pii : list string;
  a_decision : decision;
  a_classifier : clf_result;
  a_matched_rules : list string;
  a_block_hits : list hit;
  a_warn_hits : list hit
}.

(** A row of the table [audits]; the JSON columns keep their values. *)
Record row := {
  row_id : nat;
  row_audit : audit_record;
  row_reviewer_decision : option string
}.

(** The SQLite file.  [db_seq] is the AUTOINCREMENT counter; [db_fault] is
    the error the engine raises on the next statement, if it is in a state
    to raise one (locked, read-only, disk full). *)
Record database := {
  db_rows : list row;
  db_seq : nat;
  db_fault : option string
}.

(** Insert an audit record. Returns the new row id. *)
Definition insert_audit (audit : audit_record) (db : database) : result nat * database :=
  match db_fault db with
  | Some msg => (Raise (DatabaseError msg), db)
  | None =>
      let rowid := S (db_seq db) in
      (Ok rowid,
       {| db_rows := db_rows db ++
                     [{| row_id := rowid; row_audit := audit; row_reviewer_decision := None |}];
          db_seq := rowid;
          db_fault := None |})
  end.

End AuditDb.

(* ================================================================== *)
(** * app/app.py *)
(* ================================================================== *)

Module App.
Import Utils AuditDb.

(** [str(e)] *)
Definition exn_str (e : exn) : string :=
  match e with
  | ReError p => p
  | ValueError => "attempt to get argmax of an empty sequence"
  | IndexError => "list index out of range"
  | FileNotFoundError p => p
  | DatabaseError msg => msg
  | OverflowError => "Python int too large to convert to SQLite INTEGER"
  end.

(** The counter [METRICS]. *)
Record metrics := {
  m_requests : nat;
  m_blocked : nat;
  m_warned : nat;
  m_allowed : nat;
  m_last_request : option string
}.

(** What a request can read and write: the module state of [utils], the
    counters and the audit database. *)
Record world := {
  w_config : config;
  w_metrics : metrics;
  w_db : database
}.

(** The JSON body of a request and the two readings of the clock. *)
Record body := { b_text : option text; b_session_id : option string }.
Record clock := { t_received : string; t_audited : string }.

Record rule_summary := { s_id : string; s_explanation : string; s_action : string }.

(** The dictionary [explain]; [None] is an absent key. *)
Record explain := {
  x_masked_text : text;
  x_pii_detected : list string;
  x_matched_rules : list rule_summary;
  x_classifier : clf_result;
  x_audit_id : option nat;
  x_audit_error : option string
}.

(** The JSON response, always sent with status 200. *)
Record response := {
  r_decision : decision;
  r_safe_response : option string;
  r_llm_response : option string;
  r_warning : option string;
  r_explain : explain
}.

(** The refusal text, with the characters the source file has between
    [can] and [t] (U+00E2, U+20AC, U+2122), in UTF-8. *)
Definition SAFE_RESPONSE : string :=
  "Sorry, I canâ€™t assist with that. This request appears unsafe. Please consult a licensed healthcare professional or ask for general information.".

Definition WARNING : string :=
  "This query appears risky. Please consult a professional for prescriptions/procedures.".

Definition summary (r : rule) : rule_summary :=
  {| s_id := rule_id r; s_explanation := rule_explanation r; s_action := rule_action r |}.

Definition with_default {A : Type} (o : option A) (d : A) : A :=
  match o with Some a => a | None => d end.

Definition set_last_request (m : metrics) (t : string) : metrics :=
  {| m_requests := m_requests m; m_blocked := m_blocked m; m_warned := m_warned m;
     m_allowed := m_allowed m; m_last_request := Some t |}.

(** [METRICS['blocked'] += 1] and its two siblings. *)
Definition count (d : decision) (m : metrics) : metrics :=
  {| m_requests := m_requests m;
     m_blocked := (match d with BLOCK => S (m_blocked m) | _ => m_blocked m end);
     m_warned := (match d with WARN => S (m_warned m) | _ => m_warned m end);
     m_allowed := (match d with ALLOW => S (m_allowed m) | _ => m_allowed m end);
     m_last_request := m_last_request m |}.

(** The middleware that counts requests before it hands them on. *)
Definition metrics_middleware {A : Type} (call_next : world -> A * world) (w : world)
    : A * world :=
  let m := w_metrics w in
  call_next
    {| w_config := w_config w;
       w_metrics := {| m_requests := S (m_requests m); m_blocked := m_blocked m;
                       m_warned := m_warned m; m_allowed := m_allowed m;
                       m_last_request := m_last_request m |};
       w_db := w_db w |}.

(** The body of the response for each decision. *)
Definition respond (d : decision) (masked : text) (ex : explain) : response :=
  match d with
  | BLOCK =>
      {| r_decision := BLOCK; r_safe_response := Some SAFE_RESPONSE;
         r_llm_response := None; r_warning := None; r_explain := ex |}
  | WARN =>
      {| r_decision := WARN; r_safe_response := None;
         r_llm_response := Some (Llm.pass_through_llm masked);
         r_warning := Some WARNING; r_explain := ex |}
  | ALLOW =>
      {| r_decision := ALLOW; r_safe_response := None;
         r_llm_response := Some (Llm.pass_through_llm masked);
         r_warning := None; r_explain := ex |}
  end.

(** What [JSONResponse] can render: it encodes with [allow_nan=False], so
    a NaN or an infinity among the floats of the content, which are the
    score and the probabilities of the classifier result, raises
    [ValueError]. *)
Definition json_safe (c : clf_result) : bool :=
  PrimFloat.is_finite (score c)
  && forallb (fun e => PrimFloat.is_finite (snd e)) (proba c).

(** The same world with the database engine in another state. *)
Definition with_fault (fault : option string) (w : world) : world :=
  {| w_config := w_config w;
     w_metrics := w_metrics w;
     w_db := {| db_rows := db_rows (w_db w); db_seq := db_seq (w_db w);
                db_fault := fault |} |}.

Section Handler.
Context {E : RegexEngine}.

(** [POST /api/chat].  An exception that leaves the handler is the
    [Raise] of the result; the world is returned in both cases.  The
    response is rendered last, after the audit is written and the decision
    counted. *)
Definition chat_endpoint (now : clock) (b : body) (w : world) : result response * world :=
  let t := with_default (b_text b) [] in
  let session_id := with_default (b_session_id b) "anon"%string in
  let m1 := set_last_request (w_metrics w) (t_received now) in
  (* Step 1: Preprocess & mask PII *)
  let pii_res := mask_pii t in
  let masked := masked_text pii_res in
  (* Step 2: Decision aggregation *)
  match decision_aggregator (w_config w) masked with
  | Raise e =>
      (Raise e, {| w_config := w_config w; w_metrics := m1; w_db := w_db w |})
  | Ok v =>
      let ex audit_id audit_error :=
        {| x_masked_text := masked;
           x_pii_detected := pii pii_res;
           x_matched_rules := map summary (matched_rules v);
           x_classifier := classifier_res v;
           x_audit_id := audit_id;
           x_audit_error := audit_error |} in
      (* Insert audit record (persist) *)
      let audit_record :=
        {| a_timestamp := (t_audited now ++ "Z")%string;
           a_session_id := session_id;
           a_raw_text := t;
           a_masked_text := masked;
           a_pii := pii pii_res;
           a_decision := v_decision v;
           a_classifier := classifier_res v;
           a_matched_rules := map rule_id (matched_rules v);
           a_block_hits := with_default (block_hits v) [];
           a_warn_hits := with_default (warn_hits v) [] |} in
      let '(explained, db') :=
        match insert_audit audit_record (w_db w) with
        | (Ok audit_id, db') => (ex (Some audit_id) None, db')
        | (Raise e, db') => (ex None (Some (exn_str e)), db')
        end in
      (* Return responses depending on decision *)
      let w' := {| w_config := w_config w;
                   w_metrics := count (v_decision v) m1;
                   w_db := db' |} in
      if json_safe (classifier_res v)
      then (Ok (respond (v_decision v) masked explained), w')
      else (Raise ValueError, w')
  end.

End Handler.

End App.

(* ================================================================== *)
(** * The policy, as the specification words it *)
(* ================================================================== *)

Module Policy.
Import Utils.

(** The order [ALLOW < WARN < BLOCK]. *)
Definition rank (d : decision) : nat :=
  match d with ALLOW => 0 | WARN => 1 | BLOCK => 2 end.

Definition decision_le (d1 d2 : decision) : Prop := rank d1 <= rank d2.

(** The probability of a class, 0 when the classifier does not know it. *)
Definition prob_of (c : clf_result) (cls : string) : float :=
  get_or (proba c) cls 0%float.

(** The warn-threshold of a class: the configured one, else 0.6 times its
    block-threshold. *)
Definition warn_threshold (wrn : list (string * float)) (cls : string) (blk_thr : float)
    : float :=
  match dict_get wrn cls with
  | Some w => w
  | None => (blk_thr * 0.6)%float
  end.

(** A class, given with its block-threshold, reaches that threshold. *)
Definition reaches_block (c : clf_result) (e : string * float) : bool :=
  ge (prob_of c (fst e)) (snd e).

(** A class reaches its warn-threshold. *)
Definition reaches_warn (wrn : list (string * float)) (c : clf_result)
    (e : string * float) : bool :=
  ge (prob_of c (fst e)) (warn_threshold wrn (fst e) (snd e)).

(** A warn-hit: the warn-threshold is reached and the block-threshold is not. *)
Definition is_warn_hit (wrn : list (string * float)) (c : clf_result)
    (e : string * float) : bool :=
  negb (reaches_block c e) && reaches_warn wrn c e.

Definition block_hit_of (c : clf_result) (e : string * float) : hit :=
  {| hit_class := fst e; hit_prob := prob_of c (fst e); hit_threshold := snd e |}.

Definition warn_hit_of (wrn : list (string * float)) (c : clf_result)
    (e : string * float) : hit :=
  {| hit_class := fst e; hit_prob := prob_of c (fst e);
     hit_threshold := warn_threshold wrn (fst e) (snd e) |}.

(** The three outcomes of tiers 2 and 3, given what the rules and the
    classifier returned. *)
Definition tiers23 (cfg : config) (ms : list rule) (c : clf_result) : verdict :=
  let blk := class_thresholds cfg in
  let wrn := warn_thresholds cfg in
  let bh := filter (reaches_block c) blk in
  let wh := filter (is_warn_hit wrn c) blk in
  match bh, wh with
  | _ :: _, _ =>
      {| v_decision := BLOCK; matched_rules := ms; classifier_res := c;
         block_hits := Some (map (block_hit_of c) bh); warn_hits := None |}
  | [], _ :: _ =>
      {| v_decision := WARN; matched_rules := ms; classifier_res := c;
         block_hits := None; warn_hits := Some (map (warn_hit_of wrn c) wh) |}
  | [], [] =>
      {| v_decision := if ge (score c) 0.85 then BLOCK
                       else if ge (score c) 0.5 then WARN else ALLOW;
         matched_rules := ms; classifier_res := c;
         block_hits := None; warn_hits := None |}
  end.

(** The rule matches the text, case-insensitively. *)
Definition rule_matches {E : RegexEngine} (t : text) (r : rule) : bool :=
  match re_compile true (rule_pattern r) with
  | Some patt => re_search patt t
  | None => false
  end.

(** The pattern of the rule is a valid regular expression. *)
Definition valid_rule {E : RegexEngine} (r : rule) : Prop :=
  re_compile true (rule_pattern r) <> None.

(** [l1] is [l2] with some elements left out, the order kept. *)
Inductive subsequence {A : Type} : list A -> list A -> Prop :=
| sub_nil : subsequence [] []
| sub_take x l1 l2 : subsequence l1 l2 -> subsequence (x :: l1) (x :: l2)
| sub_skip x l1 l2 : subsequence l1 l2 -> subsequence l1 (x :: l2).

End Policy.

(* ================================================================== *)
(** * Sample configurations *)
(* ================================================================== *)

Module Sample.
Import Utils AuditDb App.

Definition overdose_rule : rule :=
  {| rule_id := "R1"; rule_pattern := "\b(overdose|lethal dose)\b";
     rule_severity := "HIGH"; rule_action := "BLOCK";
     rule_explanation := "Overdose instructions are never given." |}.

Definition antibiotic_rule : rule :=
  {| rule_id := "R2"; rule_pattern := "antibiotics?";
     rule_severity := "MEDIUM"; rule_action := "WARN";
     rule_explanation := "Antibiotics need a prescription." |}.

Definition broken_rule : rule :=
  {| rule_id := "R3"; rule_pattern := "(insulin|";
     rule_severity := "HIGH"; rule_action := "BLOCK";
     rule_explanation := "A pattern with an unclosed group." |}.

Definition rules : list rule := [overdose_rule; antibiotic_rule].

(** A classifier over the four labels of the training data that answers
    every text with the same vector. *)
Definition constant_clf (p : list float) : classifier :=
  {| classes_ := ["general_info"; "prescription_request"; "procedural"; "self_harm"]%string;
     predict_proba := fun _ => p |}.

Definition cfg (rs : list rule) (p : list float) : config :=
  {| RULES := rs; clf := constant_clf p;
     class_thresholds := CLASS_THRESHOLDS; warn_thresholds := WARN_THRESHOLDS |}.

Definition result_of (p : list float) (l : string) (s : float) : clf_result :=
  {| label := l; score := s;
     proba := combine (classes_ (constant_clf p)) p |}.

Definition zeros : list float := [0; 0; 0; 0]%float.
Definition flu : list float := [0.9; 0.05; 0.03; 0.02]%float.
Definition script : list float := [0.3; 0.5; 0.1; 0.1]%float.
Definition mixed : list float := [0.05; 0.1; 0.4; 0.45]%float.
Definition calm : list float := [0.4; 0.3; 0.2; 0.1]%float.

Definition lethal_text : text := txt "What is a LETHAL DOSE of paracetamol?".
Definition antibiotics_text : text := txt "Can I get ANTIBIOTICS?".
Definition flu_text : text := txt "What are symptoms of flu?".
Definition hello : text := txt "hello".

Definition borderline : list float := [0.85; 0.05; 0.05; 0.05]%float.
Definition below : list float := [0.8499; 0.0501; 0.05; 0.05]%float.

Definition empty_metrics : metrics :=
  {| m_requests := 0; m_blocked := 0; m_warned := 0; m_allowed := 0;
     m_last_request := None |}.

Definition db (fault : option string) : database :=
  {| db_rows := []; db_seq := 0; db_fault := fault |}.

Definition world_of (c : config) (fault : option string) : world :=
  {| w_config := c; w_metrics := empty_metrics; w_db := db fault |}.

Definition noon : clock :=
  {| t_received := "2024-01-01T12:00:00"; t_audited := "2024-01-01T12:00:01" |}.

Definition ask (s : string) : body :=
  {| b_text := Some (txt s); b_session_id := None |}.

End Sample.


(* ================================================================== *)
(** * Masked text, as the specification words it *)
(* ================================================================== *)

Module Masking.
Import Chars Utils.

Definition is_email_char (c : ascii) : bool := Re.set_has false email_chars c.
Definition is_letter (c : ascii) : bool := Re.set_has false letters c.

(** The strings of the email pattern: a local part, an at sign, a domain,
    a dot and letters. *)
Inductive email_word : text -> Prop :=
| email_word_intro local domain tld :
    local <> [] -> forallb is_email_char local = true ->
    domain <> [] -> forallb is_email_char domain = true ->
    tld <> [] -> forallb is_letter tld = true ->
    email_word (local ++ "@"%char :: domain ++ "."%char :: tld).

(** The text starts with an email-shaped string. *)
Definition email_prefix (s : text) : Prop :=
  exists w rest, s = w ++ rest /\ email_word w.

(** The text contains an email-shaped substring. *)
Definition has_email (s : text) : Prop :=
  exists pre rest, s = pre ++ rest /\ email_prefix rest.

(** The text starts with what could be the local part of an address: some
    address characters and an at sign. *)
Definition local_prefix (s : text) : Prop :=
  exists local rest,
    local <> [] /\ forallb is_email_char local = true /\ s = local ++ "@"%char :: rest.

Definition bracket_open : ascii := "["%char.
Definition bracket_close : ascii := "]"%char.
Definition at_sign : ascii := "@"%char.

(** A placeholder is an opening bracket, a name without at sign and a
    closing bracket. *)
Definition bracketed (repl : text) : Prop :=
  exists n, ~ In at_sign n /\ repl = bracket_open :: n ++ [bracket_close].

(** How [sub] turns a text into its output, read left to right: a character
    is kept only where the pattern fails to match, and characters are
    dropped only behind a replacement.  The flag says whether a replacement
    was just written and characters may still be dropped. *)
Inductive Masked (p : Re.pattern) (repl : text) : bool -> text -> text -> Prop :=
| masked_nil b : Masked p repl b [] []
| masked_keep c s o :
    (exists ma prev, Re.match_at p ma prev (c :: s) = None) ->
    Masked p repl false s o ->
    Masked p repl false (c :: s) (c :: o)
| masked_repl b s o :
    Masked p repl true s o -> Masked p repl b s (repl ++ o)
| masked_drop c s o :
    Masked p repl true s o -> Masked p repl true (c :: s) o
| masked_stop s o :
    Masked p repl false s o -> Masked p repl true s o.

End Masking.


(* ================================================================== *)
(** * app/audit_db.py: the readers and the reviewer's update *)
(* ================================================================== *)

Module AuditQueries.
Import ZArith.
Import Utils AuditDb.

(** [ORDER BY id DESC], by insertion. *)
Fixpoint insert_desc (r : row) (l : list row) : list row :=
  match l with
  | [] => [r]
  | x :: l' => if row_id x <=? row_id r then r :: l else x :: insert_desc r l'
  end.

Definition order_by_id_desc (l : list row) : list row := fold_right insert_desc [] l.

(** What [execute] can bind to a parameter: an integer of 64 bits, signed.
    Another one raises [OverflowError].  A database that cannot be used
    (a locked one) fails before that, when the statement is prepared. *)
Definition in_int64 (z : Z) : bool :=
  ((- 2 ^ 63 <=? z) && (z <? 2 ^ 63))%Z.

(** [LIMIT ?]: a negative bound is no bound. *)
Definition limit_rows (limit : Z) (l : list row) : list row :=
  if (limit <? 0)%Z then l else firstn (Z.to_nat limit) l.

(** [SELECT * FROM audits ORDER BY id DESC LIMIT ?] *)
Definition fetch_audits (limit : Z) (db : database) : result (list row) :=
  match db_fault db with
  | Some msg => Raise (DatabaseError msg)
  | None =>
      if in_int64 limit then Ok (limit_rows limit (order_by_id_desc (db_rows db)))
      else Raise OverflowError
  end.

(** [SELECT * FROM audits WHERE id=?], then [fetchone]. *)
Definition fetch_audit_by_id (aid : Z) (db : database) : result (option row) :=
  match db_fault db with
  | Some msg => Raise (DatabaseError msg)
  | None =>
      if in_int64 aid then Ok (find (fun r => (Z.of_nat (row_id r) =? aid)%Z) (db_rows db))
      else Raise OverflowError
  end.

Definition review (aid : Z) (d : string) (r : row) : row :=
  if (Z.of_nat (row_id r) =? aid)%Z
  then {| row_id := row_id r; row_audit := row_audit r; row_reviewer_decision := Some d |}
  else r.

(** [UPDATE audits SET reviewer_decision=? WHERE id=?] *)
Definition set_reviewer_decision (aid : Z) (d : string) (db : database)
    : result unit * database :=
  match db_fault db with
  | Some msg => (Raise (DatabaseError msg), db)
  | None =>
      if in_int64 aid then
        (Ok tt,
         {| db_rows := map (review aid d) (db_rows db);
            db_seq := db_seq db;
            db_fault := None |})
      else (Raise OverflowError, db)
  end.

(** The table as AUTOINCREMENT keeps it: the ids grow along the rows, above
    [lo] and up to [hi]. *)
Fixpoint ids_between (lo : nat) (l : list row) (hi : nat) : Prop :=
  match l with
  | [] => lo <= hi
  | r :: l' => lo < row_id r /\ ids_between (row_id r) l' hi
  end.

Definition db_wf (db : database) : Prop := ids_between 0 (db_rows db) (db_seq db).

(** What [chat_endpoint] writes: hits only with the decision they justify,
    and never both lists. *)
Definition consistent (a : audit_record) : Prop :=
  (a_warn_hits a <> [] -> a_decision a = WARN /\ a_block_hits a = [])
  /\ (a_block_hits a <> [] -> a_decision a = BLOCK /\ a_warn_hits a = []).

End AuditQueries.

(* ================================================================== *)
(** * app/app.py: the administrative endpoints *)
(* ================================================================== *)

Module Admin.
Import ZArith.
Import Utils AuditDb AuditQueries App.

Definition ADMIN_KEY : string := "hackathon-demo-key-CHANGE_ME".

(** How a handler ends: a JSON response, an [HTTPException], or another
    exception that leaves it. *)
Inductive outcome (A : Type) :=
| Sent (a : A)
| HTTPException (status_code : nat) (detail : string)
| Crashed (e : exn).
Arguments Sent {A} a.
Arguments HTTPException {A} status_code detail.
Arguments Crashed {A} e.

(** The dependency [check_admin]: the header must carry the key. *)
Definition check_admin (x_api_key : option string) : bool :=
  match x_api_key with
  | Some k => String.eqb k ADMIN_KEY
  | None => false
  end.

Definition protected {A : Type} (x_api_key : option string)
    (handler : world -> outcome A * world) (w : world) : outcome A * world :=
  if check_admin x_api_key then handler w
  else (HTTPException 401 "Unauthorized", w).

Definition with_db (w : world) (db : database) : world :=
  {| w_config := w_config w; w_metrics := w_metrics w; w_db := db |}.

Record audits_page := { p_count : nat; p_audits : list row }.





(** [GET /admin/review]: the fetched audits whose [warn_hits] is not empty.
    Their JSON columns stay the strings of the table, so nothing of them
    can fail to render. *)
Definition admin_review_queue (x_api_key : option string) (limit : Z) (w : world)
    : outcome audits_page * world :=
  protected x_api_key (fun w =>
    match fetch_audits limit (w_db w) with
    | Raise e => (Crashed e, w)
    | Ok rows =>
        let warn_items := filter (fun r => nonempty (a_warn_hits (row_audit r))) rows in
        (Sent {| p_count := length warn_items; p_audits := warn_items |}, w)
    end) w.

Definition valid_action (action : string) : bool :=
  String.eqb action "allow" || String.eqb action "block" || String.eqb action "ignore".

Record review_ack := { k_audit_id : Z; k_action : string }.

(** [POST /admin/review/{aid}] *)
Definition admin_review_decision (x_api_key : option string) (aid : Z) (action : string)
    (w : world) : outcome review_ack * world :=
  protected x_api_key (fun w =>
    if valid_action action then
      match set_reviewer_decision aid action (w_db w) with
      | (Raise e, db') => (Crashed e, with_db w db')
      | (Ok _, db') => (Sent {| k_audit_id := aid; k_action := action |}, with_db w db')
      end
    else (HTTPException 400 "invalid action", w)) w.

(** [GET /metrics] *)
Definition metrics_endpoint (x_api_key : option string) (w : world)
    : outcome metrics * world :=
  protected x_api_key (fun w => (Sent (w_metrics w), w)) w.

(** [GET /health]: the status is always ok; the count of requests. *)
Definition health (w : world) : nat := m_requests (w_metrics w).

(** One request to [POST /api/chat] as the application serves it: through
    the middleware. *)
Definition serve_chat {E : RegexEngine} (now : clock) (b : body) (w : world)
    : result response * world :=
  metrics_middleware (chat_endpoint now b) w.

(** No more decisions are counted than requests. *)
Definition counted (m : metrics) : Prop :=
  m_blocked m + m_warned m + m_allowed m <= m_requests m.

End Admin.


(* ================================================================== *)
(** * Further vocabulary for the properties of the code *)
(* ================================================================== *)

Module Vocabulary.

Definition not_nan (x : float) : bool := negb (PrimFloat.is_nan x).

(** [p] occurs in [s] as a substring. *)
Definition occurs_in (p s : text) : Prop := exists pre post, s = pre ++ p ++ post.

(** The counter of a decision in [METRICS]. *)
Definition tally (d : Utils.decision) (m : App.metrics) : nat :=
  match d with
  | Utils.BLOCK => App.m_blocked m
  | Utils.WARN => App.m_warned m
  | Utils.ALLOW => App.m_allowed m
  end.

(** The row [insert_audit] writes. *)
Definition stored (id : nat) (a : AuditDb.audit_record) : AuditDb.row :=
  {| AuditDb.row_id := id; AuditDb.row_audit := a;
     AuditDb.row_reviewer_decision := None |}.

(** Every stored audit is as [chat_endpoint] writes them. *)
Definition audits_consistent (db : AuditDb.database) : Prop :=
  Forall (fun r => AuditQueries.consistent (AuditDb.row_audit r)) (AuditDb.db_rows db).

End Vocabulary.

(* ================================================================== *)
(** * Sample audits *)
(* ================================================================== *)

Module SampleAudits.
Import Utils AuditDb App Admin Vocabulary Sample.

Definition script_hit : hit :=
  {| hit_class := "prescription_request"; hit_prob := 0.5; hit_threshold := 0.4 |}.

Definition audit (t : text) (d : decision) (wh : list hit) : audit_record :=
  {| a_timestamp := "2024-01-01T12:00:01Z"; a_session_id := "anon";
     a_raw_text := t; a_masked_text := t; a_pii := [];
     a_decision := d; a_classifier := result_of script "prescription_request" 0.5;
     a_matched_rules := []; a_block_hits := []; a_warn_hits := wh |}.

(** A table with two audits, the second one with a warn-hit. *)
Definition two_audits : database :=
  {| db_rows := [stored 1 (audit hello ALLOW []);
                 stored 2 (audit antibiotics_text WARN [script_hit])];
     db_seq := 2; db_fault := None |}.

Definition key : option string := Some ADMIN_KEY.

Definition serving (c : config) (d : database) : world :=
  {| w_config := c; w_metrics := empty_metrics; w_db := d |}.

End SampleAudits.


(* ================================================================== *)
(** * Runs of digits, as the phone and Aadhaar patterns read them *)
(* ================================================================== *)

Module Runs.
Import Chars Utils.

(** The character before the position that is [a] further on. *)
Definition last_opt (a : text) (prev : option ascii) : option ascii :=
  fold_left (fun _ c => Some c) a prev.

(** [n] digits from the position on: the position behind them. *)
Fixpoint take_digits (n : nat) (prev : option ascii) (s : text)
    : option (option ascii * text) :=
  match n with
  | O => Some (prev, s)
  | S n' =>
      match s with
      | c :: s' => if is_digit c then take_digits n' (Some c) s' else None
      | [] => None
      end
  end.

(** [\b\d{n}\b] at a position: a boundary, [n] digits, a boundary. *)
Definition run_at (n : nat) (prev : option ascii) (s : text) : option text :=
  if Re.at_boundary prev s then
    match take_digits n prev s with
    | Some (p', s') => if Re.at_boundary p' s' then Some s' else None
    | None => None
    end
  else None.

Definition no_digit (s : text) : bool := forallb (fun c => negb (is_digit c)) s.

(** The text does not start with a digit. *)
Definition digit_free_head (s : text) : Prop :=
  match s with [] => True | e :: _ => is_digit e = false end.

End Runs.


(* ================================================================== *)
(** * Comparisons of binary64 floats *)
(* ================================================================== *)

(** The two facts about [<] and [<=] on floats that the thresholds need,
    from the specification of the primitive comparisons. *)
Unset Implicit Arguments.

Module FloatOrder.
Import ZArith.

Ltac split_compare :=
  repeat match goal with
  | |- context [Z.compare ?a ?b] => destruct (Z.compare_spec a b)
  | |- context [Pos.compare_cont Eq ?a ?b] =>
      change (Pos.compare_cont Eq a b) with (Pos.compare a b);
      destruct (Pos.compare_spec a b)
  end.

Lemma SF_lt_not_ge (x y : spec_float) : SFltb x y = true -> SFleb y x = false.
Proof.
  unfold SFltb, SFleb.
  destruct x as [sx|sx| |sx mx ex], y as [sy|sy| |sy my ey]; cbn;
    try destruct sx; try destruct sy; cbn; try congruence;
    split_compare; cbn; try congruence; intros; exfalso; lia.
Qed.

Lemma SF_le_lt_trans (z x y : spec_float) :
  SFleb z x = true -> SFltb x y = true -> SFltb z y = true.
Proof.
  unfold SFltb, SFleb.
  destruct x as [sx|sx| |sx mx ex], y as [sy|sy| |sy my ey], z as [sz|sz| |sz mz ez];
    cbn; try destruct sx; try destruct sy; try destruct sz; cbn; try congruence;
    split_compare; cbn; try congruence; intros; exfalso; lia.
Qed.

Lemma SF_le_trans (z x y : spec_float) :
  SFleb z x = true -> SFleb x y = true -> SFleb z y = true.
Proof.
  unfold SFleb.
  destruct x as [sx|sx| |sx mx ex], y as [sy|sy| |sy my ey], z as [sz|sz| |sz mz ez];
    cbn; try destruct sx; try destruct sy; try destruct sz; cbn; try congruence;
    split_compare; cbn; try congruence; intros; exfalso; lia.
Qed.

Lemma le_trans (z x y : float) :
  PrimFloat.leb z x = true -> PrimFloat.leb x y = true -> PrimFloat.leb z y = true.
Proof. rewrite !leb_spec. apply SF_le_trans. Qed.

Lemma lt_not_ge (x y : float) : PrimFloat.ltb x y = true -> PrimFloat.leb y x = false.
Proof. rewrite ltb_spec, leb_spec. apply SF_lt_not_ge. Qed.

Lemma le_lt_trans (z x y : float) :
  PrimFloat.leb z x = true -> PrimFloat.ltb x y = true -> PrimFloat.ltb z y = true.
Proof. rewrite leb_spec, !ltb_spec. apply SF_le_lt_trans. Qed.

End FloatOrder.

(* ================================================================== *)
(** * The matcher and its relation *)
(* ================================================================== *)

Module ReFacts.
Import Re.

Section Run.
Variable A : Type.
Variable ic : bool.

Lemma star_loop_sound (r : regex) (body : option ascii -> text -> cont A -> option A)
    (k : cont A) :
  (forall prev s k' a, body prev s k' = Some a ->
     exists p' s', Matches ic r prev s p' s' /\ k' p' s' = Some a) ->
  forall n prev s a,
    star_loop body k n prev s = Some a ->
    exists p' s', Matches ic (Star r) prev s p' s' /\ k p' s' = Some a.
Proof.
  intros Hbody. induction n as [|n IH]; intros prev s a H; cbn [star_loop] in H.
  - exists prev, s. split; [constructor | exact H].
  - unfold or_else in H.
    destruct (body prev s _) as [x|] eqn:Hb.
    + injection H as ->. apply Hbody in Hb as (p1 & s1 & M1 & Hk).
      destruct (length s1 <? length s) eqn:Hlt.
      * apply Nat.ltb_lt in Hlt. apply IH in Hk as (p2 & s2 & M2 & Hk).
        exists p2, s2. split; [|exact Hk]. now apply M_star_more with p1 s1.
      * exists p1, s1. split; [now apply M_star_last | exact Hk].
    + exists prev, s. split; [constructor | exact H].
Qed.

(** Whatever [run] finds is a match of the relation, followed by a success
    of the continuation. *)
Lemma run_sound (r : regex) :
  forall prev s (k : cont A) a,
    run ic r prev s k = Some a ->
    exists p' s', Matches ic r prev s p' s' /\ k p' s' = Some a.
Proof.
  induction r as [|x| |neg items|r1 IH1 r2 IH2|r1 IH1 r2 IH2|r IH| | | |];
    intros prev s k a H; cbn [run] in H.
  - exists prev, s. split; [constructor | exact H].
  - destruct s as [|c s]; [discriminate|]. cbn [step_char] in H.
    destruct (lit_eqb ic x c) eqn:Hc; [|discriminate].
    exists (Some c), s. split; [now constructor | exact H].
  - destruct s as [|c s]; [discriminate|]. cbn [step_char] in H.
    destruct (Ascii.eqb c newline) eqn:Hc; [discriminate|].
    exists (Some c), s. split; [now constructor | exact H].
  - destruct s as [|c s]; [discriminate|]. cbn [step_char] in H.
    destruct (xorb neg (set_has ic items c)) eqn:Hc; [|discriminate].
    exists (Some c), s. split; [now constructor | exact H].
  - apply IH1 in H as (p1 & s1 & M1 & H). apply IH2 in H as (p2 & s2 & M2 & H).
    exists p2, s2. split; [now apply M_seq with p1 s1 | exact H].
  - unfold or_else in H. destruct (run ic r1 prev s k) as [x|] eqn:H1.
    + injection H as ->. apply IH1 in H1 as (p' & s' & M & H).
      exists p', s'. split; [now apply M_alt_l | exact H].
    + apply IH2 in H as (p' & s' & M & H).
      exists p', s'. split; [now apply M_alt_r | exact H].
  - now apply (star_loop_sound r (run ic r) k IH) in H.
  - destruct (at_bol prev) eqn:Hc; [|discriminate].
    exists prev, s. split; [now constructor | exact H].
  - destruct (at_eol s) eqn:Hc; [|discriminate].
    exists prev, s. split; [now constructor | exact H].
  - destruct (at_boundary prev s) eqn:Hc; [|discriminate].
    exists prev, s. split; [now constructor | exact H].
  - destruct (non_boundary prev s) eqn:Hc; [|discriminate].
    exists prev, s. split; [now constructor | exact H].
Qed.

Lemma star_loop_complete (r : regex) (body : option ascii -> text -> cont A -> option A)
    (k : cont A) :
  (forall prev s p' s', Matches ic r prev s p' s' ->
     forall k' a, k' p' s' = Some a -> exists a', body prev s k' = Some a') ->
  forall n prev s p' s' a,
    length s < n ->
    Matches ic (Star r) prev s p' s' ->
    k p' s' = Some a ->
    exists a', star_loop body k n prev s = Some a'.
Proof.
  intros Hbody. induction n as [|n IH]; intros prev s p' s' a Hn M Hk; [lia|].
  cbn [star_loop]. unfold or_else.
  inversion M as [ | | | | | | | r0 p0 s0 | r0 p0 s0 p1 s1 p2 s2 M1 Hlt M2
                   | r0 p0 s0 p1 s1 M1 | | | | ]; subst.
  - destruct (body _ _ _) as [x|]; [now exists x | now exists a].
  - destruct (IH p1 s1 p' s' a) as (a1 & Ha1); [lia | assumption | assumption |].
    destruct (Hbody prev s p1 s1 M1
                (fun prev' s'0 =>
                   if length s'0 <? length s then star_loop body k n prev' s'0
                   else k prev' s'0)
                a1) as (a2 & Ha2).
    + apply Nat.ltb_lt in Hlt. now rewrite Hlt.
    + rewrite Ha2. now exists a2.
  - assert (Hlast : exists a1,
               (if length s' <? length s then star_loop body k n p' s' else k p' s')
               = Some a1).
    { destruct (length s' <? length s) eqn:Hlt; [|now exists a].
      apply Nat.ltb_lt in Hlt.
      apply (IH p' s' p' s' a); [lia | constructor | exact Hk]. }
    destruct Hlast as (a1 & Ha1).
    destruct (Hbody prev s p' s' M1
                (fun prev' s'0 =>
                   if length s'0 <? length s then star_loop body k n prev' s'0
                   else k prev' s'0)
                a1 Ha1) as (a2 & Ha2).
    rewrite Ha2. now exists a2.
Qed.

(** Whenever the relation has a match that the continuation accepts,
    [run] finds some match. *)
Lemma run_complete (r : regex) :
  forall prev s p' s',
    Matches ic r prev s p' s' ->
    forall (k : cont A) a, k p' s' = Some a -> exists a', run ic r prev s k = Some a'.
Proof.
  induction r as [|x| |neg items|r1 IH1 r2 IH2|r1 IH1 r2 IH2|r IH| | | |];
    intros prev s p' s' M k a Hk; cbn [run].
  - inversion M; subst. now exists a.
  - inversion M as [ | ? ? ? ? Hc | | | | | | | | | | | | ]; subst. cbn [step_char].
    rewrite Hc. now exists a.
  - inversion M as [ | | ? ? ? Hc | | | | | | | | | | | ]; subst. cbn [step_char].
    rewrite Hc. now exists a.
  - inversion M as [ | | | ? ? ? ? ? Hc | | | | | | | | | | ]; subst. cbn [step_char].
    rewrite Hc. now exists a.
  - inversion M as [ | | | | ? ? ? ? p1 s1 ? ? M1 M2 | | | | | | | | | ]; subst.
    destruct (IH2 _ _ _ _ M2 k a Hk) as (a2 & H2).
    exact (IH1 _ _ _ _ M1 (fun prev' s'0 => run ic r2 prev' s'0 k) a2 H2).
  - unfold or_else.
    inversion M as [ | | | | | ? ? ? ? ? ? M1 | ? ? ? ? ? ? M2 | | | | | | | ]; subst.
    + destruct (IH1 _ _ _ _ M1 k a Hk) as (a1 & H1). rewrite H1. now exists a1.
    + destruct (run ic r1 prev s k) as [x|]; [now exists x|].
      exact (IH2 _ _ _ _ M2 k a Hk).
  - apply (star_loop_complete r (run ic r) k IH (S (length s)) prev s p' s' a);
      [lia | exact M | exact Hk].
  - inversion M as [ | | | | | | | | | | ? ? Hc | | | ]; subst. rewrite Hc. now exists a.
  - inversion M as [ | | | | | | | | | | | ? ? Hc | | ]; subst. rewrite Hc. now exists a.
  - inversion M as [ | | | | | | | | | | | | ? ? Hc | ]; subst. rewrite Hc. now exists a.
  - inversion M as [ | | | | | | | | | | | | | ? ? Hc ]; subst. rewrite Hc. now exists a.
Qed.
End Run.

End ReFacts.

(* ================================================================== *)
(** * The rule engine *)
(* ================================================================== *)

Module RuleFacts.
Import Utils Policy.

Section WithEngine.
Context {E : RegexEngine}.

(** The patterns of [PII_PATTERNS] are what the fragment's parser makes of
    the pattern sources of the program. *)
Lemma PII_PATTERNS_compiled :
  map (fun e => (fst e, Re.compile false (snd e))) PII_SOURCES
  = map (fun e => (fst e, Some (snd e))) PII_PATTERNS.
Proof. vm_compute. reflexivity. Qed.

Lemma match_rules_from_valid (rules : list rule) (t : text) :
  Forall valid_rule rules ->
  forall acc, match_rules_from rules t acc = Ok (acc ++ filter (rule_matches t) rules).
Proof.
  induction 1 as [|r rules Hr _ IH]; intro acc; cbn.
  - now rewrite app_nil_r.
  - unfold valid_rule in Hr. unfold rule_matches at 1.
    destruct (re_compile true (rule_pattern r)) as [patt|]; [|congruence].
    rewrite IH. destruct (re_search patt t); [|reflexivity].
    now rewrite <- app_assoc.
Qed.

Lemma match_rules_valid (rules : list rule) (t : text) :
  Forall valid_rule rules ->
  match_rules rules t = Ok (filter (rule_matches t) rules).
Proof. intro H. unfold match_rules. now rewrite match_rules_from_valid. Qed.

(** The loop stops at the first rule whose pattern does not compile. *)
Lemma match_rules_from_invalid (pre : list rule) (r : rule) (post : list rule) (t : text) :
  Forall valid_rule pre ->
  re_compile true (rule_pattern r) = None ->
  forall acc, match_rules_from (pre ++ r :: post) t acc = Raise (ReError (rule_pattern r)).
Proof.
  induction 1 as [|x pre Hx _ IH]; intros Hr acc; cbn.
  - now rewrite Hr.
  - unfold valid_rule in Hx.
    destruct (re_compile true (rule_pattern x)); [|congruence]. now apply IH.
Qed.

(** Either every pattern is valid or there is a first invalid one. *)
Lemma first_invalid (rules : list rule) :
  Forall valid_rule rules \/
  exists pre r post, rules = pre ++ r :: post /\ Forall valid_rule pre
                     /\ re_compile true (rule_pattern r) = None.
Proof.
  induction rules as [|x rules IH].
  - left. constructor.
  - destruct (re_compile true (rule_pattern x)) as [p|] eqn:Hx.
    + destruct IH as [IH | (pre & r & post & -> & Hpre & Hr)].
      * left. constructor; [unfold valid_rule; congruence | exact IH].
      * right. exists (x :: pre), r, post. repeat split; trivial.
        constructor; [unfold valid_rule; congruence | exact Hpre].
    + right. exists [], x, rules. repeat split; trivial.
Qed.

Lemma filter_subsequence {A : Type} (f : A -> bool) (l : list A) :
  subsequence (filter f l) l.
Proof.
  induction l as [|x l IH]; cbn.
  - constructor.
  - destruct (f x); now constructor.
Qed.

Lemma existsb_filter_incl (t : text) (R1 R2 : list rule) :
  incl R2 R1 ->
  existsb is_high_block (filter (rule_matches t) R2) = true ->
  existsb is_high_block (filter (rule_matches t) R1) = true.
Proof.
  intros Hincl H. apply existsb_exists in H as (r & Hin & Hhb).
  apply filter_In in Hin as [Hin Hm].
  apply existsb_exists. exists r. split; [|exact Hhb].
  apply filter_In. split; [apply Hincl, Hin | exact Hm].
Qed.

End WithEngine.

(** A rule written with the literals [HIGH] and [BLOCK] passes the test of
    tier 1, and so does one written in lower case. *)
Lemma is_high_block_literal (r : rule) :
  rule_severity r = "HIGH"%string -> rule_action r = "BLOCK"%string ->
  is_high_block r = true.
Proof. unfold is_high_block. intros -> ->. reflexivity. Qed.

Lemma is_high_block_lower_case (r : rule) :
  rule_severity r = "high"%string -> rule_action r = "block"%string ->
  is_high_block r = true.
Proof. unfold is_high_block. intros -> ->. reflexivity. Qed.

End RuleFacts.

(* ================================================================== *)
(** * The decision aggregator *)
(* ================================================================== *)

Module AggregatorFacts.
Import Utils Policy RuleFacts.

(** One turn of the loop, in the words of the specification. *)
Lemma eval_class_step (wrn : list (string * float)) (c : clf_result)
    (bh wh : list hit) (e : string * float) :
  eval_class wrn (proba c) (bh, wh) e
  = (bh ++ (if reaches_block c e then [block_hit_of c e] else []),
     wh ++ (if is_warn_hit wrn c e then [warn_hit_of wrn c e] else [])).
Proof.
  destruct e as [cls thr].
  unfold eval_class, is_warn_hit, reaches_warn, reaches_block, block_hit_of,
    warn_hit_of, warn_threshold, prob_of, get_or; cbn [fst snd].
  destruct (ge _ thr); cbn [negb andb]; [now rewrite app_nil_r|].
  destruct (ge _ _); now rewrite !app_nil_r.
Qed.

(** The loop over the threshold table computes the two filters of the
    specification. *)
Lemma eval_classes_from (wrn : list (string * float)) (c : clf_result)
    (blk : list (string * float)) :
  forall bh wh,
    fold_left (eval_class wrn (proba c)) blk (bh, wh)
    = (bh ++ map (block_hit_of c) (filter (reaches_block c) blk),
       wh ++ map (warn_hit_of wrn c) (filter (is_warn_hit wrn c) blk)).
Proof.
  induction blk as [|e blk IH]; intros bh wh; cbn [fold_left filter].
  - cbn. now rewrite !app_nil_r.
  - rewrite eval_class_step, IH.
    destruct (reaches_block c e), (is_warn_hit wrn c e); cbn [map];
      now rewrite <- ?app_assoc, ?app_nil_r.
Qed.

Lemma eval_classes_spec (blk wrn : list (string * float)) (c : clf_result) :
  eval_classes blk wrn (proba c)
  = (map (block_hit_of c) (filter (reaches_block c) blk),
     map (warn_hit_of wrn c) (filter (is_warn_hit wrn c) blk)).
Proof. unfold eval_classes. now rewrite eval_classes_from. Qed.

Lemma nonempty_map {A B : Type} (f : A -> B) (l : list A) :
  nonempty (map f l) = nonempty l.
Proof. now destruct l. Qed.

Lemma nonempty_true {A : Type} (l : list A) : l <> [] -> nonempty l = true.
Proof. destruct l; [congruence | reflexivity]. Qed.

(** When no class reaches its block-threshold, the warn-hits are the
    classes that reach their warn-threshold. *)
Lemma warn_hits_without_block (wrn : list (string * float)) (c : clf_result)
    (blk : list (string * float)) :
  filter (reaches_block c) blk = [] ->
  filter (is_warn_hit wrn c) blk = filter (reaches_warn wrn c) blk.
Proof.
  induction blk as [|e blk IH]; cbn [filter]; [reflexivity|].
  unfold is_warn_hit at 1.
  destruct (reaches_block c e); [discriminate|]. intro H. cbn [negb andb].
  now rewrite (IH H).
Qed.

Lemma filter_nil_iff {A : Type} (f : A -> bool) (l : list A) :
  filter f l = [] <-> forall x, In x l -> f x = false.
Proof.
  induction l as [|a l IH]; cbn.
  - split; [intros _ x [] | reflexivity].
  - destruct (f a) eqn:Ha.
    + split; [discriminate|]. intro H. specialize (H a (or_introl eq_refl)). congruence.
    + rewrite IH. split.
      * intros H x [<-|Hx]; [exact Ha | now apply H].
      * intros H x Hx. apply H. now right.
Qed.

Section WithEngine.
Context {E : RegexEngine}.

Lemma aggregator_tier1 (cfg : config) (t : text) (ms : list rule) (c : clf_result) :
  match_rules (RULES cfg) t = Ok ms ->
  existsb is_high_block ms = true ->
  classify_text (clf cfg) t = Ok c ->
  decision_aggregator cfg t
  = Ok {| v_decision := BLOCK; matched_rules := ms; classifier_res := c;
          block_hits := None; warn_hits := None |}.
Proof.
  intros Hm Hhb Hc. unfold decision_aggregator. rewrite Hm. cbn [bind].
  rewrite Hhb, Hc. reflexivity.
Qed.

Lemma aggregator_tiers23 (cfg : config) (t : text) (ms : list rule) (c : clf_result) :
  match_rules (RULES cfg) t = Ok ms ->
  existsb is_high_block ms = false ->
  classify_text (clf cfg) t = Ok c ->
  decision_aggregator cfg t = Ok (tiers23 cfg ms c).
Proof.
  intros Hm Hhb Hc. unfold decision_aggregator. rewrite Hm. cbn [bind].
  rewrite Hhb, Hc. cbn [bind]. rewrite eval_classes_spec. unfold tiers23.
  rewrite !nonempty_map.
  destruct (filter (reaches_block c) (class_thresholds cfg)); [|reflexivity].
  now destruct (filter (is_warn_hit (warn_thresholds cfg) c) (class_thresholds cfg)).
Qed.

End WithEngine.

End AggregatorFacts.

(** ** The claims about [decision_aggregator] *)

Module Aggregator.
Import Utils Policy RuleFacts AggregatorFacts.

Section WithEngine.
Context {E : RegexEngine}.

(** C1. Tier-1 precedence: when a matched rule has severity HIGH and action
    BLOCK, [decision_aggregator] returns BLOCK whatever the classifier's
    distribution is, and the classifier's result is part of what it
    returns. *)
Theorem high_block_rule_forces_block (cfg : config) (t : text) (ms : list rule)
    (r : rule) (c : clf_result) :
  match_rules (RULES cfg) t = Ok ms ->
  In r ms -> is_high_block r = true ->
  classify_text (clf cfg) t = Ok c ->
  decision_aggregator cfg t
  = Ok {| v_decision := BLOCK; matched_rules := ms; classifier_res := c;
          block_hits := None; warn_hits := None |}.
Proof.
  intros Hm Hin Hhb Hc. apply aggregator_tier1; trivial.
  apply existsb_exists. now exists r.
Qed.

(** C2. Tier 2: when no HIGH/BLOCK rule matched, every class of the
    threshold table is evaluated; a class is a block-hit when its
    probability reaches its block-threshold, otherwise a warn-hit when it
    reaches its warn-threshold (0.6 times the block-threshold when none is
    configured).  A block-hit makes the decision BLOCK; without one, a
    warn-hit makes it WARN, and [warn_hits] then lists exactly the classes
    whose warn-threshold was reached. *)
Theorem threshold_cascade (cfg : config) (t : text) (ms : list rule) (c : clf_result) :
  match_rules (RULES cfg) t = Ok ms ->
  existsb is_high_block ms = false ->
  classify_text (clf cfg) t = Ok c ->
  let blk := class_thresholds cfg in
  let wrn := warn_thresholds cfg in
  let bh := filter (reaches_block c) blk in
  eval_classes blk wrn (proba c)
  = (map (block_hit_of c) bh, map (warn_hit_of wrn c) (filter (is_warn_hit wrn c) blk))
  /\ (forall cls thr, dict_get wrn cls = None -> warn_threshold wrn cls thr = (thr * 0.6)%float)
  /\ (bh <> [] ->
      decision_aggregator cfg t
      = Ok {| v_decision := BLOCK; matched_rules := ms; classifier_res := c;
              block_hits := Some (map (block_hit_of c) bh); warn_hits := None |})
  /\ (bh = [] -> filter (reaches_warn wrn c) blk <> [] ->
      decision_aggregator cfg t
      = Ok {| v_decision := WARN; matched_rules := ms; classifier_res := c;
              block_hits := None;
              warn_hits := Some (map (warn_hit_of wrn c) (filter (reaches_warn wrn c) blk)) |}).
Proof.
  intros Hm Hhb Hc blk wrn bh.
  pose proof (aggregator_tiers23 cfg t ms c Hm Hhb Hc) as Hd.
  unfold tiers23 in Hd. fold blk wrn bh in Hd.
  split; [apply eval_classes_spec|].
  split; [intros cls thr Hn; unfold warn_threshold; now rewrite Hn|].
  split.
  - intro Hbh. rewrite Hd. destruct bh; [congruence | reflexivity].
  - intros Hbh Hwh. rewrite Hd.
    rewrite (warn_hits_without_block wrn c blk Hbh). rewrite Hbh.
    destruct (filter (reaches_warn wrn c) blk); [congruence | reflexivity].
Qed.

(** C3. Tier 3: when no HIGH/BLOCK rule matched and no class is a block-hit
    or a warn-hit, the decision follows the top score: BLOCK from 0.85 on
    (0.85 included), WARN in [0.5, 0.85), ALLOW below 0.5. *)
Theorem top_score_fallback (cfg : config) (t : text) (ms : list rule) (c : clf_result) :
  match_rules (RULES cfg) t = Ok ms ->
  existsb is_high_block ms = false ->
  classify_text (clf cfg) t = Ok c ->
  eval_classes (class_thresholds cfg) (warn_thresholds cfg) (proba c) = ([], []) ->
  exists d,
    decision_aggregator cfg t
    = Ok {| v_decision := d; matched_rules := ms; classifier_res := c;
            block_hits := None; warn_hits := None |}
    /\ ((0.85 <=? score c)%float = true -> d = BLOCK)
    /\ ((0.5 <=? score c)%float = true -> (score c <? 0.85)%float = true -> d = WARN)
    /\ ((score c <? 0.5)%float = true -> d = ALLOW).
Proof.
  intros Hm Hhb Hc Hev.
  pose proof (aggregator_tiers23 cfg t ms c Hm Hhb Hc) as Hd. unfold tiers23 in Hd.
  rewrite eval_classes_spec in Hev. injection Hev as Hb Hw.
  apply map_eq_nil in Hb, Hw. rewrite Hb, Hw in Hd.
  eexists. split; [exact Hd|]. unfold ge. repeat split.
  - now intros ->.
  - intros H5 H85. apply FloatOrder.lt_not_ge in H85. now rewrite H85, H5.
  - intro H5. rewrite (FloatOrder.lt_not_ge _ _ H5).
    destruct (0.85 <=? score c)%float eqn:H85; [|reflexivity].
    pose proof (FloatOrder.le_lt_trans _ _ _ H85 H5) as Habs.
    vm_compute in Habs. discriminate.
Qed.

(** The defect behind C4, for every input of its kind: a top label outside
    the threshold table with top score 0.9, no class reaching its
    warn-threshold and no rule matching.  The fallback of tier 3 compares
    the score without looking at the label, so the benign query is
    answered with BLOCK. *)
Lemma fallback_ignores_label (cfg : config) (t : text) (c : clf_result) :
  match_rules (RULES cfg) t = Ok [] ->
  classify_text (clf cfg) t = Ok c ->
  dict_get (class_thresholds cfg) (label c) = None ->
  score c = 0.9%float ->
  (forall e, In e (class_thresholds cfg) ->
     PrimFloat.leb (warn_threshold (warn_thresholds cfg) (fst e) (snd e)) (snd e) = true) ->
  (forall e, In e (class_thresholds cfg) -> reaches_warn (warn_thresholds cfg) c e = false) ->
  decision_aggregator cfg t
  = Ok {| v_decision := BLOCK; matched_rules := []; classifier_res := c;
          block_hits := None; warn_hits := None |}.
Proof.
  intros Hm Hc _ Hs Hinv Hw.
  rewrite (aggregator_tiers23 cfg t [] c Hm eq_refl Hc). unfold tiers23.
  assert (Hb : filter (reaches_block c) (class_thresholds cfg) = []).
  { apply filter_nil_iff. intros e He.
    destruct (reaches_block c e) eqn:Hr; [|reflexivity].
    unfold reaches_block, ge in Hr.
    pose proof (FloatOrder.le_trans _ _ _ (Hinv e He) Hr) as Habs.
    specialize (Hw e He). unfold reaches_warn, ge in Hw. congruence. }
  rewrite (warn_hits_without_block _ c _ Hb), Hb.
  replace (filter (reaches_warn (warn_thresholds cfg) c) (class_thresholds cfg))
    with (@nil (string * float)) by (symmetry; now apply filter_nil_iff).
  rewrite Hs. reflexivity.
Qed.

(** C5. Monotonicity in the rules: with the same classifier and thresholds,
    a rule list that contains every rule of another one yields a decision
    at least as severe, in the order ALLOW < WARN < BLOCK. *)
Theorem decision_monotone_in_rules (R1 R2 : list rule) (k : classifier)
    (blk wrn : list (string * float)) (t : text) (c : clf_result) :
  incl R2 R1 ->
  Forall valid_rule R1 ->
  classify_text k t = Ok c ->
  exists v1 v2,
    decision_aggregator
      {| RULES := R1; clf := k; class_thresholds := blk; warn_thresholds := wrn |} t = Ok v1
    /\ decision_aggregator
      {| RULES := R2; clf := k; class_thresholds := blk; warn_thresholds := wrn |} t = Ok v2
    /\ decision_le (v_decision v2) (v_decision v1).
Proof.
  intros Hincl Hv1 Hc.
  assert (Hv2 : Forall valid_rule R2).
  { apply Forall_forall. intros r Hr. rewrite Forall_forall in Hv1. apply Hv1, Hincl, Hr. }
  set (cfg1 := {| RULES := R1; clf := k; class_thresholds := blk; warn_thresholds := wrn |}).
  set (cfg2 := {| RULES := R2; clf := k; class_thresholds := blk; warn_thresholds := wrn |}).
  pose proof (match_rules_valid R1 t Hv1) as Hm1.
  pose proof (match_rules_valid R2 t Hv2) as Hm2.
  destruct (existsb is_high_block (filter (rule_matches t) R2)) eqn:H2.
  - pose proof (existsb_filter_incl t R1 R2 Hincl H2) as H1.
    rewrite (aggregator_tier1 cfg1 t _ c Hm1 H1 Hc), (aggregator_tier1 cfg2 t _ c Hm2 H2 Hc).
    do 2 eexists. repeat split. unfold decision_le. cbn. repeat constructor.
  - rewrite (aggregator_tiers23 cfg2 t _ c Hm2 H2 Hc).
    destruct (existsb is_high_block (filter (rule_matches t) R1)) eqn:H1.
    + rewrite (aggregator_tier1 cfg1 t _ c Hm1 H1 Hc).
      do 2 eexists. repeat split. unfold decision_le. cbn.
      destruct (v_decision _); cbn; repeat constructor.
    + rewrite (aggregator_tiers23 cfg1 t _ c Hm1 H1 Hc).
      do 2 eexists. repeat split. unfold decision_le, tiers23. cbn.
      destruct (filter (reaches_block c) blk);
        [destruct (filter (is_warn_hit wrn c) blk)|]; cbn; repeat constructor.
Qed.

(** C10. What [decision_aggregator] returns: one of the three decisions,
    all the matched rules and the classifier's result; never both
    [block_hits] and [warn_hits]; [warn_hits] only with WARN and
    [block_hits] only with BLOCK; and once a class is a block-hit, the
    warn-hits of the other classes are left out. *)
Theorem verdict_shape (cfg : config) (t : text) (ms : list rule) (c : clf_result) :
  match_rules (RULES cfg) t = Ok ms ->
  classify_text (clf cfg) t = Ok c ->
  exists v,
    decision_aggregator cfg t = Ok v
    /\ In (v_decision v) [ALLOW; WARN; BLOCK]
    /\ matched_rules v = ms
    /\ classifier_res v = c
    /\ (block_hits v = None \/ warn_hits v = None)
    /\ (forall wh, warn_hits v = Some wh -> v_decision v = WARN /\ wh <> [])
    /\ (forall bh, block_hits v = Some bh -> v_decision v = BLOCK /\ bh <> [])
    /\ (existsb is_high_block ms = false ->
        forall bh wh,
          eval_classes (class_thresholds cfg) (warn_thresholds cfg) (proba c) = (bh, wh) ->
          bh <> [] -> block_hits v = Some bh /\ warn_hits v = None).
Proof.
  intros Hm Hc. destruct (existsb is_high_block ms) eqn:Hhb.
  - rewrite (aggregator_tier1 cfg t ms c Hm Hhb Hc). eexists. split; [reflexivity|].
    cbn. repeat split; auto; discriminate.
  - rewrite (aggregator_tiers23 cfg t ms c Hm Hhb Hc). eexists. split; [reflexivity|].
    rewrite eval_classes_spec. unfold tiers23.
    destruct (filter (reaches_block c) (class_thresholds cfg)) as [|b bs];
      [destruct (filter (is_warn_hit _ c) (class_thresholds cfg)) as [|x xs]|];
      cbn [v_decision matched_rules classifier_res block_hits warn_hits map].
    + split; [destruct (ge (score c) 0.85); [|destruct (ge (score c) 0.5)]; cbn; auto|].
      do 3 (split; [auto|]).
      split; [discriminate|]. split; [discriminate|].
      intros _ bh wh [= <- <-] Hne. congruence.
    + split; [cbn; auto|]. do 3 (split; [auto|]).
      split; [intros wh [= <-]; split; [reflexivity|discriminate]|].
      split; [discriminate|].
      intros _ bh wh [= <- <-] Hne. congruence.
    + split; [cbn; auto|]. do 3 (split; [auto|]).
      split; [discriminate|].
      split; [intros bh [= <-]; split; [reflexivity|discriminate]|].
      intros _ bh wh [= <- <-] Hne. split; reflexivity.
Qed.

End WithEngine.

End Aggregator.

(** ** The claims about [decision_aggregator], at sample inputs *)

Module AggregatorSamples.
Import Utils Policy Sample.

(** A HIGH/BLOCK rule matches and every probability is 0: BLOCK. *)
Lemma high_block_rule_forces_block_witness :
  decision_aggregator (cfg rules zeros) lethal_text
  = Ok {| v_decision := BLOCK; matched_rules := [overdose_rule];
          classifier_res := result_of zeros "general_info" 0;
          block_hits := None; warn_hits := None |}.
Proof.
  apply (@Aggregator.high_block_rule_forces_block fragment_engine
           (cfg rules zeros) lethal_text [overdose_rule] overdose_rule).
  - vm_compute. reflexivity.
  - left. reflexivity.
  - reflexivity.
  - vm_compute. reflexivity.
Defined.

(** [self_harm] and [procedural] below their warn-thresholds,
    [prescription_request] between its two thresholds: WARN, and
    [warn_hits] holds that class alone. *)
Lemma threshold_cascade_witness :
  decision_aggregator (cfg rules script) antibiotics_text
  = Ok {| v_decision := WARN; matched_rules := [antibiotic_rule];
          classifier_res := result_of script "prescription_request" 0.5;
          block_hits := None;
          warn_hits := Some [{| hit_class := "prescription_request"; hit_prob := 0.5;
                                hit_threshold := 0.4 |}] |}.
Proof.
  destruct (@Aggregator.threshold_cascade fragment_engine
              (cfg rules script) antibiotics_text [antibiotic_rule]
              (result_of script "prescription_request" 0.5)) as (_ & _ & _ & H).
  - vm_compute. reflexivity.
  - reflexivity.
  - vm_compute. reflexivity.
  - apply H.
    + vm_compute. reflexivity.
    + vm_compute. discriminate.
Defined.

(** A class without configured warn-threshold: with a block-threshold of
    0.40 the fallback is 0.24, and a probability of 0.3 is a warn-hit. *)
Example fallback_warn_threshold :
  decision_aggregator
    {| RULES := rules; clf := constant_clf [0.6; 0.05; 0.05; 0.3]%float;
       class_thresholds := [("self_harm"%string, 0.40%float)];
       warn_thresholds := [] |} hello
  = Ok {| v_decision := WARN; matched_rules := [];
          classifier_res := result_of [0.6; 0.05; 0.05; 0.3]%float "general_info" 0.6;
          block_hits := None;
          warn_hits := Some [{| hit_class := "self_harm"; hit_prob := 0.3;
                                hit_threshold := 0.24 |}] |}.
Proof. vm_compute. reflexivity. Qed.

(** No rule, no hit, top score 0.4: ALLOW. *)
Lemma top_score_fallback_witness :
  decision_aggregator (cfg rules calm) hello
  = Ok {| v_decision := ALLOW; matched_rules := [];
          classifier_res := result_of calm "general_info" 0.4;
          block_hits := None; warn_hits := None |}.
Proof.
  destruct (@Aggregator.top_score_fallback fragment_engine
              (cfg rules calm) hello [] (result_of calm "general_info" 0.4))
    as (d & Hd & _ & _ & Hallow).
  - vm_compute. reflexivity.
  - reflexivity.
  - vm_compute. reflexivity.
  - vm_compute. reflexivity.
  - rewrite Hd. rewrite Hallow; reflexivity.
Defined.

(** The boundary of tier 3: a top score of exactly 0.85 is BLOCK, one of
    0.8499 is WARN. *)
Example top_score_boundary :
  (exists v, decision_aggregator (cfg [] borderline) hello = Ok v
             /\ v_decision v = BLOCK /\ block_hits v = None)
  /\ (exists v, decision_aggregator (cfg [] below) hello = Ok v
                /\ v_decision v = WARN /\ warn_hits v = None).
Proof. split; eexists; (split; [vm_compute; reflexivity | split; reflexivity]). Qed.

(** The end-to-end scenario of the specification: [self_harm] at 0.7 with a
    block-threshold of 0.40. *)
Example self_harm_scenario :
  decision_aggregator (cfg rules [0.1; 0.1; 0.1; 0.7]%float) (txt "I want to hurt myself")
  = Ok {| v_decision := BLOCK; matched_rules := [];
          classifier_res := result_of [0.1; 0.1; 0.1; 0.7]%float "self_harm" 0.7;
          block_hits := Some [{| hit_class := "self_harm"; hit_prob := 0.7;
                                 hit_threshold := 0.40 |}];
          warn_hits := None |}.
Proof. vm_compute. reflexivity. Qed.

(** C4. The code at the failing input: the flu question, top label
    [general_info] (not in the threshold table) at 0.9, no class at its
    warn-threshold and no rule matching.  The claim wants ALLOW, and the
    knowledge base holds this very question as one to answer; the code
    returns BLOCK. *)
Lemma benign_top_label_is_blocked :
  match_rules (RULES (cfg rules flu)) flu_text = Ok []
  /\ classify_text (clf (cfg rules flu)) flu_text = Ok (result_of flu "general_info" 0.9)
  /\ dict_get CLASS_THRESHOLDS "general_info" = None
  /\ forallb (fun e => negb (reaches_warn WARN_THRESHOLDS (result_of flu "general_info" 0.9) e))
       CLASS_THRESHOLDS = true
  /\ decision_aggregator (cfg rules flu) flu_text
     = Ok {| v_decision := BLOCK; matched_rules := [];
             classifier_res := result_of flu "general_info" 0.9;
             block_hits := None; warn_hits := None |}
  /\ BLOCK <> ALLOW
  /\ Llm.pass_through_llm flu_text = snd (nth 0 Llm.KB (""%string, ""%string)).
Proof.
  repeat split; try (vm_compute; reflexivity). discriminate.
Qed.

(** Adding the HIGH/BLOCK rule moves the decision from ALLOW to BLOCK. *)
Lemma decision_monotone_in_rules_witness :
  exists v1 v2,
    decision_aggregator (cfg rules zeros) lethal_text = Ok v1
    /\ decision_aggregator (cfg [antibiotic_rule] zeros) lethal_text = Ok v2
    /\ decision_le (v_decision v2) (v_decision v1).
Proof.
  apply (@Aggregator.decision_monotone_in_rules fragment_engine
           rules [antibiotic_rule] (constant_clf zeros) CLASS_THRESHOLDS WARN_THRESHOLDS
           lethal_text (result_of zeros "general_info" 0)).
  - intros r [<-|[]]. right. left. reflexivity.
  - repeat constructor; vm_compute; discriminate.
  - vm_compute. reflexivity.
Defined.

(** [self_harm] is a block-hit and [procedural] a warn-hit: the verdict
    keeps the block-hit and drops the warn-hit. *)
Lemma verdict_shape_witness :
  snd (eval_classes CLASS_THRESHOLDS WARN_THRESHOLDS
         (proba (result_of mixed "self_harm" 0.45)))
  = [{| hit_class := "procedural"; hit_prob := 0.4; hit_threshold := 0.35 |}]
  /\ exists v,
       decision_aggregator (cfg rules mixed) hello = Ok v
       /\ v_decision v = BLOCK
       /\ block_hits v = Some [{| hit_class := "self_harm"; hit_prob := 0.45;
                                  hit_threshold := 0.40 |}]
       /\ warn_hits v = None.
Proof.
  split; [vm_compute; reflexivity|].
  destruct (@Aggregator.verdict_shape fragment_engine (cfg rules mixed) hello []
              (result_of mixed "self_harm" 0.45))
    as (v & Hv & _ & _ & _ & _ & _ & Hb & Hdrop).
  - vm_compute. reflexivity.
  - vm_compute. reflexivity.
  - exists v. split; [exact Hv|].
    destruct (Hdrop eq_refl
                [{| hit_class := "self_harm"; hit_prob := 0.45; hit_threshold := 0.40 |}]
                [{| hit_class := "procedural"; hit_prob := 0.4; hit_threshold := 0.35 |}])
      as [Hbh Hwh].
    + vm_compute. reflexivity.
    + discriminate.
    + split; [exact (proj1 (Hb _ Hbh)) | split; assumption].
Defined.

End AggregatorSamples.

(* ================================================================== *)
(** * The request handler *)
(* ================================================================== *)

Module Endpoint.
Import Utils Policy AuditDb App RuleFacts.

Section WithEngine.
Context {E : RegexEngine}.

(** A request never touches the configuration. *)
Lemma chat_endpoint_keeps_config (now : clock) (b : body) (w : world) :
  w_config (snd (chat_endpoint now b w)) = w_config w.
Proof.
  unfold chat_endpoint.
  destruct (decision_aggregator _ _) as [v|e]; [|reflexivity].
  destruct (insert_audit _ _) as [[id|e] db'];
    destruct (json_safe (classifier_res v)); reflexivity.
Qed.

(** C7. [match_rules] compiles every configured pattern with IGNORECASE and
    returns exactly the rules whose pattern matches, in configuration
    order (a subsequence of the rule list); the list depends on the text
    and the rules alone, so a later call, also after a request was served,
    returns the same list. *)
Theorem match_rules_subsequence (R : list rule) (t : text) :
  Forall valid_rule R ->
  match_rules R t = Ok (filter (rule_matches t) R)
  /\ subsequence (filter (rule_matches t) R) R
  /\ (forall r, In r (filter (rule_matches t) R) <-> In r R /\ rule_matches t r = true)
  /\ (forall now b w, RULES (w_config w) = R ->
        match_rules (RULES (w_config (snd (chat_endpoint now b w)))) t
        = match_rules R t).
Proof.
  intro Hv. split; [now apply match_rules_valid|].
  split; [apply filter_subsequence|].
  split; [intro r; apply filter_In|].
  intros now b w <-. now rewrite chat_endpoint_keeps_config.
Qed.

(** C8, as the code has it.  Importing the module reads the rules as they
    are, whatever their patterns; [match_rules] compiles each pattern when
    it reaches the rule, so it returns exactly when every pattern is valid
    and otherwise raises [re.error] at the first invalid one. *)
Theorem patterns_checked_at_match_time (rules : list rule) (k : classifier) (t : text) :
  import_utils {| rules_json := Some rules; classifier_joblib := Some k |}
  = Ok {| RULES := rules; clf := k;
          class_thresholds := CLASS_THRESHOLDS; warn_thresholds := WARN_THRESHOLDS |}
  /\ (Forall valid_rule rules <-> match_rules rules t = Ok (filter (rule_matches t) rules))
  /\ (forall pre r post,
        rules = pre ++ r :: post -> Forall valid_rule pre ->
        re_compile true (rule_pattern r) = None ->
        match_rules rules t = Raise (ReError (rule_pattern r))).
Proof.
  split; [reflexivity|]. split.
  - split; [apply match_rules_valid|].
    intro Hok. destruct (first_invalid rules) as [Hv | (pre & r & post & -> & Hpre & Hr)];
      [exact Hv|].
    unfold match_rules in Hok.
    rewrite (match_rules_from_invalid pre r post t Hpre Hr) in Hok. discriminate.
  - intros pre r post -> Hpre Hr. now apply match_rules_from_invalid.
Qed.

(** C9. When writing the audit record raises, the request still returns a
    response, with the decision it returns when the write succeeds; the
    failure shows only in [explain]: [audit_error] holds the message and
    [audit_id] is absent.  This is so for every verdict that
    [JSONResponse] can render; for any other, the request ends in
    [ValueError] whether the write succeeds or raises, with the same
    counters. *)
Theorem audit_failure_is_soft (now : clock) (b : body) (w : world) (v : verdict)
    (msg : string) :
  decision_aggregator (w_config w) (masked_text (mask_pii (with_default (b_text b) [])))
  = Ok v ->
  (json_safe (classifier_res v) = true ->
   exists r_ok r_ko w_ok w_ko,
     chat_endpoint now b (with_fault None w) = (Ok r_ok, w_ok)
     /\ chat_endpoint now b (with_fault (Some msg) w) = (Ok r_ko, w_ko)
     /\ r_decision r_ok = v_decision v
     /\ r_decision r_ko = v_decision v
     /\ r_safe_response r_ko = r_safe_response r_ok
     /\ r_llm_response r_ko = r_llm_response r_ok
     /\ r_warning r_ko = r_warning r_ok
     /\ x_audit_id (r_explain r_ok) = Some (S (db_seq (w_db w)))
     /\ x_audit_error (r_explain r_ok) = None
     /\ x_audit_id (r_explain r_ko) = None
     /\ x_audit_error (r_explain r_ko) = Some msg
     /\ x_masked_text (r_explain r_ko) = x_masked_text (r_explain r_ok)
     /\ x_pii_detected (r_explain r_ko) = x_pii_detected (r_explain r_ok)
     /\ x_matched_rules (r_explain r_ko) = x_matched_rules (r_explain r_ok)
     /\ x_classifier (r_explain r_ko) = x_classifier (r_explain r_ok)
     /\ w_metrics w_ko = w_metrics w_ok
     /\ w_db w_ko = w_db (with_fault (Some msg) w))
  /\ (json_safe (classifier_res v) = false ->
      exists w_ok w_ko,
        chat_endpoint now b (with_fault None w) = (Raise ValueError, w_ok)
        /\ chat_endpoint now b (with_fault (Some msg) w) = (Raise ValueError, w_ko)
        /\ w_metrics w_ko = w_metrics w_ok
        /\ w_db w_ko = w_db (with_fault (Some msg) w)).
Proof.
  intro Hv. unfold chat_endpoint. cbn [with_fault w_config w_metrics w_db].
  rewrite Hv. unfold insert_audit. cbn [db_fault db_rows db_seq].
  split; intro Hsafe; rewrite Hsafe.
  - do 4 eexists. split; [reflexivity|]. split; [reflexivity|].
    destruct (v_decision v) eqn:Hd; cbn; rewrite ?Hd; repeat split; reflexivity.
  - do 2 eexists. repeat split; reflexivity.
Qed.

End WithEngine.

End Endpoint.

Module EndpointSamples.
Import Utils Policy AuditDb App Sample.

(** The two sample rules on a question in capitals: the pattern
    [antibiotics?] matches [ANTIBIOTICS]. *)
Lemma match_rules_subsequence_witness :
  match_rules rules antibiotics_text = Ok [antibiotic_rule]
  /\ subsequence [antibiotic_rule] rules.
Proof.
  destruct (@Endpoint.match_rules_subsequence fragment_engine rules antibiotics_text)
    as (Hm & Hs & _).
  - repeat constructor; vm_compute; discriminate.
  - split; [exact Hm | exact Hs].
Defined.

(** C8 fails on the code: a rule with an unclosed group is loaded without
    complaint, and the first call of [match_rules] raises [re.error]. *)
Lemma broken_rule_counterexample :
  import_utils {| rules_json := Some [antibiotic_rule; broken_rule];
                  classifier_joblib := Some (constant_clf calm) |}
  = Ok (cfg [antibiotic_rule; broken_rule] calm)
  /\ Re.compile true (rule_pattern broken_rule) = None
  /\ @match_rules fragment_engine (RULES (cfg [antibiotic_rule; broken_rule] calm)) hello
     = Raise (ReError "(insulin|").
Proof. repeat split; vm_compute; reflexivity. Qed.

(** The database is locked: the question about antibiotics is answered
    with WARN all the same, and [explain] carries the message. *)
Lemma audit_failure_is_soft_witness :
  exists r w',
    chat_endpoint noon (ask "Can I get antibiotics? mail a@b.cd")
      (world_of (cfg rules script) (Some "database is locked"%string)) = (Ok r, w')
    /\ r_decision r = WARN
    /\ x_audit_id (r_explain r) = None
    /\ x_audit_error (r_explain r) = Some "database is locked"%string.
Proof.
  destruct (@Endpoint.audit_failure_is_soft fragment_engine noon
              (ask "Can I get antibiotics? mail a@b.cd")
              (world_of (cfg rules script) None)
              {| v_decision := WARN; matched_rules := [antibiotic_rule];
                 classifier_res := result_of script "prescription_request" 0.5;
                 block_hits := None;
                 warn_hits := Some [{| hit_class := "prescription_request"; hit_prob := 0.5;
                                       hit_threshold := 0.4 |}] |}
              "database is locked"%string)
    as [Hsafe _].
  - vm_compute. reflexivity.
  - destruct Hsafe
      as (r_ok & r_ko & w_ok & w_ko & _ & Hko & _ & Hd & _ & _ & _ & _ & _ & Hid & He & _).
    + vm_compute. reflexivity.
    + exists r_ko, w_ko. repeat split; assumption.
Defined.

End EndpointSamples.

(* ================================================================== *)
(** * PII masking *)
(* ================================================================== *)

Module MaskingFacts.
Import Chars Utils Masking ReFacts.

(** ** The email pattern and the email-shaped strings *)

Lemma star_set_intro (cs : list Re.set_item) (l : text) :
  forallb (Re.set_has false cs) l = true ->
  forall p rest, exists p', Re.Matches false (Re.Star (Re.CharSet false cs)) p (l ++ rest) p' rest.
Proof.
  induction l as [|c l IH]; intros Hl p rest; cbn [forallb] in Hl.
  - exists p. constructor.
  - apply andb_prop in Hl as [Hc Hl].
    destruct (IH Hl (Some c) rest) as (p' & M).
    exists p'. cbn [app]. apply Re.M_star_more with (Some c) (l ++ rest); trivial.
    + now constructor.
    + cbn. lia.
Qed.

Lemma plus_set_intro (cs : list Re.set_item) (l : text) :
  l <> [] -> forallb (Re.set_has false cs) l = true ->
  forall p rest, exists p', Re.Matches false (plus (Re.CharSet false cs)) p (l ++ rest) p' rest.
Proof.
  intros Hne Hl p rest. destruct l as [|c l]; [congruence|].
  cbn [forallb] in Hl. apply andb_prop in Hl as [Hc Hl].
  destruct (star_set_intro cs l Hl (Some c) rest) as (p' & M).
  exists p'. unfold plus. cbn [app].
  apply Re.M_seq with (Some c) (l ++ rest); [now constructor | exact M].
Qed.

Lemma star_set_elim (cs : list Re.set_item) (p : option ascii) (s : text)
    (p' : option ascii) (s' : text) :
  Re.Matches false (Re.Star (Re.CharSet false cs)) p s p' s' ->
  exists l, forallb (Re.set_has false cs) l = true /\ s = l ++ s'.
Proof.
  remember (Re.Star (Re.CharSet false cs)) as r eqn:Hr. intro M.
  induction M as [ | | | | | | | r0 p0 s0 | r0 p0 s0 p1 s1 p2 s2 M1 _ Hlt M2 IH
                   | r0 p0 s0 p1 s1 M1 _ | | | | ];
    try discriminate.
  - exists []. split; reflexivity.
  - injection Hr as ->. destruct (IH eq_refl) as (l & Hl & ->).
    inversion M1 as [ | | | ? ? c ? ? Hc | | | | | | | | | | ]; subst.
    exists (c :: l). split; [|reflexivity].
    cbn [xorb] in Hc. cbn [forallb]. now rewrite Hc, Hl.
  - injection Hr as ->.
    inversion M1 as [ | | | ? ? c ? ? Hc | | | | | | | | | | ]; subst.
    exists [c]. split; [|reflexivity].
    cbn [xorb] in Hc. cbn [forallb]. now rewrite Hc.
Qed.

Lemma plus_set_elim (cs : list Re.set_item) (p : option ascii) (s : text)
    (p' : option ascii) (s' : text) :
  Re.Matches false (plus (Re.CharSet false cs)) p s p' s' ->
  exists l, l <> [] /\ forallb (Re.set_has false cs) l = true /\ s = l ++ s'.
Proof.
  unfold plus. intro M.
  inversion M as [ | | | | ? ? ? ? p1 s1 ? ? M1 M2 | | | | | | | | | ]; subst.
  inversion M1 as [ | | | ? ? c ? ? Hc | | | | | | | | | | ]; subst.
  apply star_set_elim in M2 as (l & Hl & ->).
  exists (c :: l). split; [discriminate|]. split; [|reflexivity].
  cbn [xorb] in Hc. cbn [forallb]. now rewrite Hc, Hl.
Qed.

(** The pattern matches exactly the email-shaped strings. *)
Lemma email_re_sound (p : option ascii) (s : text) (p' : option ascii) (s' : text) :
  Re.Matches false email_re p s p' s' -> exists w, email_word w /\ s = w ++ s'.
Proof.
  unfold email_re. intro M.
  inversion M as [ | | | | ? ? ? ? p1 s1 ? ? M1 M2 | | | | | | | | | ]; subst.
  inversion M2 as [ | | | | ? ? ? ? p2 s2 ? ? M3 M4 | | | | | | | | | ]; subst.
  inversion M4 as [ | | | | ? ? ? ? p3 s3 ? ? M5 M6 | | | | | | | | | ]; subst.
  inversion M6 as [ | | | | ? ? ? ? p4 s4 ? ? M7 M8 | | | | | | | | | ]; subst.
  apply plus_set_elim in M1 as (local & Hl1 & Hl2 & ->).
  inversion M3 as [ | ? c1 ? ? Hc1 | | | | | | | | | | | | ]; subst.
  apply plus_set_elim in M5 as (domain & Hd1 & Hd2 & ->).
  inversion M7 as [ | ? c2 ? ? Hc2 | | | | | | | | | | | | ]; subst.
  apply plus_set_elim in M8 as (tld & Ht1 & Ht2 & ->).
  cbn [Re.lit_eqb] in Hc1, Hc2.
  apply Ascii.eqb_eq in Hc1, Hc2. subst c1 c2.
  exists (local ++ "@"%char :: domain ++ "."%char :: tld). split.
  - now constructor.
  - rewrite <- app_assoc. cbn [app]. rewrite <- app_assoc. reflexivity.
Qed.

Lemma email_re_complete (w : text) :
  email_word w ->
  forall p rest, exists p', Re.Matches false email_re p (w ++ rest) p' rest.
Proof.
  intros [local domain tld Hl1 Hl2 Hd1 Hd2 Ht1 Ht2] p rest.
  destruct (plus_set_intro email_chars local Hl1 Hl2 p
              ("@"%char :: domain ++ "."%char :: tld ++ rest)) as (p1 & M1).
  destruct (plus_set_intro email_chars domain Hd1 Hd2 (Some "@"%char)
              ("."%char :: tld ++ rest)) as (p2 & M2).
  destruct (plus_set_intro letters tld Ht1 Ht2 (Some "."%char) rest) as (p3 & M3).
  exists p3. unfold email_re.
  rewrite <- app_assoc. cbn [app]. rewrite <- app_assoc. cbn [app].
  eapply Re.M_seq; [exact M1|].
  eapply Re.M_seq; [now constructor|].
  eapply Re.M_seq; [exact M2|].
  eapply Re.M_seq; [now constructor | exact M3].
Qed.

Lemma email_word_nonempty (w : text) : email_word w -> w <> [].
Proof. intros [local domain tld Hl _ _ _ _ _]. now destruct local. Qed.

(** ** [match_at] and [search] on the email pattern *)

Lemma match_at_email_sound (ma : bool) (prev : option ascii) (s rest : text) :
  Re.match_at (pat email_re) ma prev s = Some rest -> email_prefix s.
Proof.
  unfold Re.match_at. cbn [pat Re.pat_re Re.pat_ignorecase]. intro H.
  apply run_sound in H as (p' & s' & M & _).
  apply email_re_sound in M as (w & Hw & ->). now exists w, s'.
Qed.

Lemma match_at_email_complete (ma : bool) (prev : option ascii) (s : text) :
  email_prefix s -> Re.match_at (pat email_re) ma prev s <> None.
Proof.
  intros (w & rest & -> & Hw). unfold Re.match_at. cbn [pat Re.pat_re Re.pat_ignorecase].
  destruct (email_re_complete w Hw prev rest) as (p' & M).
  destruct (run_complete _ false email_re prev (w ++ rest) p' rest M
              (fun _ s' => if ma && (length s' =? length (w ++ rest)) then None else Some s')
              rest) as (a' & Ha).
  - replace (length rest =? length (w ++ rest)) with false; [now rewrite andb_false_r|].
    symmetry. apply Nat.eqb_neq. rewrite length_app.
    apply email_word_nonempty in Hw. destruct w; [congruence | cbn; lia].
  - rewrite Ha. discriminate.
Qed.

Lemma has_email_cons (c : ascii) (s : text) :
  has_email (c :: s) <-> email_prefix (c :: s) \/ has_email s.
Proof.
  split.
  - intros ([|x pre] & rest & Heq & Hp); cbn in Heq.
    + left. now subst rest.
    + right. injection Heq as -> ->. now exists pre, rest.
  - intros [Hp | (pre & rest & -> & Hp)].
    + now exists [], (c :: s).
    + now exists (c :: pre), rest.
Qed.

Lemma email_prefix_nil : ~ email_prefix [].
Proof.
  intros (w & rest & Heq & Hw). apply email_word_nonempty in Hw.
  destruct w; [congruence | discriminate].
Qed.

Lemma has_email_nil : ~ has_email [].
Proof.
  intros (pre & rest & Heq & Hp). destruct pre; [|discriminate].
  cbn in Heq. subst rest. now apply email_prefix_nil in Hp.
Qed.

(** [search] with the email pattern says whether the text contains an
    email-shaped substring. *)
Lemma search_from_email (s : text) :
  forall prev, Re.search_from (pat email_re) prev s = true <-> has_email s.
Proof.
  induction s as [|c s IH]; intro prev; cbn [Re.search_from].
  - destruct (Re.match_at (pat email_re) false prev []) as [rest|] eqn:Hm.
    + apply match_at_email_sound in Hm. now apply email_prefix_nil in Hm.
    + split; [discriminate | intro H; now apply has_email_nil in H].
  - rewrite has_email_cons.
    destruct (Re.match_at (pat email_re) false prev (c :: s)) as [rest|] eqn:Hm.
    + apply match_at_email_sound in Hm. split; [now left | reflexivity].
    + rewrite IH. split; [now right|]. intros [Hp | Hs]; [|exact Hs].
      now apply (match_at_email_complete false prev) in Hp.
Qed.

Lemma search_email (s : text) :
  Re.search (pat email_re) s = true <-> has_email s.
Proof. apply search_from_email. Qed.

(** ** The shape of what [sub] returns *)

Lemma masked_after_repl (p : Re.pattern) (repl : text) (s : text) :
  (forall skip prev, Masked p repl (negb (skip =? 0)) s (Re.sub_from p repl skip prev s)) ->
  forall k prev, Masked p repl true s (Re.sub_from p repl k prev s).
Proof.
  intros H [|k] prev.
  - apply masked_stop. exact (H 0 prev).
  - exact (H (S k) prev).
Qed.

Lemma sub_from_masked (p : Re.pattern) (repl : text) (s : text) :
  forall skip prev, Masked p repl (negb (skip =? 0)) s (Re.sub_from p repl skip prev s).
Proof.
  induction s as [|c s IH]; intros skip prev; cbn [Re.sub_from].
  - destruct skip as [|k]; [|constructor].
    destruct (Re.match_at p false prev []); [|constructor].
    pose proof (@masked_repl p repl false [] [] (@masked_nil p repl true)) as H.
    now rewrite app_nil_r in H.
  - pose proof (masked_after_repl p repl s IH) as Hdrop.
    destruct skip as [|k]; cbn [Nat.eqb negb].
    + destruct (Re.match_at p false prev (c :: s)) as [rest|] eqn:Hm.
      * destruct (length (c :: s) - length rest) as [|k].
        -- apply masked_repl.
           destruct (Re.match_at p true prev (c :: s)) as [rest'|] eqn:Hm'.
           ++ apply masked_repl, masked_drop, Hdrop.
           ++ apply masked_stop, masked_keep; [now exists true, prev | exact (IH 0 (Some c))].
        -- apply masked_repl, masked_drop, Hdrop.
      * apply masked_keep; [now exists false, prev | exact (IH 0 (Some c))].
    + apply masked_drop, Hdrop.
Qed.

Lemma sub_masked (p : Re.pattern) (repl : text) (s : text) :
  Masked p repl false s (Re.sub p repl s).
Proof. exact (sub_from_masked p repl s 0 None). Qed.

(** ** Placeholders and email-shaped strings *)

Lemma email_prefix_local (s : text) : email_prefix s -> local_prefix s.
Proof.
  intros (w & rest & -> & [local domain tld Hl1 Hl2 _ _ _ _]).
  exists local, (domain ++ "."%char :: tld ++ rest). repeat split; trivial.
  rewrite <- app_assoc. cbn [app]. rewrite <- app_assoc. reflexivity.
Qed.

Lemma local_prefix_head (c : ascii) (s : text) :
  local_prefix (c :: s) -> is_email_char c = true.
Proof.
  intros (local & rest & Hne & Hall & Heq). destruct local as [|x local]; [congruence|].
  injection Heq as -> _. cbn [forallb] in Hall. now apply andb_prop in Hall as [Hx _].
Qed.

Lemma no_local_prefix_before_bracket (n o : text) :
  ~ In at_sign n -> ~ local_prefix (n ++ bracket_close :: o).
Proof.
  induction n as [|x n IH]; intros Hat Hp.
  - apply local_prefix_head in Hp. vm_compute in Hp. discriminate.
  - destruct Hp as (local & rest & Hne & Hall & Heq).
    destruct local as [|y local]; [congruence|].
    cbn [app] in Heq. injection Heq as -> Heq.
    cbn [forallb] in Hall. apply andb_prop in Hall as [_ Hall].
    destruct local as [|z local].
    + cbn [app] in Heq. destruct n as [|y' n]; cbn [app] in Heq.
      * discriminate.
      * injection Heq as -> _. apply Hat. right. left. reflexivity.
    + apply IH.
      * intro Hin. apply Hat. now right.
      * exists (z :: local), rest. repeat split; [discriminate | exact Hall | exact Heq].
Qed.

Lemma placeholder_bracketed :
  Forall (fun e => bracketed (placeholder (fst e))) PII_PATTERNS.
Proof.
  repeat constructor; cbn [fst].
  - exists (txt "EMAIL"). split; [|reflexivity]. intros [H|[H|[H|[H|[H|[]]]]]]; discriminate.
  - exists (txt "PHONE"). split; [|reflexivity]. intros [H|[H|[H|[H|[H|[]]]]]]; discriminate.
  - exists (txt "AADHAAR"). split; [|reflexivity].
    intros [H|[H|[H|[H|[H|[H|[H|[]]]]]]]]; discriminate.
Qed.

Lemma has_email_after_name (n o : text) :
  ~ In at_sign n -> has_email (n ++ bracket_close :: o) -> has_email o.
Proof.
  induction n as [|x n IH]; intros Hat H; cbn [app] in H; apply has_email_cons in H.
  - destruct H as [Hp | H]; [|exact H].
    apply email_prefix_local, local_prefix_head in Hp. vm_compute in Hp. discriminate.
  - destruct H as [Hp | H].
    + apply email_prefix_local in Hp.
      now apply (no_local_prefix_before_bracket (x :: n) o) in Hp.
    + apply IH; [|exact H]. intro Hin. apply Hat. now right.
Qed.

(** No email-shaped string starts inside a placeholder. *)
Lemma has_email_after_placeholder (repl o : text) :
  bracketed repl -> has_email (repl ++ o) -> has_email o.
Proof.
  intros (n & Hat & ->) H. cbn [app] in H. rewrite <- app_assoc in H. cbn [app] in H.
  apply has_email_cons in H as [Hp | H].
  - apply email_prefix_local, local_prefix_head in Hp. vm_compute in Hp. discriminate.
  - now apply has_email_after_name in H.
Qed.

Lemma email_word_no_bracket (w : text) : email_word w -> ~ In bracket_open w.
Proof.
  intros [local domain tld _ Hl _ Hd _ Ht] Hin.
  rewrite forallb_forall in Hl, Hd, Ht.
  apply in_app_or in Hin as [Hin | [Heq | Hin]].
  - apply Hl in Hin. vm_compute in Hin. discriminate.
  - discriminate.
  - apply in_app_or in Hin as [Hin | [Heq | Hin]].
    + apply Hd in Hin. vm_compute in Hin. discriminate.
    + discriminate.
    + apply Ht in Hin. vm_compute in Hin. discriminate.
Qed.

(** A string without opening bracket that starts the output of [sub]
    starts its input too. *)
Lemma masked_prefix (p : Re.pattern) (repl : text) (b : bool) (s o : text) :
  bracketed repl ->
  Masked p repl b s o -> b = false ->
  forall u rest, ~ In bracket_open u -> o = u ++ rest -> exists rest', s = u ++ rest'.
Proof.
  intros (n & _ & ->) M.
  induction M as [b | c s o Hfail M IH | b s o M _ | c s o M _ | s o M _];
    intros Hb u rest Hu Heq; try discriminate.
  - destruct u; [now exists [] | discriminate].
  - destruct u as [|x u]; [now exists (c :: s)|].
    cbn [app] in Heq. injection Heq as <- Heq.
    destruct (IH eq_refl u rest) as (rest' & ->); [|exact Heq|].
    + intro Hin. apply Hu. now right.
    + now exists rest'.
  - destruct u as [|x u]; [now exists s|].
    cbn [app] in Heq. injection Heq as <- _. exfalso. apply Hu. now left.
Qed.

Lemma masked_email_prefix (p : Re.pattern) (repl : text) (s o : text) :
  bracketed repl -> Masked p repl false s o -> email_prefix o -> email_prefix s.
Proof.
  intros Hrepl M (w & rest & -> & Hw).
  destruct (masked_prefix p repl false s (w ++ rest) Hrepl M eq_refl w rest) as (rest' & ->).
  - now apply email_word_no_bracket.
  - reflexivity.
  - now exists w, rest'.
Qed.

(** Masking another pattern brings no email-shaped string in. *)
Lemma masked_keeps_free (p : Re.pattern) (repl : text) (b : bool) (s o : text) :
  bracketed repl -> Masked p repl b s o -> ~ has_email s -> ~ has_email o.
Proof.
  intros Hrepl M.
  induction M as [b | c s o Hfail M IH | b s o M IH | c s o M IH | s o M IH]; intros Hs Ho.
  - now apply has_email_nil in Ho.
  - apply has_email_cons in Ho as [Hp | Ho].
    + apply Hs. apply has_email_cons. left.
      apply (masked_email_prefix p repl (c :: s) (c :: o) Hrepl); [|exact Hp].
      now apply masked_keep.
    + apply IH; [|exact Ho]. intro H. apply Hs. apply has_email_cons. now right.
  - apply has_email_after_placeholder in Ho; [|exact Hrepl]. now apply IH.
  - apply IH; [|exact Ho]. intro H. apply Hs. apply has_email_cons. now right.
  - now apply IH.
Qed.

(** Masking the email pattern leaves no email-shaped string. *)
Lemma masked_email_free (repl : text) (b : bool) (s o : text) :
  bracketed repl -> Masked (pat email_re) repl b s o -> ~ has_email o.
Proof.
  intros Hrepl M.
  induction M as [b | c s o Hfail M IH | b s o M IH | c s o M IH | s o M IH]; intro Ho.
  - now apply has_email_nil in Ho.
  - apply has_email_cons in Ho as [Hp | Ho]; [|now apply IH].
    destruct Hfail as (ma & prev & Hfail).
    apply (match_at_email_complete ma prev (c :: s)); [|exact Hfail].
    apply (masked_email_prefix (pat email_re) repl (c :: s) (c :: o) Hrepl); [|exact Hp].
    apply masked_keep; [now exists ma, prev | exact M].
  - apply has_email_after_placeholder in Ho; [|exact Hrepl]. now apply IH.
  - now apply IH.
  - now apply IH.
Qed.

(** ** [mask_pii] *)

Lemma mask_step_keeps_free (acc : pii_result) (e : string * Re.pattern) :
  bracketed (placeholder (fst e)) ->
  ~ has_email (masked_text acc) -> ~ has_email (masked_text (mask_step acc e)).
Proof.
  destruct e as [name patt]. cbn [fst]. intros Hrepl Hfree. unfold mask_step.
  destruct (Re.search patt (masked_text acc)); [|exact Hfree].
  cbn [masked_text].
  exact (masked_keeps_free patt _ false _ _ Hrepl (sub_masked patt _ _) Hfree).
Qed.

Lemma mask_step_keeps_pii (acc : pii_result) (e : string * Re.pattern) (x : string) :
  In x (pii acc) -> In x (pii (mask_step acc e)).
Proof.
  destruct e as [name patt]. intro Hin. unfold mask_step.
  destruct (Re.search patt (masked_text acc)); [|exact Hin].
  cbn [pii]. apply in_or_app. now left.
Qed.

(** C6. For every text that contains a match of the email pattern, the
    masked text that [mask_pii] returns contains no match of the email
    pattern, and ["email"] is in the list of PII categories it returns. *)
Theorem email_is_masked (t : text) :
  Re.search (pat email_re) t = true ->
  Re.search (pat email_re) (masked_text (mask_pii t)) = false
  /\ In "email"%string (pii (mask_pii t)).
Proof.
  intro Hfound.
  pose proof placeholder_bracketed as Hph. unfold PII_PATTERNS in Hph.
  inversion Hph as [|e1 l1 He Hph1]; subst. inversion Hph1 as [|e2 l2 Hp Hph2]; subst.
  inversion Hph2 as [|e3 l3 Ha _]; subst. cbn [fst] in He.
  unfold mask_pii, PII_PATTERNS. cbn [fold_left].
  set (first := mask_step {| masked_text := t; pii := [] |} ("email"%string, pat email_re)).
  assert (Hfirst : ~ has_email (masked_text first) /\ In "email"%string (pii first)).
  { unfold first, mask_step. cbn [masked_text pii]. rewrite Hfound. cbn [masked_text pii app].
    split; [|now left].
    exact (masked_email_free _ false _ _ He (sub_masked (pat email_re) _ t)). }
  destruct Hfirst as [Hfree Hpii]. split.
  - apply not_true_is_false. intro Hs.
    apply search_email in Hs. revert Hs.
    apply mask_step_keeps_free; [exact Ha|].
    apply mask_step_keeps_free; [exact Hp|]. exact Hfree.
  - now do 2 apply mask_step_keeps_pii.
Qed.

End MaskingFacts.

Module MaskingSamples.
Import Utils.

(** An address, a telephone number and a 12-digit number in one text. *)
Lemma email_is_masked_witness :
  Re.search (pat email_re)
    (masked_text (mask_pii (txt "mail bob.smith+x@example.co.uk or call 9876543210, id 123456789012.")))
  = false
  /\ In "email"%string
       (pii (mask_pii (txt "mail bob.smith+x@example.co.uk or call 9876543210, id 123456789012."))).
Proof.
  apply MaskingFacts.email_is_masked. vm_compute. reflexivity.
Defined.

Example mask_pii_sample :
  mask_pii (txt "mail bob.smith+x@example.co.uk or call 9876543210, id 123456789012.")
  = {| masked_text := txt "mail [EMAIL] or call [PHONE], id [AADHAAR].";
       pii := ["email"; "phone"; "aadhaar"]%string |}.
Proof. vm_compute. reflexivity. Qed.

End MaskingSamples.

(* ================================================================== *)
(** * More about PII masking *)
(* ================================================================== *)

Module MaskingMore.
Import Chars Utils Masking ReFacts MaskingFacts.

(** Where [search] finds nothing, [sub] changes nothing. *)
Lemma sub_from_no_match (p : Re.pattern) (repl : text) (s : text) :
  forall prev, Re.search_from p prev s = false -> Re.sub_from p repl 0 prev s = s.
Proof.
  induction s as [|c s IH]; intros prev H; cbn [Re.search_from] in H; cbn [Re.sub_from].
  - destruct (Re.match_at p false prev []); [discriminate | reflexivity].
  - destruct (Re.match_at p false prev (c :: s)); [discriminate|].
    now rewrite (IH (Some c) H).
Qed.

Lemma sub_no_match (p : Re.pattern) (repl : text) (s : text) :
  Re.search p s = false -> Re.sub p repl s = s.
Proof. apply sub_from_no_match. Qed.

Lemma mask_step_text (acc : pii_result) (name : string) (patt : Re.pattern) :
  masked_text (mask_step acc (name, patt))
  = Re.sub patt (placeholder name) (masked_text acc).
Proof.
  unfold mask_step. destruct (Re.search patt (masked_text acc)) eqn:Hs; [reflexivity|].
  now rewrite sub_no_match.
Qed.

Lemma mask_step_pii (acc : pii_result) (name : string) (patt : Re.pattern) :
  pii (mask_step acc (name, patt))
  = pii acc ++ (if Re.search patt (masked_text acc) then [name] else []).
Proof.
  unfold mask_step. destruct (Re.search patt (masked_text acc)); cbn [pii]; [reflexivity|].
  now rewrite app_nil_r.
Qed.

Lemma mask_pii_text (t : text) :
  masked_text (mask_pii t)
  = Re.sub (pat (digits_re 12)) (txt "[AADHAAR]")
      (Re.sub (pat (digits_re 10)) (txt "[PHONE]")
         (Re.sub (pat email_re) (txt "[EMAIL]") t)).
Proof.
  unfold mask_pii, PII_PATTERNS. cbn [fold_left].
  now rewrite !mask_step_text.
Qed.

Lemma mask_pii_categories (t : text) :
  pii (mask_pii t)
  = (if Re.search (pat email_re) t then ["email"%string] else [])
    ++ (if Re.search (pat (digits_re 10)) (Re.sub (pat email_re) (txt "[EMAIL]") t)
        then ["phone"%string] else [])
    ++ (if Re.search (pat (digits_re 12))
             (Re.sub (pat (digits_re 10)) (txt "[PHONE]")
                (Re.sub (pat email_re) (txt "[EMAIL]") t))
        then ["aadhaar"%string] else []).
Proof.
  unfold mask_pii, PII_PATTERNS. cbn [fold_left].
  rewrite !mask_step_pii, !mask_step_text. cbn [masked_text pii app].
  now rewrite <- app_assoc.
Qed.

(** No match of the email pattern is left in the masked text. *)
Lemma masked_text_email_free (t : text) :
  Re.search (pat email_re) (masked_text (mask_pii t)) = false.
Proof.
  pose proof placeholder_bracketed as Hph. unfold PII_PATTERNS in Hph.
  inversion Hph as [|e1 l1 He Hph1]; subst. inversion Hph1 as [|e2 l2 Hp Hph2]; subst.
  inversion Hph2 as [|e3 l3 Ha _]; subst. cbn [fst] in He, Hp, Ha.
  apply not_true_is_false. intro Hs. apply search_email in Hs. revert Hs.
  rewrite mask_pii_text.
  apply (masked_keeps_free _ _ false _ _ Ha (sub_masked _ _ _)).
  apply (masked_keeps_free _ _ false _ _ Hp (sub_masked _ _ _)).
  exact (masked_email_free _ false _ _ He (sub_masked (pat email_re) _ t)).
Qed.

(** X1. [mask_pii] is the three substitutions one after the other, email first;
    the test before each substitution changes nothing in the text, and
    decides alone whether the category is listed.  The categories come in
    the order email, phone, aadhaar, each at most once. *)
Theorem mask_pii_composes (t : text) :
  let t1 := Re.sub (pat email_re) (txt "[EMAIL]") t in
  let t2 := Re.sub (pat (digits_re 10)) (txt "[PHONE]") t1 in
  let t3 := Re.sub (pat (digits_re 12)) (txt "[AADHAAR]") t2 in
  masked_text (mask_pii t) = t3
  /\ pii (mask_pii t)
     = (if Re.search (pat email_re) t then ["email"%string] else [])
       ++ (if Re.search (pat (digits_re 10)) t1 then ["phone"%string] else [])
       ++ (if Re.search (pat (digits_re 12)) t2 then ["aadhaar"%string] else []).
Proof. intros t1 t2 t3. split; [apply mask_pii_text | apply mask_pii_categories]. Qed.

(** ** Texts without PII *)

Lemma search_from_found (p : Re.pattern) (s : text) :
  forall prev, Re.search_from p prev s = true ->
  exists pre prev' s', s = pre ++ s' /\ Re.match_at p false prev' s' <> None.
Proof.
  induction s as [|c s IH]; intros prev H; cbn [Re.search_from] in H.
  - destruct (Re.match_at p false prev []) eqn:Hm; [|discriminate].
    exists [], prev, []. split; [reflexivity | congruence].
  - destruct (Re.match_at p false prev (c :: s)) eqn:Hm.
    + exists [], prev, (c :: s). split; [reflexivity | congruence].
    + apply IH in H as (pre & prev' & s' & -> & Hs').
      now exists (c :: pre), prev', s'.
Qed.

Lemma email_word_has_at (w : text) : email_word w -> In at_sign w.
Proof.
  intros [local domain tld _ _ _ _ _ _]. apply in_or_app. right. now left.
Qed.

Lemma has_email_has_at (s : text) : has_email s -> In at_sign s.
Proof.
  intros (pre & rest & -> & w & post & -> & Hw).
  apply in_or_app. right. apply in_or_app. left. now apply email_word_has_at.
Qed.

Lemma rep_exact_digit_head (n : nat) (p : option ascii) (s : text)
    (p' : option ascii) (s' : text) :
  Re.Matches false (Re.rep_exact (S n) digit_re) p s p' s' ->
  exists c rest, s = c :: rest /\ is_digit c = true.
Proof.
  cbn [Re.rep_exact]. intro M.
  assert (Hhead : forall q u q' u', Re.Matches false digit_re q u q' u' ->
                    exists c rest, u = c :: rest /\ is_digit c = true).
  { intros q u q' u' Md. unfold digit_re in Md.
    inversion Md as [ | | | ? ? c ? ? Hc | | | | | | | | | | ]; subst.
    exists c, u'. split; [reflexivity|].
    cbn in Hc. now rewrite orb_false_r in Hc. }
  unfold Re.seq in M. unfold digit_re at 1 in M.
  destruct (Re.rep_exact n digit_re) eqn:Hr;
    try (inversion M as [ | | | | ? ? ? ? p1 s1 ? ? M1 M2 | | | | | | | | | ]; subst;
         exact (Hhead _ _ _ _ M1)).
  exact (Hhead _ _ _ _ M).
Qed.

Lemma digits_match_head (n : nat) (ma : bool) (prev : option ascii) (s : text) :
  Re.match_at (pat (digits_re (S n))) ma prev s <> None ->
  exists c rest, s = c :: rest /\ is_digit c = true.
Proof.
  unfold Re.match_at. cbn [pat Re.pat_re Re.pat_ignorecase]. intro H.
  destruct (Re.run _ _ _ _ _) as [a|] eqn:Hrun; [|congruence].
  apply run_sound in Hrun as (p' & s' & M & _). unfold digits_re in M.
  inversion M as [ | | | | ? ? ? ? p1 s1 ? ? M1 M2 | | | | | | | | | ]; subst.
  inversion M1; subst.
  inversion M2 as [ | | | | ? ? ? ? p2 s2 ? ? M3 M4 | | | | | | | | | ]; subst.
  exact (rep_exact_digit_head n _ _ _ _ M3).
Qed.

Lemma digits_search_has_digit (n : nat) (s : text) :
  Re.search (pat (digits_re (S n))) s = true -> existsb is_digit s = true.
Proof.
  intro H. apply search_from_found in H as (pre & prev' & s' & -> & Hm).
  apply digits_match_head in Hm as (c & rest & -> & Hc).
  apply existsb_exists. exists c. split; [|exact Hc].
  apply in_or_app. right. now left.
Qed.

(** X3. A text with no at sign and no digit comes back as it is, with no
    category. *)
Theorem plain_text_untouched (t : text) :
  forallb (fun c => negb (Ascii.eqb c at_sign) && negb (is_digit c)) t = true ->
  mask_pii t = {| masked_text := t; pii := [] |}.
Proof.
  intro Hplain. rewrite forallb_forall in Hplain.
  assert (Hemail : Re.search (pat email_re) t = false).
  { apply not_true_is_false. intro Hs. apply search_email, has_email_has_at in Hs.
    apply Hplain in Hs. now rewrite Ascii.eqb_refl in Hs. }
  assert (Hdigits : forall n, Re.search (pat (digits_re (S n))) t = false).
  { intro n. apply not_true_is_false. intro Hs.
    apply digits_search_has_digit, existsb_exists in Hs as (c & Hin & Hc).
    apply Hplain in Hin. rewrite Hc in Hin. now rewrite andb_false_r in Hin. }
  unfold mask_pii, PII_PATTERNS. cbn [fold_left]. unfold mask_step at 3.
  cbn [masked_text]. rewrite Hemail. unfold mask_step at 2. cbn [masked_text].
  rewrite (Hdigits 9). unfold mask_step. cbn [masked_text]. now rewrite (Hdigits 11).
Qed.

End MaskingMore.

Module MaskingMoreSamples.
Import Utils.

Lemma plain_text_untouched_witness :
  mask_pii Sample.flu_text = {| masked_text := Sample.flu_text; pii := [] |}.
Proof. apply MaskingMore.plain_text_untouched. vm_compute. reflexivity. Defined.

End MaskingMoreSamples.

(* ================================================================== *)
(** * More about the rule engine and the classifier *)
(* ================================================================== *)

Module FloatTotal.
Import ZArith.
Import FloatOrder.

Lemma SF_not_nan (x : float) : PrimFloat.is_nan x = false -> Prim2SF x <> S754_nan.
Proof.
  unfold PrimFloat.is_nan. rewrite eqb_spec. intros H Hn. rewrite Hn in H. discriminate.
Qed.

Lemma SF_total (x y : spec_float) :
  x <> S754_nan -> y <> S754_nan -> SFleb x y = false -> SFltb y x = true.
Proof.
  unfold SFltb, SFleb.
  destruct x as [sx|sx| |sx mx ex], y as [sy|sy| |sy my ey]; cbn;
    try destruct sx; try destruct sy; cbn; try congruence;
    split_compare; cbn; try congruence; intros; exfalso; lia.
Qed.

Lemma SF_le_refl (x : spec_float) : x <> S754_nan -> SFleb x x = true.
Proof.
  unfold SFleb. destruct x as [sx|sx| |sx mx ex]; cbn; try destruct sx; cbn; try congruence;
    rewrite Z.compare_refl; change (Pos.compare_cont Eq mx mx) with (Pos.compare mx mx);
    now rewrite Pos.compare_refl.
Qed.

Lemma SF_lt_le (x y : spec_float) : SFltb x y = true -> SFleb x y = true.
Proof. unfold SFltb, SFleb. destruct (SFcompare x y) as [[]|]; congruence. Qed.

(** Two floats that are not NaN compare one way or the other. *)
Lemma not_le_lt (x y : float) :
  PrimFloat.is_nan x = false -> PrimFloat.is_nan y = false ->
  PrimFloat.leb x y = false -> PrimFloat.ltb y x = true.
Proof.
  intros Hx Hy. rewrite leb_spec, ltb_spec. apply SF_total; now apply SF_not_nan.
Qed.

Lemma le_refl (x : float) : PrimFloat.is_nan x = false -> PrimFloat.leb x x = true.
Proof. intro Hx. rewrite leb_spec. now apply SF_le_refl, SF_not_nan. Qed.

Lemma lt_le (x y : float) : PrimFloat.ltb x y = true -> PrimFloat.leb x y = true.
Proof. rewrite ltb_spec, leb_spec. apply SF_lt_le. Qed.

Lemma SF_is_nan (x : float) : PrimFloat.is_nan x = true -> Prim2SF x = S754_nan.
Proof.
  unfold PrimFloat.is_nan. rewrite eqb_spec. unfold SFeqb.
  destruct (Prim2SF x) as [sx|sx| |sx mx ex]; cbn; try destruct sx; cbn; try congruence;
    rewrite Z.compare_refl; change (Pos.compare_cont Eq mx mx) with (Pos.compare mx mx);
    rewrite Pos.compare_refl; discriminate.
Qed.

(** [x >= y] fails exactly when [x] is below [y] or is NaN. *)
Lemma not_ge_iff (x y : float) :
  PrimFloat.is_nan y = false ->
  PrimFloat.leb y x = false <-> PrimFloat.ltb x y = true \/ PrimFloat.is_nan x = true.
Proof.
  intro Hy. split.
  - intro H. destruct (PrimFloat.is_nan x) eqn:Hx; [now right | left].
    now apply not_le_lt.
  - intros [H | H]; [now apply lt_not_ge|].
    rewrite leb_spec, (SF_is_nan x H). unfold SFleb.
    now destruct (Prim2SF y) as [sy|sy| |sy my ey].
Qed.

End FloatTotal.

Module RulesMore.
Import Utils Policy RuleFacts AggregatorFacts.

Section WithEngine.
Context {E : RegexEngine}.

Lemma match_rules_from_app (R1 R2 : list rule) (t : text) :
  forall acc,
    match_rules_from (R1 ++ R2) t acc
    = bind (match_rules_from R1 t acc) (fun a => match_rules_from R2 t a).
Proof.
  induction R1 as [|r R1 IH]; intro acc; cbn [app match_rules_from bind]; [reflexivity|].
  destruct (re_compile true (rule_pattern r)) as [patt|]; [apply IH | reflexivity].
Qed.

Lemma match_rules_from_acc (R : list rule) (t : text) :
  forall acc,
    match_rules_from R t acc
    = bind (match_rules_from R t []) (fun b => Ok (acc ++ b)).
Proof.
  induction R as [|r R IH]; intro acc; cbn [match_rules_from bind].
  - now rewrite app_nil_r.
  - destruct (re_compile true (rule_pattern r)) as [patt|]; [|reflexivity].
    destruct (re_search patt t); [|apply IH].
    rewrite (IH (acc ++ [r])), (IH ([] ++ [r])).
    destruct (match_rules_from R t []) as [b|e]; cbn [bind app]; [|reflexivity].
    now rewrite <- app_assoc.
Qed.

(** X4. Matching against two rule lists put end to end is matching against the
    first, then against the second, and joining the results; the first
    pattern error met, in that order, is the one raised. *)
Theorem match_rules_app (R1 R2 : list rule) (t : text) :
  match_rules (R1 ++ R2) t
  = (a <- match_rules R1 t ;; b <- match_rules R2 t ;; Ok (a ++ b)).
Proof.
  unfold match_rules. rewrite match_rules_from_app.
  destruct (match_rules_from R1 t []) as [a|e]; cbn [bind]; [|reflexivity].
  apply match_rules_from_acc.
Qed.

Lemma filter_valid (f : rule -> bool) (R : list rule) :
  Forall valid_rule R -> Forall valid_rule (filter f R).
Proof.
  intro H. rewrite Forall_forall in *. intros r Hr. apply filter_In in Hr as [Hr _]. auto.
Qed.

Lemma high_block_among_matches (t : text) (R : list rule) :
  existsb is_high_block (filter (rule_matches t) (filter is_high_block R))
  = existsb is_high_block (filter (rule_matches t) R).
Proof.
  induction R as [|r R IH]; cbn [filter]; [reflexivity|].
  destruct (is_high_block r) eqn:Hhb; cbn [filter].
  - destruct (rule_matches t r); cbn [existsb]; [now rewrite Hhb, IH | exact IH].
  - destruct (rule_matches t r); cbn [existsb]; [now rewrite Hhb, IH | exact IH].
Qed.

(** X5. Only the rules with severity HIGH and action BLOCK weigh on the
    decision: with all the other rules taken out of the configuration, the
    decision, the hits and the classifier's result are the same.  A rule
    whose action is WARN never makes the decision WARN. *)
Theorem only_high_block_rules_decide (R : list rule) (k : classifier)
    (blk wrn : list (string * float)) (t : text) (c : clf_result) :
  Forall valid_rule R ->
  classify_text k t = Ok c ->
  exists v v',
    decision_aggregator
      {| RULES := R; clf := k; class_thresholds := blk; warn_thresholds := wrn |} t = Ok v
    /\ decision_aggregator
         {| RULES := filter is_high_block R; clf := k;
            class_thresholds := blk; warn_thresholds := wrn |} t = Ok v'
    /\ matched_rules v = filter (rule_matches t) R
    /\ v_decision v' = v_decision v
    /\ block_hits v' = block_hits v
    /\ warn_hits v' = warn_hits v
    /\ classifier_res v' = classifier_res v.
Proof.
  intros Hv Hc.
  set (cfg := {| RULES := R; clf := k; class_thresholds := blk; warn_thresholds := wrn |}).
  set (cfg' := {| RULES := filter is_high_block R; clf := k;
                  class_thresholds := blk; warn_thresholds := wrn |}).
  pose proof (match_rules_valid R t Hv) as Hm.
  pose proof (match_rules_valid _ t (filter_valid is_high_block R Hv)) as Hm'.
  pose proof (high_block_among_matches t R) as Hsame.
  destruct (existsb is_high_block (filter (rule_matches t) R)) eqn:Hhb.
  - rewrite (aggregator_tier1 cfg t _ c Hm Hhb Hc),
      (aggregator_tier1 cfg' t _ c Hm' Hsame Hc).
    do 2 eexists. repeat split.
  - rewrite (aggregator_tiers23 cfg t _ c Hm Hhb Hc),
      (aggregator_tiers23 cfg' t _ c Hm' Hsame Hc).
    do 2 eexists. split; [reflexivity|]. split; [reflexivity|].
    unfold tiers23. cbn [class_thresholds warn_thresholds cfg cfg'].
    destruct (filter (reaches_block c) blk);
      [destruct (filter (is_warn_hit wrn c) blk)|]; cbn; repeat split.
Qed.

End WithEngine.

End RulesMore.

Module RulesMoreSamples.
Import Utils Policy Sample.

(** The antibiotics rule (MEDIUM/WARN) matches, the classifier is calm:
    the decision is ALLOW with the rule and without it. *)
Lemma only_high_block_rules_decide_witness :
  exists v v',
    decision_aggregator (cfg rules calm) antibiotics_text = Ok v
    /\ decision_aggregator (cfg [overdose_rule] calm) antibiotics_text = Ok v'
    /\ matched_rules v = [antibiotic_rule]
    /\ v_decision v = ALLOW
    /\ v_decision v' = ALLOW.
Proof.
  destruct (@RulesMore.only_high_block_rules_decide fragment_engine rules
              (constant_clf calm) CLASS_THRESHOLDS WARN_THRESHOLDS antibiotics_text
              (result_of calm "general_info" 0.4))
    as (v & v' & Hv & Hv' & Hm & Hd & _).
  - repeat constructor; vm_compute; discriminate.
  - vm_compute. reflexivity.
  - exists v, v'. split; [exact Hv|]. split; [exact Hv'|]. split; [exact Hm|].
    assert (Hallow : v_decision v = ALLOW).
    { change (decision_aggregator (cfg rules calm) antibiotics_text = Ok v) in Hv.
      vm_compute in Hv. injection Hv as <-. reflexivity. }
    split; [exact Hallow | now rewrite Hd].
Defined.

End RulesMoreSamples.

Module ClassifierMore.
Import Utils FloatOrder FloatTotal Vocabulary.

Lemma argmax_from_spec (l : list float) :
  forall pre best bi,
    forallb not_nan (pre ++ l) = true ->
    nth_error pre bi = Some best ->
    (forall j y, nth_error pre j = Some y ->
       PrimFloat.leb y best = true /\ (j < bi -> PrimFloat.ltb y best = true)) ->
    exists s,
      nth_error (pre ++ l) (argmax_from best bi (length pre) l) = Some s
      /\ forall j y, nth_error (pre ++ l) j = Some y ->
           PrimFloat.leb y s = true
           /\ (j < argmax_from best bi (length pre) l -> PrimFloat.ltb y s = true).
Proof.
  induction l as [|x l IH]; intros pre best bi Hnan Hbest Hmax.
  - cbn [argmax_from]. rewrite app_nil_r. exists best. split; [exact Hbest | exact Hmax].
  - assert (Hbi : bi < length pre) by (apply nth_error_Some; congruence).
    rewrite forallb_app in Hnan. apply andb_prop in Hnan as [Hpre Hxl].
    cbn [forallb] in Hxl. apply andb_prop in Hxl as [Hx Hl].
    assert (Hnb : PrimFloat.is_nan best = false).
    { rewrite forallb_forall in Hpre. apply nth_error_In in Hbest.
      apply Hpre in Hbest. unfold not_nan in Hbest. now destruct (PrimFloat.is_nan best). }
    assert (Hnx : PrimFloat.is_nan x = false).
    { unfold not_nan in Hx. now destruct (PrimFloat.is_nan x). }
    cbn [argmax_from]. rewrite Hnb.
    replace (pre ++ x :: l) with ((pre ++ [x]) ++ l) by (now rewrite <- app_assoc).
    replace (S (length pre)) with (length (pre ++ [x])) by (rewrite length_app; cbn; lia).
    assert (Hnan' : forallb not_nan ((pre ++ [x]) ++ l) = true).
    { rewrite !forallb_app. cbn [forallb]. now rewrite Hpre, Hx, Hl. }
    destruct (PrimFloat.leb x best) eqn:Hle.
    + apply IH; [exact Hnan' | |].
      * rewrite nth_error_app1; [exact Hbest | exact Hbi].
      * intros j y Hj. destruct (Nat.lt_ge_cases j (length pre)) as [Hlt | Hge].
        -- rewrite nth_error_app1 in Hj by exact Hlt. now apply Hmax.
        -- rewrite nth_error_app2 in Hj by exact Hge.
           destruct (j - length pre) as [|d] eqn:Hd; cbn in Hj.
           ++ injection Hj as <-. split; [exact Hle | lia].
           ++ now destruct d.
    + pose proof (not_le_lt x best Hnx Hnb Hle) as Hlt.
      replace (length pre) with (length pre + 0) at 1 by lia.
      replace (length pre + 0) with (length pre) by lia.
      apply IH; [exact Hnan' | |].
      * rewrite nth_error_app2 by lia. now rewrite Nat.sub_diag.
      * intros j y Hj. destruct (Nat.lt_ge_cases j (length pre)) as [Hj' | Hge].
        -- rewrite nth_error_app1 in Hj by exact Hj'.
           destruct (Hmax j y Hj) as [Hyb _].
           pose proof (le_lt_trans y best x Hyb Hlt) as Hyx.
           split; [now apply lt_le | intros _; exact Hyx].
        -- rewrite nth_error_app2 in Hj by exact Hge.
           destruct (j - length pre) as [|d] eqn:Hd; cbn in Hj.
           ++ injection Hj as <-. split; [now apply le_refl | lia].
           ++ now destruct d.
Qed.

(** X6. When [predict_proba] gives one value for each class, at least one, and
    no NaN, [classify_text] returns: the label and the score sit at the
    same index, no probability exceeds the score, and every earlier one is
    strictly less (of equal maxima the first class wins). *)
Theorem classify_text_first_maximum (k : classifier) (t : text) :
  predict_proba k t <> [] ->
  length (classes_ k) = length (predict_proba k t) ->
  forallb Vocabulary.not_nan (predict_proba k t) = true ->
  exists i r,
    classify_text k t = Ok r
    /\ nth_error (classes_ k) i = Some (label r)
    /\ nth_error (predict_proba k t) i = Some (score r)
    /\ forall j y, nth_error (predict_proba k t) j = Some y ->
         PrimFloat.leb y (score r) = true /\ (j < i -> PrimFloat.ltb y (score r) = true).
Proof.
  intros Hne Hlen Hnan. unfold classify_text.
  destruct (predict_proba k t) as [|x l] eqn:Hp; [congruence|].
  cbn [argmax bind].
  destruct (argmax_from_spec l [x] x 0) as (s & Hs & Hmax).
  - exact Hnan.
  - reflexivity.
  - intros [|j] y Hj; cbn in Hj.
    + injection Hj as <-. split; [|lia]. apply le_refl.
      cbn [forallb] in Hnan. apply andb_prop in Hnan as [Hx _].
      unfold not_nan in Hx. now destruct (PrimFloat.is_nan x).
    + now destruct j.
  - cbn [length app] in Hs, Hmax. rewrite Hs.
    destruct (nth_error (classes_ k) (argmax_from x 0 1 l)) as [lab|] eqn:Hlab.
    + exists (argmax_from x 0 1 l), {| label := lab; score := s;
                                        proba := dict (combine (classes_ k) (x :: l)) |}.
      cbn [label score]. split; [reflexivity|]. split; [exact Hlab|].
      split; [exact Hs | exact Hmax].
    + exfalso. apply nth_error_None in Hlab.
      assert (argmax_from x 0 1 l < length (x :: l)) by (apply nth_error_Some; congruence).
      lia.
Qed.

(** The failures of [classify_text]: an empty probability vector raises
    [ValueError], and a class list shorter than the index of the maximum
    raises [IndexError]. *)
Lemma classify_text_empty (k : classifier) (t : text) :
  predict_proba k t = [] -> classify_text k t = Raise ValueError.
Proof. intro H. unfold classify_text. now rewrite H. Qed.

Section Dicts.
Variable V : Type.

Lemma dict_set_fresh (k : string) (v : V) (d : list (string * V)) :
  ~ In k (map fst d) -> dict_set k v d = d ++ [(k, v)].
Proof.
  induction d as [|[k' v'] d IH]; intro Hk; cbn; [reflexivity|].
  destruct (String.eqb k k') eqn:He.
  - apply String.eqb_eq in He. exfalso. apply Hk. now left.
  - rewrite IH; [reflexivity|]. intro Hin. apply Hk. now right.
Qed.

Lemma dict_fold_nodup (items : list (string * V)) :
  forall acc,
    NoDup (map fst (acc ++ items)) ->
    fold_left (fun d kv => dict_set (fst kv) (snd kv) d) items acc = acc ++ items.
Proof.
  induction items as [|[k v] items IH]; intros acc Hnd; cbn [fold_left].
  - now rewrite app_nil_r.
  - cbn [fst snd]. rewrite dict_set_fresh.
    + rewrite IH; rewrite <- app_assoc; [reflexivity | exact Hnd].
    + rewrite map_app in Hnd. cbn [map fst] in Hnd.
      apply NoDup_remove_2 in Hnd. intro Hin. apply Hnd. apply in_or_app. now left.
Qed.

(** Built from pairs with distinct keys, a dictionary is the list of the
    pairs. *)
Lemma dict_nodup (items : list (string * V)) :
  NoDup (map fst items) -> dict items = items.
Proof. intro H. unfold dict. now rewrite dict_fold_nodup. Qed.

Lemma dict_get_combine (ks : list string) (vs : list V) :
  NoDup ks ->
  forall j key v,
    nth_error ks j = Some key -> nth_error vs j = Some v ->
    dict_get (combine ks vs) key = Some v.
Proof.
  intros Hnd. revert vs. induction Hnd as [|k0 ks Hk0 Hnd IH]; intros vs j key v Hk Hv.
  - now destruct j.
  - destruct vs as [|v0 vs]; [now destruct j|].
    destruct j as [|j]; cbn in Hk, Hv; cbn [combine dict_get].
    + injection Hk as ->. injection Hv as ->. now rewrite String.eqb_refl.
    + destruct (String.eqb key k0) eqn:He.
      * apply String.eqb_eq in He. subst key. apply nth_error_In in Hk. contradiction.
      * now apply IH with j.
Qed.

Lemma dict_get_absent (d : list (string * V)) (key : string) :
  ~ In key (map fst d) -> dict_get d key = None.
Proof.
  induction d as [|[k v] d IH]; intro Hk; cbn; [reflexivity|].
  destruct (String.eqb key k) eqn:He.
  - apply String.eqb_eq in He. exfalso. apply Hk. now left.
  - apply IH. intro Hin. apply Hk. now right.
Qed.

End Dicts.

(** X7. With distinct class names, the [proba] dictionary of the result maps
    each class to the probability at its index, the label to the score,
    and knows no other key. *)
Theorem proba_lookup (k : classifier) (t : text) (r : clf_result) :
  NoDup (classes_ k) ->
  length (classes_ k) = length (predict_proba k t) ->
  classify_text k t = Ok r ->
  (forall j c y, nth_error (classes_ k) j = Some c ->
                 nth_error (predict_proba k t) j = Some y ->
                 dict_get (proba r) c = Some y)
  /\ dict_get (proba r) (label r) = Some (score r)
  /\ (forall c, ~ In c (classes_ k) -> dict_get (proba r) c = None).
Proof.
  intros Hnd Hlen Hr. unfold classify_text in Hr.
  destruct (argmax (predict_proba k t)) as [i|e]; cbn [bind] in Hr; [|discriminate].
  destruct (nth_error (classes_ k) i) as [lab|] eqn:Hlab; [|discriminate].
  destruct (nth_error (predict_proba k t) i) as [s|] eqn:Hs; [|discriminate].
  injection Hr as <-. cbn [proba label score].
  assert (Hkeys : map fst (combine (classes_ k) (predict_proba k t)) = classes_ k).
  { clear -Hlen. revert Hlen. generalize (predict_proba k t).
    induction (classes_ k) as [|c cs IH]; intros [|y ys] Hlen; cbn in *; try discriminate;
      [reflexivity|]. f_equal. apply IH. lia. }
  rewrite dict_nodup by (now rewrite Hkeys).
  split; [|split].
  - intros j c y Hc Hy. now apply dict_get_combine with j.
  - now apply dict_get_combine with i.
  - intros c Hc. apply dict_get_absent. now rewrite Hkeys.
Qed.

End ClassifierMore.

Module ClassifierMoreSamples.
Import Utils Sample.

(** The vector [0.05; 0.1; 0.4; 0.45]: the fourth class, [self_harm]. *)
Lemma classify_text_first_maximum_witness :
  exists i r,
    classify_text (constant_clf mixed) hello = Ok r
    /\ nth_error (classes_ (constant_clf mixed)) i = Some (label r)
    /\ nth_error mixed i = Some (score r)
    /\ forall j y, nth_error mixed j = Some y ->
         PrimFloat.leb y (score r) = true /\ (j < i -> PrimFloat.ltb y (score r) = true).
Proof.
  apply (ClassifierMore.classify_text_first_maximum (constant_clf mixed) hello).
  - discriminate.
  - reflexivity.
  - vm_compute. reflexivity.
Defined.

Lemma proba_lookup_witness :
  dict_get (proba (result_of mixed "self_harm" 0.45)) "self_harm" = Some 0.45%float.
Proof.
  destruct (ClassifierMore.proba_lookup (constant_clf mixed) hello
              (result_of mixed "self_harm" 0.45)) as (_ & H & _).
  - repeat constructor; cbn; intuition discriminate.
  - reflexivity.
  - vm_compute. reflexivity.
  - exact H.
Defined.

End ClassifierMoreSamples.

(* ================================================================== *)
(** * More about the decision aggregator and the answerer *)
(* ================================================================== *)

Module AggregatorMore.
Import Utils Policy RuleFacts AggregatorFacts.

Section WithEngine.
Context {E : RegexEngine}.

(** X8. Every hit that is returned is justified by the tables: a block-hit
    names a configured class with its block-threshold, reached by the
    class's probability; a warn-hit names a configured class with its
    warn-threshold, reached by the probability while the block-threshold
    is not. *)
Theorem hits_are_justified (cfg : config) (t : text) (ms : list rule) (c : clf_result) :
  match_rules (RULES cfg) t = Ok ms ->
  classify_text (clf cfg) t = Ok c ->
  exists v,
    decision_aggregator cfg t = Ok v
    /\ (forall bh h, block_hits v = Some bh -> In h bh ->
          In (hit_class h, hit_threshold h) (class_thresholds cfg)
          /\ hit_prob h = prob_of c (hit_class h)
          /\ ge (hit_prob h) (hit_threshold h) = true)
    /\ (forall wh h, warn_hits v = Some wh -> In h wh ->
          exists blk_thr,
            In (hit_class h, blk_thr) (class_thresholds cfg)
            /\ hit_threshold h = warn_threshold (warn_thresholds cfg) (hit_class h) blk_thr
            /\ hit_prob h = prob_of c (hit_class h)
            /\ ge (hit_prob h) (hit_threshold h) = true
            /\ ge (hit_prob h) blk_thr = false).
Proof.
  intros Hm Hc.
  assert (Hblock : forall h,
            In h (map (block_hit_of c) (filter (reaches_block c) (class_thresholds cfg))) ->
            In (hit_class h, hit_threshold h) (class_thresholds cfg)
            /\ hit_prob h = prob_of c (hit_class h)
            /\ ge (hit_prob h) (hit_threshold h) = true).
  { intros h Hin. apply in_map_iff in Hin as ([cls thr] & <- & Hin).
    apply filter_In in Hin as [Hin Hr]. cbn. repeat split; [exact Hin | exact Hr]. }
  assert (Hwarn : forall h,
            In h (map (warn_hit_of (warn_thresholds cfg) c)
                    (filter (is_warn_hit (warn_thresholds cfg) c) (class_thresholds cfg))) ->
            exists blk_thr,
              In (hit_class h, blk_thr) (class_thresholds cfg)
              /\ hit_threshold h = warn_threshold (warn_thresholds cfg) (hit_class h) blk_thr
              /\ hit_prob h = prob_of c (hit_class h)
              /\ ge (hit_prob h) (hit_threshold h) = true
              /\ ge (hit_prob h) blk_thr = false).
  { intros h Hin. apply in_map_iff in Hin as ([cls thr] & <- & Hin).
    apply filter_In in Hin as [Hin Hr]. unfold is_warn_hit in Hr.
    apply andb_prop in Hr as [Hnb Hw]. apply negb_true_iff in Hnb.
    exists thr. cbn. repeat split; [exact Hin | exact Hw | exact Hnb]. }
  destruct (existsb is_high_block ms) eqn:Hhb.
  - rewrite (aggregator_tier1 cfg t ms c Hm Hhb Hc). eexists. split; [reflexivity|].
    cbn. split; discriminate.
  - rewrite (aggregator_tiers23 cfg t ms c Hm Hhb Hc). eexists. split; [reflexivity|].
    unfold tiers23.
    destruct (filter (reaches_block c) (class_thresholds cfg)) as [|b bs] eqn:Hb;
      [destruct (filter (is_warn_hit _ c) (class_thresholds cfg)) as [|x xs] eqn:Hw|];
      cbn [block_hits warn_hits].
    + split; discriminate.
    + split; [discriminate|]. intros wh h [= <-] Hin. now apply Hwarn.
    + split; [|discriminate]. intros bh h [= <-] Hin. now apply Hblock.
Qed.

(** X9. What ALLOW means: the decision is ALLOW exactly when no matched rule is
    HIGH/BLOCK, no configured class reaches its block- or warn-threshold,
    and the test [top_score >= 0.5] fails, which it does for a score below
    0.5 and for a score that is NaN, and for no other. *)
Theorem allow_exactly_when (cfg : config) (t : text) (ms : list rule) (c : clf_result) :
  match_rules (RULES cfg) t = Ok ms ->
  classify_text (clf cfg) t = Ok c ->
  exists v,
    decision_aggregator cfg t = Ok v
    /\ (v_decision v = ALLOW <->
        existsb is_high_block ms = false
        /\ (forall e, In e (class_thresholds cfg) ->
              reaches_block c e = false /\ reaches_warn (warn_thresholds cfg) c e = false)
        /\ ge (score c) 0.5 = false)
    /\ (ge (score c) 0.5 = false
        <-> PrimFloat.ltb (score c) 0.5 = true \/ PrimFloat.is_nan (score c) = true).
Proof.
  intros Hm Hc.
  assert (Hnan : ge (score c) 0.5 = false
                 <-> PrimFloat.ltb (score c) 0.5 = true \/ PrimFloat.is_nan (score c) = true)
    by (apply FloatTotal.not_ge_iff; reflexivity).
  cut (exists v, decision_aggregator cfg t = Ok v
                 /\ (v_decision v = ALLOW <->
                     existsb is_high_block ms = false
                     /\ (forall e, In e (class_thresholds cfg) ->
                           reaches_block c e = false
                           /\ reaches_warn (warn_thresholds cfg) c e = false)
                     /\ ge (score c) 0.5 = false)).
  { intros (v & Hv & Hiff). exists v. now repeat split; try apply Hiff; try apply Hnan. }
  clear Hnan. destruct (existsb is_high_block ms) eqn:Hhb.
  - rewrite (aggregator_tier1 cfg t ms c Hm Hhb Hc). eexists. split; [reflexivity|].
    cbn. split; [discriminate | intros [H _]; discriminate].
  - rewrite (aggregator_tiers23 cfg t ms c Hm Hhb Hc). eexists. split; [reflexivity|].
    unfold tiers23.
    destruct (filter (reaches_block c) (class_thresholds cfg)) as [|b bs] eqn:Hb.
    + pose proof (warn_hits_without_block (warn_thresholds cfg) c _ Hb) as Hsame.
      destruct (filter (is_warn_hit _ c) (class_thresholds cfg)) as [|x xs] eqn:Hw;
        cbn [v_decision].
      * assert (Hnone : forall e, In e (class_thresholds cfg) ->
                  reaches_block c e = false
                  /\ reaches_warn (warn_thresholds cfg) c e = false).
        { intros e He. split.
          - now apply (proj1 (filter_nil_iff _ _) Hb).
          - symmetry in Hsame. now apply (proj1 (filter_nil_iff _ _) Hsame). }
        destruct (ge (score c) 0.85) eqn:H85.
        -- split; [discriminate|]. intros (_ & _ & H5). exfalso.
           unfold ge in H85, H5.
           assert (H : PrimFloat.leb 0.5 0.85 = true) by reflexivity.
           pose proof (FloatOrder.le_trans 0.5%float 0.85%float (score c) H H85).
           congruence.
        -- destruct (ge (score c) 0.5) eqn:H5.
           ++ split; [discriminate | intros (_ & _ & H); discriminate].
           ++ split; [now intros _ | reflexivity].
      * split; [discriminate|]. intros (_ & Hnone & _). exfalso.
        assert (Hin : In x (filter (reaches_warn (warn_thresholds cfg) c) (class_thresholds cfg)))
          by (rewrite <- Hsame; now left).
        apply filter_In in Hin as [Hin Hr]. destruct (Hnone x Hin). congruence.
    + cbn [v_decision]. split; [discriminate|]. intros (_ & Hnone & _). exfalso.
      assert (Hin : In b (filter (reaches_block c) (class_thresholds cfg)))
        by (rewrite Hb; now left).
      apply filter_In in Hin as [Hin Hr]. destruct (Hnone b Hin). congruence.
Qed.

End WithEngine.

End AggregatorMore.

Module AggregatorMoreSamples.
Import Utils Policy Sample.

Lemma hits_are_justified_witness :
  exists v,
    decision_aggregator (cfg rules mixed) hello = Ok v
    /\ forall bh h, block_hits v = Some bh -> In h bh ->
         In (hit_class h, hit_threshold h) CLASS_THRESHOLDS
         /\ ge (hit_prob h) (hit_threshold h) = true.
Proof.
  destruct (@AggregatorMore.hits_are_justified fragment_engine (cfg rules mixed) hello []
              (result_of mixed "self_harm" 0.45)) as (v & Hv & Hb & _).
  - vm_compute. reflexivity.
  - vm_compute. reflexivity.
  - exists v. split; [exact Hv|]. intros bh h Hbh Hin.
    destruct (Hb bh h Hbh Hin) as (H1 & _ & H3). split; assumption.
Defined.

Lemma allow_exactly_when_witness :
  exists v, decision_aggregator (cfg rules calm) hello = Ok v /\ v_decision v = ALLOW.
Proof.
  destruct (@AggregatorMore.allow_exactly_when fragment_engine (cfg rules calm) hello []
              (result_of calm "general_info" 0.4)) as (v & Hv & Hiff & _).
  - vm_compute. reflexivity.
  - vm_compute. reflexivity.
  - exists v. split; [exact Hv|]. apply Hiff. split; [reflexivity|]. split.
    + intros e [<-|[<-|[<-|[]]]]; split; vm_compute; reflexivity.
    + vm_compute. reflexivity.
Defined.

End AggregatorMoreSamples.

Module LlmMore.
Import Chars Llm Vocabulary.

Lemma is_prefix_spec (p s : text) :
  is_prefix p s = true <-> exists post, s = p ++ post.
Proof.
  revert s. induction p as [|x p IH]; intro s; cbn [is_prefix].
  - split; [intros _; now exists s | reflexivity].
  - destruct s as [|y s].
    + split; [discriminate | intros (post & H); discriminate].
    + rewrite andb_true_iff, Ascii.eqb_eq, IH. split.
      * intros [-> (post & ->)]. now exists post.
      * intros (post & H). injection H as -> ->. split; [reflexivity | now exists post].
Qed.

(** The substring test behind [k.lower() in text.lower()]. *)
Lemma contains_spec (p s : text) : contains p s = true <-> occurs_in p s.
Proof.
  induction s as [|c s IH]; cbn [contains].
  - rewrite orb_false_r, is_prefix_spec. split.
    + intros (post & H). now exists [], post.
    + intros ([|x pre] & post & H); [now exists post | discriminate].
  - rewrite orb_true_iff, is_prefix_spec, IH. split.
    + intros [(post & H) | (pre & post & H)].
      * now exists [], post.
      * exists (c :: pre), post. cbn. now rewrite H.
    + intros ([|x pre] & post & H).
      * left. now exists post.
      * right. injection H as _ H. now exists pre, post.
Qed.

(** X10. [pass_through_llm] answers from the knowledge base when the question,
    in any letter case, occurs in the text: the flu answer when the flu
    question occurs, else the blood-pressure answer when that question
    occurs, else the general answer. *)
Theorem pass_through_llm_answers (t : text) :
  let flu := txt "what are symptoms of flu?" in
  let pressure := txt "what is a normal blood pressure?" in
  (occurs_in flu (str_lower t) ->
     pass_through_llm t = snd (nth 0 KB (""%string, ""%string)))
  /\ (~ occurs_in flu (str_lower t) -> occurs_in pressure (str_lower t) ->
        pass_through_llm t = snd (nth 1 KB (""%string, ""%string)))
  /\ (~ occurs_in flu (str_lower t) -> ~ occurs_in pressure (str_lower t) ->
        pass_through_llm t = DEFAULT_ANSWER).
Proof.
  intros flu pressure. unfold pass_through_llm, KB. cbn [pass_through_llm_from nth snd].
  change (str_lower (txt "What are symptoms of flu?")) with flu.
  change (str_lower (txt "What is a normal blood pressure?")) with pressure.
  pose proof (contains_spec flu (str_lower t)) as Hf.
  pose proof (contains_spec pressure (str_lower t)) as Hp.
  destruct (contains flu (str_lower t)), (contains pressure (str_lower t));
    repeat split; intros; try reflexivity;
    try (exfalso; intuition congruence).
Qed.

End LlmMore.

(* ================================================================== *)
(** * The audit table *)
(* ================================================================== *)

Module AuditMore.
Import ZArith.
Import Utils AuditDb AuditQueries Vocabulary.

Lemma ids_between_le (l : list row) : forall lo hi, ids_between lo l hi -> lo <= hi.
Proof.
  induction l as [|r l IH]; intros lo hi H; cbn in H; [exact H|].
  destruct H as [Hlo H]. apply IH in H. lia.
Qed.

Lemma ids_between_in (l : list row) :
  forall lo hi, ids_between lo l hi -> forall r, In r l -> lo < row_id r <= hi.
Proof.
  induction l as [|x l IH]; intros lo hi H r Hin; [contradiction|].
  cbn in H. destruct H as [Hlo H]. destruct Hin as [<- | Hin].
  - apply ids_between_le in H. lia.
  - specialize (IH _ _ H r Hin). lia.
Qed.

Lemma ids_between_snoc (l : list row) (r : row) :
  forall lo hi, ids_between lo l hi -> hi < row_id r ->
                ids_between lo (l ++ [r]) (row_id r).
Proof.
  induction l as [|x l IH]; intros lo hi H Hr; cbn in *.
  - split; lia.
  - destruct H as [Hlo H]. split; [exact Hlo | now apply IH with hi].
Qed.

Lemma ids_between_map (f : row -> row) (l : list row) :
  (forall r, row_id (f r) = row_id r) ->
  forall lo hi, ids_between lo l hi -> ids_between lo (map f l) hi.
Proof.
  intro Hf. induction l as [|x l IH]; intros lo hi H; cbn in *; [exact H|].
  rewrite Hf. destruct H as [Hlo H]. split; [exact Hlo | now apply IH].
Qed.

Lemma find_snoc (f : row -> bool) (l : list row) (r : row) :
  find f (l ++ [r])
  = match find f l with Some x => Some x | None => if f r then Some r else None end.
Proof.
  induction l as [|x l IH]; cbn; [reflexivity|]. destruct (f x); [reflexivity | exact IH].
Qed.

Lemma find_absent (f : row -> bool) (l : list row) :
  (forall r, In r l -> f r = false) -> find f l = None.
Proof.
  induction l as [|x l IH]; intro H; cbn; [reflexivity|].
  rewrite (H x (or_introl eq_refl)). apply IH. intros r Hr. apply H. now right.
Qed.

Lemma find_map_review (aid aid' : Z) (d : string) (l : list row) :
  find (fun r => (Z.of_nat (row_id r) =? aid')%Z) (map (review aid d) l)
  = option_map (review aid d) (find (fun r => (Z.of_nat (row_id r) =? aid')%Z) l).
Proof.
  induction l as [|x l IH]; cbn [map find option_map]; [reflexivity|].
  assert (Hid : row_id (review aid d x) = row_id x).
  { unfold review. now destruct (Z.of_nat (row_id x) =? aid)%Z. }
  rewrite Hid. destruct (Z.of_nat (row_id x) =? aid')%Z; [reflexivity | exact IH].
Qed.

Lemma insert_desc_last (r : row) (l : list row) :
  (forall x, In x l -> row_id r < row_id x) -> insert_desc r l = l ++ [r].
Proof.
  induction l as [|x l IH]; intro H; cbn; [reflexivity|].
  replace (row_id x <=? row_id r) with false.
  - rewrite IH; [reflexivity|]. intros y Hy. apply H. now right.
  - symmetry. apply Nat.leb_gt. apply H. now left.
Qed.

Lemma order_by_id_desc_rev (l : list row) :
  forall lo hi, ids_between lo l hi -> order_by_id_desc l = rev l.
Proof.
  induction l as [|r l IH]; intros lo hi H; [reflexivity|].
  cbn in H. destruct H as [Hlo H]. cbn [order_by_id_desc fold_right rev].
  fold (order_by_id_desc l). rewrite (IH _ _ H).
  apply insert_desc_last. intros x Hx. apply in_rev in Hx.
  pose proof (ids_between_in l _ _ H x Hx). lia.
Qed.

Lemma in_insert_desc (r x : row) (l : list row) :
  In x (insert_desc r l) -> x = r \/ In x l.
Proof.
  induction l as [|y l IH]; cbn.
  - intros [<-|[]]. now left.
  - destruct (row_id y <=? row_id r); cbn.
    + intros [<-|H]; [now left | now right].
    + intros [<-|H]; [right; now left|]. apply IH in H as [->|H]; [now left | right; now right].
Qed.

Lemma in_order_by_id_desc (x : row) (l : list row) : In x (order_by_id_desc l) -> In x l.
Proof.
  induction l as [|r l IH]; cbn; [trivial|]. intro H.
  apply in_insert_desc in H as [->|H]; [now left | right; now apply IH].
Qed.

Lemma in_limit_rows (limit : Z) (x : row) (l : list row) : In x (limit_rows limit l) -> In x l.
Proof.
  unfold limit_rows. destruct (limit <? 0)%Z; [trivial|]. intro H.
  rewrite <- (firstn_skipn (Z.to_nat limit) l). apply in_or_app. now left.
Qed.

(** What [fetch_audits] returns is in the table. *)
Lemma fetch_audits_in (limit : Z) (db : database) (rows : list row) :
  fetch_audits limit db = Ok rows -> forall r, In r rows -> In r (db_rows db).
Proof.
  unfold fetch_audits. destruct (db_fault db); [discriminate|].
  destruct (in_int64 limit); [|discriminate]. intros [= <-] r Hr.
  now apply in_limit_rows, in_order_by_id_desc in Hr.
Qed.

Lemma database_eta (db : database) :
  db_fault db = None ->
  {| db_rows := db_rows db; db_seq := db_seq db; db_fault := None |} = db.
Proof. destruct db as [rows sq fault]. cbn. now intros ->. Qed.

Lemma review_keeps_id (aid : Z) (d : string) (r : row) :
  row_id (review aid d r) = row_id r.
Proof. unfold review. now destruct (Z.of_nat (row_id r) =? aid)%Z. Qed.

Lemma review_keeps_audit (aid : Z) (d : string) (r : row) :
  row_audit (review aid d r) = row_audit r.
Proof. unfold review. now destruct (Z.of_nat (row_id r) =? aid)%Z. Qed.

(** An update for an id that no row has changes no row. *)
Lemma review_unknown_id (aid : Z) (d : string) (l : list row) :
  find (fun r => (Z.of_nat (row_id r) =? aid)%Z) l = None ->
  map (review aid d) l = l.
Proof.
  intro Hnone. rewrite <- (map_id l) at 2. apply map_ext_in. intros r Hr.
  unfold review. destruct (Z.of_nat (row_id r) =? aid)%Z eqn:He; [|reflexivity].
  exfalso. eapply find_none in Hnone; [|exact Hr]. cbn in Hnone. congruence.
Qed.

(** The row just inserted is the one its id finds. *)
Lemma find_new_row (a : audit_record) (db : database) :
  db_wf db ->
  find (fun r => (Z.of_nat (row_id r) =? Z.of_nat (S (db_seq db)))%Z)
       (db_rows db ++ [stored (S (db_seq db)) a])
  = Some (stored (S (db_seq db)) a).
Proof.
  intro Hwf. rewrite find_snoc, find_absent; cbn [stored row_id].
  - now rewrite Z.eqb_refl.
  - intros r Hr. apply Z.eqb_neq. pose proof (ids_between_in _ _ _ Hwf r Hr). lia.
Qed.

Lemma insert_keeps_wf (a : audit_record) (db : database) :
  db_wf db ->
  ids_between 0 (db_rows db ++ [stored (S (db_seq db)) a]) (S (db_seq db)).
Proof.
  intro Hwf.
  exact (ids_between_snoc (db_rows db) (stored (S (db_seq db)) a) 0 (db_seq db) Hwf
           (Nat.lt_succ_diag_r _)).
Qed.

(** X11. Insert, then look up: in a table as AUTOINCREMENT keeps it, not yet
    at the last id that SQLite can hold, and with the engine at work,
    [insert_audit] appends one row under a fresh id, [fetch_audit_by_id] on
    that id returns the record just written, with no reviewer decision, and
    every other id is answered as before. *)
Theorem insert_then_fetch (a : audit_record) (db : database) :
  db_wf db ->
  db_fault db = None ->
  in_int64 (Z.of_nat (S (db_seq db))) = true ->
  exists id db',
    insert_audit a db = (Ok id, db')
    /\ db_wf db'
    /\ db_rows db'
       = db_rows db ++ [{| row_id := id; row_audit := a; row_reviewer_decision := None |}]
    /\ fetch_audit_by_id (Z.of_nat id) db'
       = Ok (Some {| row_id := id; row_audit := a; row_reviewer_decision := None |})
    /\ forall aid, aid <> Z.of_nat id ->
         fetch_audit_by_id aid db' = fetch_audit_by_id aid db.
Proof.
  intros Hwf Hfault Hroom. unfold insert_audit. rewrite Hfault.
  eexists _, _. split; [reflexivity|]. unfold db_wf, fetch_audit_by_id.
  cbn [db_rows db_seq db_fault]. rewrite Hfault, Hroom.
  split; [|split; [reflexivity|split]].
  - now apply insert_keeps_wf.
  - f_equal. now apply find_new_row.
  - intros aid Haid. destruct (in_int64 aid); [|reflexivity].
    rewrite find_snoc. cbn [row_id].
    destruct (find _ (db_rows db)); [reflexivity|].
    replace (Z.of_nat (S (db_seq db)) =? aid)%Z with false; [reflexivity|].
    symmetry. apply Z.eqb_neq. congruence.
Qed.

(** X12. For a limit that fits in 64 bits, [fetch_audits] returns the latest
    audits, newest first: all of them for a negative limit, else at most
    [limit] of them.  For any other limit it raises [OverflowError]. *)
Theorem fetch_audits_newest_first (limit : Z) (db : database) :
  db_wf db ->
  db_fault db = None ->
  (in_int64 limit = true ->
   exists rows,
     fetch_audits limit db = Ok rows
     /\ ((limit < 0)%Z -> rows = rev (db_rows db))
     /\ ((0 <= limit)%Z ->
           rows = firstn (Z.to_nat limit) (rev (db_rows db))
           /\ length rows <= Z.to_nat limit))
  /\ (in_int64 limit = false -> fetch_audits limit db = Raise OverflowError).
Proof.
  intros Hwf Hfault. unfold fetch_audits. rewrite Hfault.
  split; intro Hfit; rewrite Hfit; [|reflexivity].
  eexists. split; [reflexivity|].
  rewrite (order_by_id_desc_rev _ _ _ Hwf). unfold limit_rows. split.
  - intro Hneg. apply Z.ltb_lt in Hneg. now rewrite Hneg.
  - intro Hpos. apply Z.ltb_ge in Hpos. rewrite Hpos. split; [reflexivity|].
    apply firstn_le_length.
Qed.

(** X13. The reviewer's update only annotates.  For an id that fits in 64
    bits it returns, also when no row has the id (the table is then
    unchanged), keeps every id and every audit record, decisions included,
    and sets the reviewer's decision of the row with the id and of no
    other.  For any other id it raises [OverflowError] and the table is
    unchanged. *)
Theorem set_reviewer_decision_only_annotates (aid : Z) (d : string) (db : database) :
  db_fault db = None ->
  (in_int64 aid = true ->
   exists db',
     set_reviewer_decision aid d db = (Ok tt, db')
     /\ map row_id (db_rows db') = map row_id (db_rows db)
     /\ map row_audit (db_rows db') = map row_audit (db_rows db)
     /\ (db_wf db -> db_wf db')
     /\ fetch_audit_by_id aid db'
        = Ok (option_map
                (fun r => {| row_id := row_id r; row_audit := row_audit r;
                             row_reviewer_decision := Some d |})
                (find (fun r => (Z.of_nat (row_id r) =? aid)%Z) (db_rows db)))
     /\ (forall aid', aid' <> aid -> fetch_audit_by_id aid' db' = fetch_audit_by_id aid' db)
     /\ (fetch_audit_by_id aid db = Ok None -> db' = db))
  /\ (in_int64 aid = false ->
      set_reviewer_decision aid d db = (Raise OverflowError, db)).
Proof.
  intro Hfault. unfold set_reviewer_decision. rewrite Hfault.
  split; intro Hfit; rewrite Hfit; [|reflexivity].
  eexists. split; [reflexivity|].
  pose proof (review_keeps_id aid d) as Hid.
  pose proof (review_keeps_audit aid d) as Haudit.
  unfold db_wf, fetch_audit_by_id. cbn [db_rows db_seq db_fault]. rewrite Hfault, Hfit.
  split; [|split; [|split; [|split; [|split]]]].
  - rewrite map_map. now apply map_ext.
  - rewrite map_map. now apply map_ext.
  - now apply ids_between_map.
  - rewrite find_map_review. f_equal.
    destruct (find _ (db_rows db)) as [r|] eqn:Hf; [|reflexivity].
    apply find_some in Hf as [_ Hf]. cbn [option_map]. unfold review. now rewrite Hf.
  - intros aid' Hne. destruct (in_int64 aid'); [|reflexivity].
    rewrite find_map_review. f_equal.
    destruct (find _ (db_rows db)) as [r|] eqn:Hf; [|reflexivity].
    apply find_some in Hf as [_ Hf]. apply Z.eqb_eq in Hf. cbn [option_map]. unfold review.
    replace (Z.of_nat (row_id r) =? aid)%Z with false; [reflexivity|].
    symmetry. apply Z.eqb_neq. congruence.
  - intros [= Hnone]. rewrite (review_unknown_id aid d _ Hnone). now apply database_eta.
Qed.

End AuditMore.

Module AuditMoreSamples.
Import ZArith.
Import Utils AuditDb AuditQueries Vocabulary Sample SampleAudits.

(** A third audit in the table of two gets the id 3. *)
Lemma insert_then_fetch_witness :
  exists id db',
    insert_audit (audit flu_text ALLOW []) two_audits = (Ok id, db')
    /\ db_wf db'
    /\ fetch_audit_by_id (Z.of_nat id) db'
       = Ok (Some {| row_id := id; row_audit := audit flu_text ALLOW [];
                     row_reviewer_decision := None |}).
Proof.
  destruct (AuditMore.insert_then_fetch (audit flu_text ALLOW []) two_audits)
    as (id & db' & Hi & Hwf & _ & Hf & _).
  - unfold db_wf. cbn. lia.
  - reflexivity.
  - reflexivity.
  - exists id, db'. repeat split; assumption.
Defined.

(** With the limit 1 only the second audit of the two is returned. *)
Lemma fetch_audits_newest_first_witness :
  exists rows,
    fetch_audits 1 two_audits = Ok rows
    /\ rows = firstn 1 (rev (db_rows two_audits)).
Proof.
  destruct (AuditMore.fetch_audits_newest_first 1 two_audits) as [Hfit _].
  - unfold db_wf. cbn. lia.
  - reflexivity.
  - destruct Hfit as (rows & Hf & _ & Hl); [reflexivity|].
    exists rows. split; [exact Hf|]. apply Hl. lia.
Defined.

(** The reviewer allows the second audit of the two. *)
Lemma set_reviewer_decision_only_annotates_witness :
  exists db',
    set_reviewer_decision 2 "allow" two_audits = (Ok tt, db')
    /\ map row_audit (db_rows db') = map row_audit (db_rows two_audits).
Proof.
  destruct (AuditMore.set_reviewer_decision_only_annotates 2 "allow" two_audits)
    as [Hfit _].
  - reflexivity.
  - destruct Hfit as (db' & Hs & _ & Ha & _); [reflexivity|].
    exists db'. split; assumption.
Defined.

End AuditMoreSamples.

(* ================================================================== *)
(** * Masking leaves no match of any pattern *)
(* ================================================================== *)

Module RunFacts.
Import Chars Utils Masking Runs MaskingMore.

Lemma digit_is_word (c : ascii) : is_digit c = true -> is_word c = true.
Proof. unfold is_word. now intros ->. Qed.

Lemma run_seq (A : Type) (ic : bool) (a b : Re.regex) (prev : option ascii) (s : text)
    (k : Re.cont A) :
  Re.run ic (Re.seq a b) prev s k
  = Re.run ic a prev s (fun p' s' => Re.run ic b p' s' k).
Proof. destruct a, b; reflexivity. Qed.

Lemma run_digits (A : Type) (n : nat) :
  forall prev s (k : Re.cont A),
    Re.run false (Re.rep_exact n digit_re) prev s k
    = match take_digits n prev s with
      | Some (p', s') => k p' s'
      | None => None
      end.
Proof.
  induction n as [|n IH]; intros prev s k; [reflexivity|].
  cbn [Re.rep_exact take_digits]. rewrite run_seq. unfold digit_re at 1.
  cbn [Re.run]. destruct s as [|c s]; [reflexivity|]. cbn [Re.step_char].
  replace (xorb false (Re.set_has false [Re.SCat false Re.CDigit] c)) with (is_digit c)
    by (cbn; now rewrite orb_false_r).
  destruct (is_digit c); [apply IH | reflexivity].
Qed.

Lemma take_digits_spec (n : nat) :
  forall prev s p' s',
    take_digits n prev s = Some (p', s') ->
    exists a, s = a ++ s' /\ length a = n /\ forallb is_digit a = true
              /\ p' = last_opt a prev.
Proof.
  induction n as [|n IH]; intros prev s p' s' H; cbn [take_digits] in H.
  - injection H as <- <-. now exists [].
  - destruct s as [|c s]; [discriminate|]. destruct (is_digit c) eqn:Hc; [|discriminate].
    apply IH in H as (a & -> & Hl & Hd & ->). exists (c :: a).
    cbn. rewrite Hc, Hl, Hd. repeat split.
Qed.

(** The matcher on [\b\d{n}\b]. *)
Lemma match_at_digits (n : nat) (ma : bool) (prev : option ascii) (s : text) :
  0 < n ->
  Re.match_at (pat (digits_re n)) ma prev s = run_at n prev s.
Proof.
  intro Hn. unfold Re.match_at, run_at, digits_re. cbn [pat Re.pat_re Re.pat_ignorecase Re.run].
  destruct (Re.at_boundary prev s); [|reflexivity]. rewrite run_digits.
  destruct (take_digits n prev s) as [[p' s']|] eqn:Ht; [|reflexivity].
  destruct (Re.at_boundary p' s'); [|reflexivity].
  apply take_digits_spec in Ht as (a & -> & Hl & _).
  replace (length s' =? length (a ++ s')) with false; [now rewrite andb_false_r|].
  symmetry. apply Nat.eqb_neq. rewrite length_app. lia.
Qed.

Lemma run_at_no_digit (n : nat) (prev : option ascii) (s : text) :
  0 < n -> digit_free_head s -> run_at n prev s = None.
Proof.
  intros Hn Hs. unfold run_at. destruct n as [|n]; [lia|]. cbn [take_digits].
  destruct s as [|e s]; [now destruct (Re.at_boundary _ _)|].
  cbn in Hs. rewrite Hs. now destruct (Re.at_boundary _ _).
Qed.

Lemma run_at_after_word (n : nat) (prev : option ascii) (s : text) :
  0 < n -> Re.is_word_opt prev = true -> run_at n prev s = None.
Proof.
  intros Hn Hp. destruct s as [|c s]; [now apply run_at_no_digit|].
  destruct (is_digit c) eqn:Hc; [|now apply run_at_no_digit].
  unfold run_at, Re.at_boundary. cbn [hd_error Re.is_word_opt].
  now rewrite Hp, (digit_is_word c Hc).
Qed.

(** A match is [n] digits with nothing of a word behind them. *)
Lemma run_at_spec (n : nat) (prev : option ascii) (s rest : text) :
  0 < n ->
  run_at n prev s = Some rest ->
  exists a, s = a ++ rest /\ length a = n /\ digit_free_head rest.
Proof.
  intros Hn H. unfold run_at in H. destruct (Re.at_boundary prev s); [|discriminate].
  destruct (take_digits n prev s) as [[p' s']|] eqn:Ht; [|discriminate].
  destruct (Re.at_boundary p' s') eqn:Hb; [|discriminate]. injection H as ->.
  apply take_digits_spec in Ht as (a & -> & Hl & Hd & ->). exists a.
  split; [reflexivity|]. split; [exact Hl|].
  destruct rest as [|e rest]; [exact I|]. cbn. destruct (is_digit e) eqn:He; [|reflexivity].
  exfalso. destruct a as [|c a]; [cbn in Hl; lia|].
  assert (Hlast : Re.is_word_opt (last_opt (c :: a) prev) = true).
  { clear - Hd. unfold last_opt. revert c prev Hd.
    induction a as [|x a IH]; intros c prev Hd; cbn in Hd |- *.
    - apply digit_is_word. now destruct (is_digit c).
    - apply (IH x (Some c)). cbn. now destruct (is_digit c). }
  unfold Re.at_boundary in Hb. cbn [hd_error Re.is_word_opt] in Hb.
  rewrite Hlast, (digit_is_word e He) in Hb. discriminate.
Qed.

(** Whether the pattern matches at the head of a run of digits depends on
    the run and on the character behind it alone. *)
Lemma take_digits_same_run (X Z : text) :
  hd_error X = hd_error Z -> digit_free_head X ->
  forall ds n prev,
    forallb is_digit ds = true ->
    match take_digits n prev (ds ++ X) with
    | Some (p', s') => if Re.at_boundary p' s' then Some s' else None
    | None => None
    end = None ->
    match take_digits n prev (ds ++ Z) with
    | Some (p', s') => if Re.at_boundary p' s' then Some s' else None
    | None => None
    end = None.
Proof.
  intros Hhd HX. induction ds as [|d ds IH]; intros n prev Hds H.
  - cbn [app] in *. destruct n as [|n]; cbn [take_digits] in *.
    + unfold Re.at_boundary in *. rewrite <- Hhd. now destruct (xorb _ _).
    + destruct X as [|e X], Z as [|e' Z]; try discriminate; [reflexivity|].
      injection Hhd as <-. cbn in HX. now rewrite HX.
  - cbn [forallb] in Hds. apply andb_prop in Hds as [Hd Hds].
    destruct n as [|n]; cbn [take_digits app] in *.
    + unfold Re.at_boundary in *. cbn [hd_error] in *. now destruct (xorb _ _).
    + rewrite Hd in *. now apply IH.
Qed.

Lemma run_at_same_run (n : nat) (prev : option ascii) (ds X Z : text) :
  hd_error X = hd_error Z -> digit_free_head X ->
  forallb is_digit ds = true ->
  run_at n prev (ds ++ X) = None -> run_at n prev (ds ++ Z) = None.
Proof.
  intros Hhd HX Hds. unfold run_at.
  assert (Hb : Re.at_boundary prev (ds ++ X) = Re.at_boundary prev (ds ++ Z)).
  { unfold Re.at_boundary. destruct ds; cbn [app hd_error]; [now rewrite Hhd | reflexivity]. }
  rewrite <- Hb. destruct (Re.at_boundary prev (ds ++ X)); [|reflexivity].
  now apply take_digits_same_run.
Qed.

(** A text is a run of digits and a rest that starts with none. *)
Lemma span_digits (s : text) :
  exists ds X, s = ds ++ X /\ forallb is_digit ds = true /\ digit_free_head X.
Proof.
  induction s as [|c s (ds & X & -> & Hds & HX)]; [now exists [], []|].
  destruct (is_digit c) eqn:Hc.
  - exists (c :: ds), X. cbn. now rewrite Hc, Hds.
  - exists [], (c :: ds ++ X). now cbn.
Qed.

Section Sub.
Variables (n m : nat) (repl : text).
Hypothesis Hn : 0 < n.
Hypothesis Hm : 0 < m.
Hypothesis Hrepl : no_digit repl = true.

Lemma search_from_step (prev : option ascii) (c : ascii) (s : text) :
  run_at m prev (c :: s) = None ->
  Re.search_from (pat (digits_re m)) prev (c :: s)
  = Re.search_from (pat (digits_re m)) (Some c) s.
Proof. intro H. cbn [Re.search_from]. now rewrite (match_at_digits m false prev _ Hm), H. Qed.

Lemma search_from_nil (prev : option ascii) :
  Re.search_from (pat (digits_re m)) prev [] = false.
Proof.
  cbn [Re.search_from]. now rewrite (match_at_digits m false prev _ Hm), run_at_no_digit.
Qed.

Lemma sub_from_step (prev : option ascii) (c : ascii) (s : text) :
  run_at n prev (c :: s) = None ->
  Re.sub_from (pat (digits_re n)) repl 0 prev (c :: s)
  = c :: Re.sub_from (pat (digits_re n)) repl 0 (Some c) s.
Proof. intro H. cbn [Re.sub_from]. now rewrite (match_at_digits n false prev _ Hn), H. Qed.

Lemma sub_from_nil (prev : option ascii) :
  Re.sub_from (pat (digits_re n)) repl 0 prev [] = [].
Proof.
  cbn [Re.sub_from]. now rewrite (match_at_digits n false prev _ Hn), run_at_no_digit.
Qed.

Lemma sub_from_skip (a rest : text) :
  forall prev,
    Re.sub_from (pat (digits_re n)) repl (length a) prev (a ++ rest)
    = Re.sub_from (pat (digits_re n)) repl 0 (last_opt a prev) rest.
Proof.
  induction a as [|x a IH]; intro prev; [reflexivity|].
  cbn [length app Re.sub_from]. now rewrite IH.
Qed.

(** At a match the replacement is written and the run is dropped. *)
Lemma sub_from_match (prev : option ascii) (a rest : text) :
  length a = n ->
  run_at n prev (a ++ rest) = Some rest ->
  Re.sub_from (pat (digits_re n)) repl 0 prev (a ++ rest)
  = repl ++ Re.sub_from (pat (digits_re n)) repl 0 (last_opt a prev) rest.
Proof.
  intros Hl H. destruct a as [|c a]; [cbn in Hl; lia|].
  cbn [app Re.sub_from]. rewrite (match_at_digits n false prev _ Hn).
  change (c :: a ++ rest) with ((c :: a) ++ rest). rewrite H.
  replace (length ((c :: a) ++ rest) - length rest) with (S (length a))
    by (rewrite length_app; cbn [length]; lia).
  now rewrite sub_from_skip.
Qed.

(** Inside a run of digits nothing matches: [sub] copies and [search]
    passes on. *)
Lemma sub_from_run (ds X : text) :
  forall prev,
    Re.is_word_opt prev = true -> forallb is_digit ds = true ->
    Re.sub_from (pat (digits_re n)) repl 0 prev (ds ++ X)
    = ds ++ Re.sub_from (pat (digits_re n)) repl 0 (last_opt ds prev) X.
Proof.
  induction ds as [|d ds IH]; intros prev Hp Hds; [reflexivity|].
  cbn [forallb] in Hds. apply andb_prop in Hds as [Hd Hds]. cbn [app].
  rewrite sub_from_step by now apply run_at_after_word.
  rewrite (IH (Some d)); [reflexivity | now apply digit_is_word | exact Hds].
Qed.

Lemma search_from_run (ds Z : text) :
  forall prev,
    Re.is_word_opt prev = true -> forallb is_digit ds = true ->
    Re.search_from (pat (digits_re m)) prev (ds ++ Z)
    = Re.search_from (pat (digits_re m)) (last_opt ds prev) Z.
Proof.
  induction ds as [|d ds IH]; intros prev Hp Hds; [reflexivity|].
  cbn [forallb] in Hds. apply andb_prop in Hds as [Hd Hds]. cbn [app].
  rewrite search_from_step by now apply run_at_after_word.
  apply (IH (Some d)); [now apply digit_is_word | exact Hds].
Qed.

Lemma search_from_no_digit (r Z : text) :
  forall prev,
    no_digit r = true ->
    Re.search_from (pat (digits_re m)) prev (r ++ Z)
    = Re.search_from (pat (digits_re m)) (last_opt r prev) Z.
Proof.
  induction r as [|e r IH]; intros prev Hr; [reflexivity|].
  unfold no_digit in Hr. cbn [forallb] in Hr. apply andb_prop in Hr as [He Hr]. cbn [app].
  rewrite search_from_step.
  - now apply (IH (Some e)).
  - apply run_at_no_digit; [exact Hm|]. cbn. now destruct (is_digit e).
Qed.

Lemma search_from_suffix (p : Re.pattern) (a b : text) :
  forall prev,
    Re.search_from p prev (a ++ b) = false ->
    Re.search_from p (last_opt a prev) b = false.
Proof.
  induction a as [|x a IH]; intros prev H; [exact H|].
  cbn [app Re.search_from] in H. destruct (Re.match_at p false prev _); [discriminate|].
  now apply (IH (Some x)).
Qed.

Lemma search_from_head (prev : option ascii) (s : text) :
  Re.search_from (pat (digits_re m)) prev s = false -> run_at m prev s = None.
Proof.
  intro H. rewrite <- (match_at_digits m false prev s Hm).
  destruct s; cbn [Re.search_from] in H; now destruct (Re.match_at _ _ _ _).
Qed.

Lemma sub_from_head (prev : option ascii) (X : text) :
  digit_free_head X ->
  hd_error X = hd_error (Re.sub_from (pat (digits_re n)) repl 0 prev X).
Proof.
  intro HX. destruct X as [|e X]; [now rewrite sub_from_nil|].
  rewrite sub_from_step; [reflexivity | now apply run_at_no_digit].
Qed.

(** Replacing the runs of [n] digits leaves no run of [m] digits, when
    [m] is [n] or the text had no run of [m] digits. *)
Lemma sub_digits_free :
  forall k s, length s <= k ->
  forall prev prev',
    prev' = prev \/ digit_free_head s ->
    m = n \/ Re.search_from (pat (digits_re m)) prev s = false ->
    Re.search_from (pat (digits_re m)) prev'
      (Re.sub_from (pat (digits_re n)) repl 0 prev s) = false.
Proof.
  induction k as [|k IH]; intros s Hk prev prev' Hc Hfree.
  { destruct s; [|cbn in Hk; lia]. rewrite sub_from_nil. apply search_from_nil. }
  destruct s as [|c s]; [rewrite sub_from_nil; apply search_from_nil|].
  cbn [length] in Hk.
  destruct (run_at n prev (c :: s)) as [rest|] eqn:Hrun.
  - (* a run of [n] digits is replaced *)
    destruct (run_at_spec n prev (c :: s) rest Hn Hrun) as (a & Hs & Hl & Hrest).
    rewrite Hs in *. rewrite (sub_from_match prev a rest Hl Hrun).
    rewrite search_from_no_digit by exact Hrepl.
    apply IH.
    + assert (length (a ++ rest) = S (length s)) by now rewrite <- Hs.
      rewrite length_app in *. lia.
    + now right.
    + destruct Hfree as [-> | Hfree]; [now left | right; now apply search_from_suffix].
  - destruct (is_digit c) eqn:Hd.
    + (* a run of digits that is kept *)
      destruct Hc as [-> | Hc]; [|cbn in Hc; congruence].
      destruct (span_digits s) as (ds & X & -> & Hds & HX).
      rewrite sub_from_step by exact Hrun.
      rewrite sub_from_run; [|now apply digit_is_word | exact Hds].
      assert (Hhead : run_at m prev ((c :: ds) ++ X) = None).
      { destruct Hfree as [-> | Hfree]; [exact Hrun | now apply search_from_head]. }
      rewrite search_from_step.
      * rewrite search_from_run; [|now apply digit_is_word | exact Hds].
        apply IH.
        -- rewrite length_app in Hk. lia.
        -- now left.
        -- destruct Hfree as [-> | Hfree]; [now left | right].
           apply (search_from_suffix _ (c :: ds) X prev Hfree).
      * change (c :: ds ++ ?Z) with ((c :: ds) ++ Z).
        apply (run_at_same_run m prev (c :: ds) X); [now apply sub_from_head | exact HX | | exact Hhead].
        cbn. now rewrite Hd.
    + (* another character *)
      rewrite sub_from_step by exact Hrun.
      rewrite search_from_step by (apply run_at_no_digit; [exact Hm | exact Hd]).
      apply IH; [lia | now left |].
      destruct Hfree as [-> | Hfree]; [now left | right].
      apply (search_from_suffix _ [c] s prev Hfree).
Qed.

End Sub.

Lemma sub_digits_clean (n : nat) (repl s : text) :
  0 < n -> no_digit repl = true ->
  Re.search (pat (digits_re n)) (Re.sub (pat (digits_re n)) repl s) = false.
Proof.
  intros Hn Hr. apply (sub_digits_free n n repl Hn Hn Hr (length s) s (le_n _) None None);
    now left.
Qed.

Lemma sub_digits_keeps_clean (n m : nat) (repl s : text) :
  0 < n -> 0 < m -> no_digit repl = true ->
  Re.search (pat (digits_re m)) s = false ->
  Re.search (pat (digits_re m)) (Re.sub (pat (digits_re n)) repl s) = false.
Proof.
  intros Hn Hm Hr Hs.
  apply (sub_digits_free n m repl Hn Hm Hr (length s) s (le_n _) None None);
    [now left | now right].
Qed.

Lemma mask_step_none (acc : pii_result) (name : string) (patt : Re.pattern) :
  Re.search patt (masked_text acc) = false -> mask_step acc (name, patt) = acc.
Proof. intro H. unfold mask_step. now rewrite H. Qed.

(** None of the three patterns matches the masked text. *)
Lemma masked_text_no_match (t : text) :
  Forall (fun e => Re.search (snd e) (masked_text (mask_pii t)) = false) PII_PATTERNS.
Proof.
  unfold PII_PATTERNS. repeat constructor; cbn [snd].
  - apply masked_text_email_free.
  - rewrite mask_pii_text.
    apply sub_digits_keeps_clean; [lia | lia | reflexivity|].
    apply sub_digits_clean; [lia | reflexivity].
  - rewrite mask_pii_text. apply sub_digits_clean; [lia | reflexivity].
Qed.

(** X2. Masking is complete and stable: none of the three patterns matches the
    masked text, whatever the input, and masking the masked text again
    returns it as it is and reports no category. *)
Theorem masked_text_is_clean (t : text) :
  let masked := masked_text (mask_pii t) in
  Forall (fun e => Re.search (snd e) masked = false) PII_PATTERNS
  /\ mask_pii masked = {| masked_text := masked; pii := [] |}.
Proof.
  intro masked. pose proof (masked_text_no_match t) as Hall. fold masked in Hall.
  split; [exact Hall|].
  unfold PII_PATTERNS in Hall.
  inversion Hall as [|e1 l1 He Hall1]; subst. inversion Hall1 as [|e2 l2 Hp Hall2]; subst.
  inversion Hall2 as [|e3 l3 Ha _]; subst. cbn [snd] in He, Hp, Ha.
  unfold mask_pii, PII_PATTERNS. cbn [fold_left].
  rewrite (mask_step_none {| masked_text := masked; pii := [] |} _ _ He).
  rewrite (mask_step_none {| masked_text := masked; pii := [] |} _ _ Hp).
  exact (mask_step_none {| masked_text := masked; pii := [] |} _ _ Ha).
Qed.

End RunFacts.

(* ================================================================== *)
(** * The chat endpoint, from the request to the audit table *)
(* ================================================================== *)

Module EndpointMore.
Import ZArith.
Import Utils Policy AuditDb AuditQueries App Admin Vocabulary.
Import RuleFacts AggregatorFacts RunFacts AuditMore.

Lemma respond_decision (d : decision) (m : text) (ex : explain) :
  r_decision (respond d m ex) = d.
Proof. now destruct d. Qed.

Lemma respond_explain (d : decision) (m : text) (ex : explain) :
  r_explain (respond d m ex) = ex.
Proof. now destruct d. Qed.


Section WithEngine.
Context {E : RegexEngine}.

(** What [decision_aggregator] returns when it returns. *)
Lemma decision_aggregator_ok (cfg : config) (t : text) (v : verdict) :
  decision_aggregator cfg t = Ok v ->
  exists ms c,
    match_rules (RULES cfg) t = Ok ms
    /\ classify_text (clf cfg) t = Ok c
    /\ v = if existsb is_high_block ms
           then {| v_decision := BLOCK; matched_rules := ms; classifier_res := c;
                   block_hits := None; warn_hits := None |}
           else tiers23 cfg ms c.
Proof.
  intro H.
  destruct (match_rules (RULES cfg) t) as [ms|e] eqn:Hm.
  2:{ unfold decision_aggregator in H. rewrite Hm in H. discriminate. }
  destruct (classify_text (clf cfg) t) as [c|e] eqn:Hc.
  2:{ unfold decision_aggregator in H. rewrite Hm in H. cbn [bind] in H.
      rewrite Hc in H. destruct (existsb is_high_block ms); discriminate. }
  exists ms, c. split; [reflexivity|]. split; [reflexivity|].
  destruct (existsb is_high_block ms) eqn:Hhb.
  - rewrite (aggregator_tier1 cfg t ms c Hm Hhb Hc) in H. congruence.
  - rewrite (aggregator_tiers23 cfg t ms c Hm Hhb Hc) in H. congruence.
Qed.


(** The hit lists of a verdict go with its decision. *)
Lemma verdict_hits (cfg : config) (t : text) (v : verdict) :
  decision_aggregator cfg t = Ok v ->
  (forall wh, warn_hits v = Some wh ->
     wh <> [] /\ v_decision v = WARN /\ block_hits v = None)
  /\ (forall bh, block_hits v = Some bh ->
        bh <> [] /\ v_decision v = BLOCK /\ warn_hits v = None).
Proof.
  intro H. destruct (decision_aggregator_ok cfg t v H) as (ms & c & _ & _ & ->).
  destruct (existsb is_high_block ms); [split; intros ? [=]|].
  unfold tiers23.
  destruct (filter (reaches_block c) (class_thresholds cfg));
    [destruct (filter (is_warn_hit (warn_thresholds cfg) c) (class_thresholds cfg))|];
    cbn; split; intros ? [= <-]; repeat split; discriminate.
Qed.

Lemma verdict_consistent (cfg : config) (t : text) (v : verdict) (a : audit_record) :
  decision_aggregator cfg t = Ok v ->
  a_decision a = v_decision v ->
  a_block_hits a = with_default (block_hits v) [] ->
  a_warn_hits a = with_default (warn_hits v) [] ->
  consistent a.
Proof.
  intros H Hd Hb Hw. destruct (verdict_hits cfg t v H) as [Hwh Hbh].
  unfold consistent. rewrite Hd, Hb, Hw.
  destruct (warn_hits v) as [wh|], (block_hits v) as [bh|]; cbn [with_default].
  - destruct (Hwh wh eq_refl) as (_ & _ & [=]).
  - destruct (Hwh wh eq_refl) as (_ & -> & _). split; [now split | congruence].
  - destruct (Hbh bh eq_refl) as (_ & -> & _). split; [congruence | now split].
  - split; congruence.
Qed.




(** X15. The shape of every response: the text it shows is the masked one, which
    none of the PII patterns matches; its floats are finite; a BLOCK
    carries the refusal and no answer, so the responder is not asked; every
    other decision carries the responder's answer to the masked text and no
    refusal; the warning comes with WARN and only with it; and the audit is
    either numbered or its failure is reported. *)
Theorem response_shape (now : clock) (b : body) (w : world) (r : response) (w' : world) :
  chat_endpoint now b w = (Ok r, w') ->
  let shown := x_masked_text (r_explain r) in
  shown = masked_text (mask_pii (with_default (b_text b) []))
  /\ Forall (fun e => Re.search (snd e) shown = false) PII_PATTERNS
  /\ json_safe (x_classifier (r_explain r)) = true
  /\ (exists v, decision_aggregator (w_config w) shown = Ok v
                /\ r_decision r = v_decision v
                /\ x_classifier (r_explain r) = classifier_res v
                /\ x_matched_rules (r_explain r) = map summary (matched_rules v))
  /\ (r_decision r = BLOCK ->
        r_safe_response r = Some SAFE_RESPONSE /\ r_llm_response r = None)
  /\ (r_decision r <> BLOCK ->
        r_safe_response r = None
        /\ r_llm_response r = Some (Llm.pass_through_llm shown))
  /\ (r_decision r = WARN -> r_warning r = Some WARNING)
  /\ (r_decision r <> WARN -> r_warning r = None)
  /\ (x_audit_id (r_explain r) = None <-> x_audit_error (r_explain r) <> None).
Proof.
  intros H shown. subst shown. unfold chat_endpoint in H.
  set (t := with_default (b_text b) []) in *.
  pose proof (masked_text_no_match t) as Hfree.
  set (masked := masked_text (mask_pii t)) in *.
  destruct (decision_aggregator (w_config w) masked) as [v|e] eqn:Hv; [|discriminate].
  destruct (json_safe (classifier_res v)) eqn:Hsafe;
    [|destruct (insert_audit _ _) as [[id|e] db']; discriminate].
  destruct (insert_audit _ _) as [[id|e] db']; injection H as <- _;
    rewrite respond_explain, respond_decision; cbn [x_masked_text x_classifier
      x_matched_rules x_audit_id x_audit_error];
    (split; [reflexivity|]); (split; [exact Hfree|]); (split; [exact Hsafe|]);
    (split; [exists v; rewrite Hv; repeat split|]);
    destruct (v_decision v); cbn; repeat split; congruence.
Qed.




(** X18. The counters add up: a served request raises [requests] by one and
    records the time.  When the aggregator returns a verdict, the counter
    of its decision goes up by one and the other two stay, whether the
    response is then sent, with that decision, or fails to render; when the
    aggregator raises, the request raises the same and no decision is
    counted.  So no more decisions are counted than requests. *)
Theorem served_requests_are_counted (now : clock) (b : body) (w : world) :
  counted (w_metrics w) ->
  let out := fst (serve_chat now b w) in
  let w' := snd (serve_chat now b w) in
  counted (w_metrics w')
  /\ health w' = S (health w)
  /\ m_last_request (w_metrics w') = Some (t_received now)
  /\ match decision_aggregator (w_config w)
             (masked_text (mask_pii (with_default (b_text b) []))) with
     | Ok v =>
         tally (v_decision v) (w_metrics w') = S (tally (v_decision v) (w_metrics w))
         /\ (forall d, d <> v_decision v -> tally d (w_metrics w') = tally d (w_metrics w))
         /\ (forall r, out = Ok r -> r_decision r = v_decision v)
         /\ (forall e, out = Raise e -> e = ValueError)
     | Raise e =>
         out = Raise e /\ forall d, tally d (w_metrics w') = tally d (w_metrics w)
     end.
Proof.
  unfold counted, health, serve_chat, metrics_middleware, chat_endpoint.
  cbn [w_config w_metrics w_db]. intro Hc.
  destruct (decision_aggregator _ _) as [v|e].
  - destruct (insert_audit _ _) as [[id|e] db'];
      destruct (json_safe (classifier_res v)); cbn [fst snd];
      (split; [destruct (v_decision v); cbn; lia|]);
      (split; [reflexivity|]); (split; [reflexivity|]);
      (split; [destruct (v_decision v); reflexivity|]);
      (split; [intros d Hd; destruct (v_decision v), d; cbn; congruence|]);
      (split; [intros r [= <-]; apply respond_decision || discriminate
              | intros e' [= <-]; reflexivity || discriminate]).
  - cbn. repeat split; lia.
Qed.

(** X19. The writers keep the audits as [chat_endpoint] writes them: warn-hits
    only under WARN, block-hits only under BLOCK, never both; the reviewer
    changes no audit. *)
Theorem audits_stay_consistent (now : clock) (b : body) (w : world) :
  audits_consistent (w_db w) ->
  audits_consistent (w_db (snd (chat_endpoint now b w)))
  /\ forall key aid action,
       audits_consistent (w_db (snd (admin_review_decision key aid action w))).
Proof.
  unfold audits_consistent. intro H. split.
  - unfold chat_endpoint.
    destruct (decision_aggregator _ _) as [v|e] eqn:Hv; [|exact H].
    unfold insert_audit.
    destruct (db_fault (w_db w)); destruct (json_safe (classifier_res v));
      try exact H; cbn [snd w_db db_rows]; (apply Forall_app; split; [exact H|]);
      (constructor; [|constructor]); cbn [row_audit];
      now apply (verdict_consistent _ _ v _ Hv).
  - intros key aid action. unfold admin_review_decision, protected.
    destruct (check_admin key); [|exact H].
    destruct (valid_action action); [|exact H].
    unfold set_reviewer_decision. destruct (db_fault (w_db w)); [exact H|].
    destruct (in_int64 aid); [|destruct w; exact H].
    cbn [snd with_db w_db db_rows]. rewrite Forall_map.
    eapply Forall_impl; [|exact H]. intros r Hr. now rewrite review_keeps_audit.
Qed.

End WithEngine.

End EndpointMore.

(* ================================================================== *)
(** * The administrative endpoints *)
(* ================================================================== *)

Module AdminMore.
Import ZArith.
Import Utils AuditDb AuditQueries App Admin Vocabulary.
Import AuditMore.


(** X20. With the key and a limit of 64 bits, every item of the review queue
    is a stored audit that was answered with WARN, has warn-hits and no
    block-hit, and the count is the number of items.  With any other limit
    the handler ends in [OverflowError] and changes nothing. *)
Theorem review_queue_only_warn (key : option string) (limit : Z) (w : world) :
  check_admin key = true ->
  db_fault (w_db w) = None ->
  audits_consistent (w_db w) ->
  (in_int64 limit = true ->
   exists page,
     admin_review_queue key limit w = (Sent page, w)
     /\ p_count page = length (p_audits page)
     /\ forall r, In r (p_audits page) ->
          In r (db_rows (w_db w))
          /\ a_decision (row_audit r) = WARN
          /\ a_warn_hits (row_audit r) <> []
          /\ a_block_hits (row_audit r) = [])
  /\ (in_int64 limit = false ->
      admin_review_queue key limit w = (Crashed OverflowError, w)).
Proof.
  intros Hk Hf Hc. unfold admin_review_queue, protected. rewrite Hk.
  split; intro Hfit.
  2:{ unfold fetch_audits. now rewrite Hf, Hfit. }
  destruct (fetch_audits limit (w_db w)) as [rows|e] eqn:Hrows.
  2:{ unfold fetch_audits in Hrows. rewrite Hf, Hfit in Hrows. discriminate. }
  eexists. split; [reflexivity|]. cbn [p_count p_audits]. split; [reflexivity|].
  intros r Hr. apply filter_In in Hr as [Hin Hne].
  pose proof (fetch_audits_in limit (w_db w) rows Hrows r Hin) as Hdb.
  split; [exact Hdb|]. unfold audits_consistent in Hc. rewrite Forall_forall in Hc.
  destruct (Hc r Hdb) as [Hw _].
  assert (Hwh : a_warn_hits (row_audit r) <> []).
  { destruct (a_warn_hits (row_audit r)); [discriminate Hne | discriminate]. }
  destruct (Hw Hwh) as [Hd Hb]. repeat split; assumption.
Qed.


End AdminMore.

Module EndpointMoreSamples.
Import ZArith.
Import Utils Policy AuditDb AuditQueries App Admin Vocabulary Sample SampleAudits.

(** The question about antibiotics with an address in it: the answer shows
    the text without the address. *)
Lemma response_shape_witness :
  exists r w',
    chat_endpoint noon (ask "Can I get antibiotics? mail a@b.cd")
      (serving (cfg rules script) two_audits) = (Ok r, w')
    /\ Forall (fun e => Re.search (snd e) (x_masked_text (r_explain r)) = false)
         PII_PATTERNS.
Proof.
  eexists _, _. split; [vm_compute; reflexivity|].
  match goal with
  | |- context [r_explain ?r] =>
      edestruct (@EndpointMore.response_shape fragment_engine noon
                   (ask "Can I get antibiotics? mail a@b.cd")
                   (serving (cfg rules script) two_audits) r) as (_ & Hfree & _)
  end.
  - vm_compute. reflexivity.
  - exact Hfree.
Defined.



(** One served request on fresh counters. *)
Lemma served_requests_are_counted_witness :
  counted (w_metrics (snd (serve_chat noon (ask "Can I get antibiotics?")
                             (serving (cfg rules script) two_audits))))
  /\ health (snd (serve_chat noon (ask "Can I get antibiotics?")
                    (serving (cfg rules script) two_audits))) = 1.
Proof.
  destruct (@EndpointMore.served_requests_are_counted fragment_engine noon
              (ask "Can I get antibiotics?") (serving (cfg rules script) two_audits))
    as (Hc & Hh & _).
  - unfold counted. cbn. lia.
  - split; [exact Hc | exact Hh].
Defined.

(** The table of two audits stays consistent under a third request. *)
Lemma audits_stay_consistent_witness :
  audits_consistent
    (w_db (snd (chat_endpoint noon (ask "Can I get antibiotics?")
                  (serving (cfg rules script) two_audits)))).
Proof.
  apply (@EndpointMore.audits_stay_consistent fragment_engine noon
           (ask "Can I get antibiotics?") (serving (cfg rules script) two_audits)).
  unfold audits_consistent, consistent. cbn.
  repeat constructor; cbn in *; congruence.
Defined.

(** A classifier that answers NaN for the first class: the verdict is
    ALLOW, it is counted and audited, and the request ends in
    [ValueError] when the response is rendered. *)
Example nan_score_is_not_rendered :
  let out := chat_endpoint noon (ask "hello")
               (serving (cfg rules [PrimFloat.nan; 0; 0; 0]%float) two_audits) in
  fst out = Raise ValueError
  /\ m_allowed (w_metrics (snd out)) = 1
  /\ map row_id (db_rows (w_db (snd out))) = [1; 2; 3]
  /\ map (fun r => a_decision (row_audit r)) (db_rows (w_db (snd out))) = [ALLOW; WARN; ALLOW].
Proof. vm_compute. repeat split. Qed.

(** Ids and limits outside 64 bits end in [OverflowError]. *)
Example out_of_range_parameters :
  fetch_audits (2 ^ 63) two_audits = Raise OverflowError
  /\ fetch_audit_by_id (- 2 ^ 63 - 1) two_audits = Raise OverflowError
  /\ set_reviewer_decision (2 ^ 63) "allow" two_audits = (Raise OverflowError, two_audits)
  /\ fetch_audit_by_id (2 ^ 63 - 1) two_audits = Ok None.
Proof. repeat split. Qed.

End EndpointMoreSamples.

Module AdminMoreSamples.
Import ZArith.
Import Utils AuditDb AuditQueries App Admin Vocabulary Sample SampleAudits.

(** The queue over the table of two audits. *)
Lemma review_queue_only_warn_witness :
  exists page,
    admin_review_queue key 10 (serving (cfg rules script) two_audits)
    = (Sent page, serving (cfg rules script) two_audits)
    /\ forall r, In r (p_audits page) -> a_decision (row_audit r) = WARN.
Proof.
  destruct (AdminMore.review_queue_only_warn key 10 (serving (cfg rules script) two_audits))
    as [Hfit _].
  - reflexivity.
  - reflexivity.
  - unfold audits_consistent, consistent. cbn. repeat constructor; cbn in *; congruence.
  - destruct Hfit as (page & Hq & _ & Hall); [reflexivity|].
    exists page. split; [exact Hq|]. intros r Hr. now apply Hall.
Defined.


End AdminMoreSamples.
